(** * Otter: scheduler, launch worker and convergence data model

    A shallow embedding of the Python sources

      - [otter/convergence/model.py]
      - [otter/worker/launch_server_v1.py]
      - [otter/scheduler.py]

    together with the two collaborators that the sources only import
    ([croniter] and [otter.util.pure_http]).  The first part of the file
    holds the embedding, module per source file; the second part holds the
    properties. *)

From Stdlib Require Import ZArith String Ascii List Lia Bool DecimalString.
From stdpp Require Import base option list gmap strings.

Local Open Scope Z_scope.
Local Open Scope string_scope.
Local Open Scope list_scope.
Set Warnings "-register-all".

(* ===================================================================== *)
(** * Part I: the embedding                                                *)
(* ===================================================================== *)

(** ** Python runtime values shared by all modules *)

Module Py.

(** Exceptions that the modelled code raises or traps.  [APIError] carries
    the response code and body, as the class of the same name in
    [launch_server_v1.py]; [OtherError] stands for any exception class that
    the sources do not name. *)
Inductive exn : Type :=
| NameError (name : string)
| KeyError (key : string)
| IndexError
| TypeError
| ValueError
| APIError (code : Z) (body : string)
| CannotExecutePolicyError
| NoSuchPolicyError
| NoSuchScalingGroupError
| FirstError (sub : exn) (index : nat)
| OtherError (name : string).

(** A Twisted [Deferred] as the callbacks see it: fired with a value,
    fired with a failure, or not fired (yet, or ever).  A synchronous call
    is the special case that never waits: [Succeeded] is a return and
    [Failed] a raised exception. *)
Inductive deferred (A : Type) : Type :=
| Succeeded (a : A)
| Failed (e : exn)
| Waiting.
Arguments Succeeded {A} a.
Arguments Failed {A} e.
Arguments Waiting {A}.

(** Code that runs against a mutable world [S]. *)
Definition Task (S A : Type) : Type := S -> deferred A * S.

#[export] Instance task_ret {S} : MRet (Task S) :=
  fun A a s => (Succeeded a, s).

(** Sequencing of statements, and [d.addCallback(f)]: [f] runs on success
    and its outcome replaces the result; a failure passes through. *)
#[export] Instance task_bind {S} : MBind (Task S) :=
  fun A B f m s =>
    match m s with
    | (Succeeded a, s') => f a s'
    | (Failed e, s') => (Failed e, s')
    | (Waiting, s') => (Waiting, s')
    end.

Definition addCallback {S A B} (d : Task S A) (f : A -> Task S B) : Task S B :=
  d ≫= f.

(** [d.addErrback(f)]: [f] runs on failure only. *)
Definition addErrback {S A} (d : Task S A) (f : exn -> Task S A) : Task S A :=
  fun s =>
    match d s with
    | (Failed e, s') => f e s'
    | r => r
    end.

Definition raise {S A} (e : exn) : Task S A := fun s => (Failed e, s).

(** A Deferred that was produced earlier, seen as a task. *)
Definition fired {S A} (d : deferred A) : Task S A := fun s => (d, s).

(** [return d] for a Deferred [d] that the function has built: the caller
    gets the Deferred itself, whatever its state. *)
Definition returning {S A} (d : Task S A) : Task S (deferred A) :=
  fun s => let '(r, s') := d s in (Succeeded r, s').

Definition modify {S} (f : S -> S) : Task S unit := fun s => (Succeeded tt, f s).

Definition gets {S A} (f : S -> A) : Task S A := fun s => (Succeeded (f s), s).

Definition is_failed {A} (d : deferred A) : bool :=
  match d with Failed _ => true | _ => false end.

(** [[f(x) for x in xs]] for an [f] that returns a Deferred: the calls are
    made in order and each hands back its Deferred; a Deferred that has
    failed does not stop the comprehension. *)
Fixpoint comprehension {S A B} (f : A -> Task S B) (xs : list A)
    : Task S (list (deferred B)) :=
  match xs with
  | [] => mret []
  | x :: rest =>
      d ← returning (f x);
      ds ← comprehension f rest;
      mret (d :: ds)
  end.

(** [[f(x) for x in xs]] for an [f] that may raise: the calls are made in
    order, and an exception of one of them ends the comprehension there. *)
Fixpoint for_each {S A B} (f : A -> Task S B) (xs : list A) : Task S (list B) :=
  match xs with
  | [] => mret []
  | x :: rest =>
      y ← f x;
      ys ← for_each f rest;
      mret (y :: ys)
  end.

(** [gatherResults(ds, consumeErrors=True)]: the list of all results once
    every Deferred has succeeded; [FirstError] as soon as one has failed.
    Among Deferreds that have already failed the callbacks are attached in
    list order, so the first failure in the list is the one reported. *)
Fixpoint gather_from {A} (index : nat) (ds : list (deferred A)) : deferred (list A) :=
  match ds with
  | [] => Succeeded []
  | Failed e :: _ => Failed (FirstError e index)
  | Succeeded a :: rest =>
      match gather_from (S index) rest with
      | Succeeded l => Succeeded (a :: l)
      | Failed e => Failed e
      | Waiting => Waiting
      end
  | Waiting :: rest =>
      match gather_from (S index) rest with
      | Failed e => Failed e
      | _ => Waiting
      end
  end.

Definition gatherResults {A} (ds : list (deferred A)) : deferred (list A) :=
  gather_from 0 ds.

(** Name resolution in a scope that binds [scope]: an unbound name raises
    [NameError]. *)
Fixpoint load_name {A} (scope : list (string * A)) (name : string) : deferred A :=
  match scope with
  | [] => Failed (NameError name)
  | (n, v) :: rest => if String.eqb n name then Succeeded v else load_name rest name
  end.

End Py.

(** ** [otter/convergence/model.py] *)

Module Model.

Inductive CLBNodeCondition : Type := ENABLED | DRAINING | DISABLED.

Inductive CLBNodeType : Type := PRIMARY | SECONDARY.

Inductive ServerState : Type := ACTIVE | ERROR | BUILD | SERVER_DRAINING.

Record CLBDescription : Type := mkCLBDescription {
  lb_id : string;
  port : Z;
  weight : Z;
  condition : CLBNodeCondition;
  type : CLBNodeType
}.

Record RCv3Description : Type := mkRCv3Description {
  pool_id : string
}.

(** The providers of [ILBDescription]. *)
Inductive LBDescription : Type :=
| CLB (d : CLBDescription)
| RCv3 (d : RCv3Description).

(** [CLBDescription.equivalent_definition(self, other_description)] *)
Definition CLB_equivalent_definition (self : CLBDescription)
    (other_description : LBDescription) : bool :=
  match other_description with
  | CLB other => String.eqb (lb_id other) (lb_id self) && Z.eqb (port other) (port self)
  | RCv3 _ => false
  end.

(** [RCv3Description.equivalent_definition(self, other_description)] *)
Definition RCv3_equivalent_definition (self : RCv3Description)
    (other_description : LBDescription) : bool :=
  match other_description with
  | RCv3 other => String.eqb (pool_id other) (pool_id self)
  | CLB _ => false
  end.

(** [a.equivalent_definition(b)], dispatched on the class of [a]. *)
Definition equivalent_definition (a b : LBDescription) : bool :=
  match a with
  | CLB self => CLB_equivalent_definition self b
  | RCv3 self => RCv3_equivalent_definition self b
  end.

(** A description with the attributes outside the definition key replaced;
    an RCv3 description has none. *)
Definition with_node_attributes (w : Z) (c : CLBNodeCondition) (t : CLBNodeType)
    (d : LBDescription) : LBDescription :=
  match d with
  | CLB x => CLB (mkCLBDescription (lb_id x) (port x) w c t)
  | RCv3 x => RCv3 x
  end.

End Model.

(** ** JSON documents, as [json.loads] hands them to the code *)

Module Json.
Import Py.

Inductive json : Type :=
| JNull
| JBool (b : bool)
| JInt (z : Z)
| JStr (s : string)
| JList (items : list json)
| JDict (items : list (string * json)).

Fixpoint lookup_key (key : string) (items : list (string * json)) : option json :=
  match items with
  | [] => None
  | (k, v) :: rest => if String.eqb k key then Some v else lookup_key key rest
  end.

(** [v[key]] with a string key. *)
Definition getitem {S} (v : json) (key : string) : Task S json :=
  match v with
  | JDict items =>
      match lookup_key key items with
      | Some x => mret x
      | None => raise (KeyError key)
      end
  | _ => raise TypeError
  end.

(** [xs[0]] on a list. *)
Definition first_item {S A} (xs : list A) : Task S A :=
  match xs with
  | x :: _ => mret x
  | [] => raise IndexError
  end.

(** [d[key]] for a key of a record that may be absent. *)
Definition subscript {S A} (key : string) (found : option A) : Task S A :=
  match found with
  | Some v => mret v
  | None => raise (KeyError key)
  end.

(** Iterating a value that is expected to be a list. *)
Definition as_list {S} (v : json) : Task S (list json) :=
  match v with
  | JList items => mret items
  | _ => raise TypeError
  end.

(** Using a value where the code needs a [str]. *)
Definition as_str {S} (v : json) : Task S string :=
  match v with
  | JStr s => mret s
  | _ => raise TypeError
  end.

(** [v == s] for a string [s], and [v == n] for an integer [n]. *)
Definition eq_str (v : json) (s : string) : bool :=
  match v with
  | JStr t => String.eqb t s
  | _ => false
  end.

Definition eq_int (v : json) (n : Z) : bool :=
  match v with
  | JInt m => Z.eqb m n
  | _ => false
  end.

End Json.

(** ** [otter/worker/launch_server_v1.py] *)

Module Worker.
Import Py Json.

Record Request : Type := mkRequest {
  method : string;
  url : string;
  auth_headers_kw : list (string * list string);
  data : option string
}.

Record Response : Type := mkResponse {
  code : Z;
  content : string
}.

(** What the module observes of the outside: the clock of the reactor, the
    requests handed to treq with the time of each, and standard output. *)
Record World : Type := mkWorld {
  w_time : Z;
  w_sent : list (Z * Request);
  w_stdout : list string
}.

(** The imported libraries.  [treq_send] answers a request given the
    requests sent before it; [json_loads] is [None] where [json.loads]
    raises [ValueError]. *)
Record Runtime : Type := mkRuntime {
  treq_send : list (Z * Request) -> Request -> deferred Response;
  json_loads : string -> option json;
  json_dumps : json -> string
}.

Definition send (rt : Runtime) (r : Request) : Task World Response :=
  fun w =>
    (treq_send rt (w_sent w) r,
     mkWorld (w_time w) (w_sent w ++ [(w_time w, r)]) (w_stdout w)).

Definition treq_get (rt : Runtime) (u : string) (hs : list (string * list string))
    : Task World Response :=
  send rt (mkRequest "GET" u hs None).

Definition treq_post (rt : Runtime) (u : string) (hs : list (string * list string))
    (body : string) : Task World Response :=
  send rt (mkRequest "POST" u hs (Some body)).

(** [treq.content(response)] *)
Definition treq_content {S} (response : Response) : Task S string :=
  mret (content response).

(** [treq.json_content(response)] *)
Definition treq_json_content {S} (rt : Runtime) (response : Response) : Task S json :=
  match json_loads rt (content response) with
  | Some v => mret v
  | None => raise ValueError
  end.

Definition print (line : string) : Task World unit :=
  modify (fun w => mkWorld (w_time w) (w_sent w) (w_stdout w ++ [line])).

(** The reactor lets [seconds] pass. *)
Definition sleep (seconds : Z) : Task World unit :=
  modify (fun w => mkWorld (w_time w + seconds) (w_sent w) (w_stdout w)).

(** [response.code not in success_codes] *)
Definition code_not_in (response : Response) (success_codes : list Z) : bool :=
  negb (existsb (Z.eqb (code response)) success_codes).

Definition check_success {S} (response : Response) (success_codes : list Z)
    : Task S Response :=
  let _raise_api_error (body : string) : Task S Response :=
    raise (APIError (code response) body) in
  if code_not_in response success_codes
  then addCallback (treq_content response) _raise_api_error
  else mret response.

(** [s.rstrip(c)] for a single character [c]. *)
Fixpoint rstrip (c : ascii) (s : string) : string :=
  match s with
  | EmptyString => EmptyString
  | String a rest =>
      match rstrip c rest with
      | EmptyString => if Ascii.eqb a c then EmptyString else String a EmptyString
      | r => String a r
      end
  end.

Definition between (lo hi n : N) : bool := (N.leb lo n && N.leb n hi)%bool.

(** The characters [urllib.quote] leaves alone: letters, digits, [_.-] and
    the default [safe='/']. *)
Definition quote_safe (c : ascii) : bool :=
  let n := N_of_ascii c in
  (between 65 90 n || between 97 122 n || between 48 57 n
   || N.eqb n 95 || N.eqb n 46 || N.eqb n 45 || N.eqb n 47)%bool.

Definition hex_digit (n : N) : ascii :=
  match String.get (N.to_nat n) "0123456789ABCDEF" with
  | Some c => c
  | None => "0"%char
  end.

Fixpoint quote (s : string) : string :=
  match s with
  | EmptyString => EmptyString
  | String c rest =>
      if quote_safe c then String c (quote rest)
      else
        let n := N_of_ascii c in
        String "%" (String (hex_digit (N.div n 16))
                      (String (hex_digit (N.modulo n 16)) (quote rest)))
  end.

(** [str(n)] for an integer. *)
Definition str (n : Z) : string := DecimalString.NilZero.string_of_int (Z.to_int n).

Definition append_segments (uri : string) (segments : list string) : Task World string :=
  let uri := String.concat "/" (rstrip "/" uri :: map quote segments) in
  _ ← print uri;
  mret uri.

Definition auth_headers (auth_token : string) : list (string * list string) :=
  [("content-type", ["application/json"]);
   ("accept", ["application/json"]);
   ("x-auth-token", [auth_token])].

Definition server_details (rt : Runtime) (server_endpoint auth_token server_id : string)
    : Task World json :=
  u ← append_segments server_endpoint ["servers"; server_id];
  let d := treq_get rt u (auth_headers auth_token) in
  let d := addCallback d (fun r => check_success r [200; 203]) in
  addCallback d (treq_json_content rt).

(** [server['server']['status'] == expected_status] *)
Definition status_is {S} (server : json) (expected_status : string) : Task S bool :=
  s ← getitem server "server";
  st ← getitem s "status";
  mret (eq_str st expected_status).

(** [poll] of [wait_for_status]: the details of the server are asked for
    and handed to [_check_status], which fires [d] with the document when
    the document shows [expected_status].  [Some server] is a poll that has
    fired [d], [None] one that has left it alone; the subscripts of
    [_check_status] raise on a document without [['server']['status']], and
    the exception is the failure of the Deferred of the poll. *)
Definition poll (rt : Runtime)
    (server_endpoint auth_token server_id expected_status : string)
    : Task World (option json) :=
  server ← server_details rt server_endpoint auth_token server_id;
  seen ← status_is server expected_status;
  mret (if (seen : bool) then Some server else None).

(** The calls of a running [LoopingCall(f)], with the callbacks that
    [wait_for_status] hangs on it: [f] is called, and called again once its
    Deferred has fired without [d] having been fired; a call whose Deferred
    fails stops the loop and fails the result; a call that fires [d] stops
    the loop through [_stop], and the result is [d].  [calls] bounds the
    number of calls that are followed; the code itself has no bound, and
    [Waiting] is the result while the loop is still running.  The clock is
    that of a reactor whose requests are answered at once, so that the next
    call falls on the next interval. *)
Fixpoint looping_call {A} (f : Task World (option A)) (calls : nat) (interval : Z)
    : Task World A :=
  match calls with
  | O => fired Waiting
  | S calls' =>
      r ← f;
      match r with
      | Some a => mret a
      | None =>
          _ ← sleep interval;
          looping_call f calls' interval
      end
  end.

(** [LoopingCall(f).start(interval)]: [start] refuses a negative interval
    with [ValueError] before [f] is called for the first time. *)
Definition LoopingCall_start {A} (f : Task World (option A)) (calls : nat) (interval : Z)
    : Task World A :=
  if Z.ltb interval 0 then raise ValueError
  else looping_call f calls interval.

Definition wait_for_status (rt : Runtime) (polls : nat)
    (server_endpoint auth_token server_id expected_status : string) (interval : Z)
    : Task World json :=
  LoopingCall_start (poll rt server_endpoint auth_token server_id expected_status)
    polls interval.

Definition create_server (rt : Runtime) (server_endpoint auth_token : string)
    (scaling_group : option string) (server_config : json) : Task World json :=
  u ← append_segments server_endpoint ["servers"];
  let d := treq_post rt u (auth_headers auth_token)
             (json_dumps rt (JDict [("server", server_config)])) in
  let d := addCallback d (fun r => check_success r [202]) in
  addCallback d (treq_json_content rt).

(** An entry of [launch_config['loadBalancers']]; a key that the
    dictionary does not have is [None]. *)
Record LBConfig : Type := mkLBConfig {
  loadBalancerId : option Z;
  lb_port : option Z
}.

(** The body of the add-node request. *)
Definition add_node_body (port : Z) (ip_address : json) : json :=
  JDict [("nodes",
          JList [JDict [("address", ip_address);
                        ("port", JInt port);
                        ("condition", JStr "ENABLED");
                        ("type", JStr "PRIMARY")]])].

(** [add_to_load_balancer]: the two subscripts of [lb_config] run, and may
    raise, when the function is called; what it returns is the Deferred of
    the request. *)
Definition add_to_load_balancer (rt : Runtime) (endpoint auth_token : string)
    (lb_config : LBConfig) (ip_address : json) : Task World (deferred json) :=
  lb_id ← subscript "loadBalancerId" (loadBalancerId lb_config);
  port ← subscript "port" (lb_port lb_config);
  path ← append_segments endpoint ["loadbalancers"; str lb_id; "nodes"];
  let d := treq_post rt path (auth_headers auth_token)
             (json_dumps rt (add_node_body port ip_address)) in
  let d := addCallback d (fun r => check_success r [200; 202]) in
  returning (addCallback d (treq_json_content rt)).

(** [add_to_load_balancers]: the list comprehension makes the calls, and
    an exception of one of them leaves the function; otherwise the result
    is the Deferred of [gatherResults]. *)
Definition add_to_load_balancers (rt : Runtime) (endpoint auth_token : string)
    (lb_configs : list LBConfig) (ip_address : json)
    : Task World (deferred (list json)) :=
  ds ← for_each
         (fun lb_config => add_to_load_balancer rt endpoint auth_token lb_config ip_address)
         lb_configs;
  mret (gatherResults ds).

(** A service-catalog entry and its endpoints; a key that the document
    does not have is [None]. *)
Record Endpoint : Type := mkEndpoint {
  region : option string;
  publicURL : option string
}.

Record Service : Type := mkService {
  service_name : option string;
  service_type : option string;
  service_endpoints : option (list Endpoint)
}.

(** Truth value of an optional string argument: [None] and [''] are false. *)
Definition truthy (v : option string) : bool :=
  match v with
  | Some s => negb (String.eqb s "")
  | None => false
  end.

(** [wanted and wanted != d[key]] where [found] is [d.get(key)]: the
    subscript is evaluated, and may raise [KeyError], only when [wanted] is
    true. *)
Definition differs (wanted : option string) (key : string) (found : option string)
    : exn + bool :=
  match wanted with
  | Some w =>
      if truthy wanted then
        match found with
        | Some f => inr (negb (String.eqb w f))
        | None => inl (KeyError key)
        end
      else inr false
  | None => inr false
  end.

(** What a generator does when it is run to the end: the values it yields
    and the exception that ends it, if one does. *)
Definition generated (A : Type) : Type := (list A * option exn)%type.

Definition yield_then {A} (xs : list A) (g : generated A) : generated A :=
  (xs ++ fst g, snd g).

(** The inner loop of [endpoints]. *)
Fixpoint endpoints_of_service (es : list Endpoint) (region_wanted : option string)
    : generated Endpoint :=
  match es with
  | [] => ([], None)
  | endpoint :: rest =>
      match differs region_wanted "region" (region endpoint) with
      | inl e => ([], Some e)
      | inr true => endpoints_of_service rest region_wanted
      | inr false => yield_then [endpoint] (endpoints_of_service rest region_wanted)
      end
  end.

Fixpoint endpoints (service_catalog : list Service)
    (name_wanted type_wanted region_wanted : option string) : generated Endpoint :=
  match service_catalog with
  | [] => ([], None)
  | service :: rest =>
      match differs type_wanted "type" (service_type service) with
      | inl e => ([], Some e)
      | inr true => endpoints rest name_wanted type_wanted region_wanted
      | inr false =>
          match differs name_wanted "name" (service_name service) with
          | inl e => ([], Some e)
          | inr true => endpoints rest name_wanted type_wanted region_wanted
          | inr false =>
              match service_endpoints service with
              | None => ([], Some (KeyError "endpoints"))
              | Some es =>
                  match endpoints_of_service es region_wanted with
                  | (ys, Some e) => (ys, Some e)
                  | (ys, None) =>
                      yield_then ys
                        (endpoints rest name_wanted type_wanted region_wanted)
                  end
              end
          end
      end
  end.

(** [list(g)] *)
Definition list_of {S A} (g : generated A) : Task S (list A) :=
  match snd g with
  | Some e => raise e
  | None => mret (fst g)
  end.

Record LaunchConfig : Type := mkLaunchConfig {
  lc_loadBalancers : option (list LBConfig);
  lc_server : option json
}.

(** [filter(lambda x: x['version'] == 4, xs)] *)
Fixpoint filter_version4 {S} (xs : list json) : Task S (list json) :=
  match xs with
  | [] => mret []
  | x :: rest =>
      v ← getitem x "version";
      keep ← filter_version4 rest;
      mret (if eq_int v 4 then x :: keep else keep)
  end.

(** [launch_server]: the statements before [create_server] run, and may
    raise, when the function is called; the rest is the Deferred it returns. *)
Definition launch_server (rt : Runtime) (polls : nat) (region_ : string)
    (service_catalog : list Service) (auth_token : string)
    (launch_config : LaunchConfig) : Task World (deferred (list json)) :=
  let lb_config := default [] (lc_loadBalancers launch_config) in
  server_config ← subscript "server" (lc_server launch_config);
  lb_found ← list_of (endpoints service_catalog (Some "cloudLoadBalancers") None
                        (Some region_));
  lb_first ← first_item lb_found;
  lb_endpoint ← subscript "publicURL" (publicURL lb_first);
  server_found ← list_of (endpoints service_catalog (Some "cloudServersOpenStack") None
                            (Some region_));
  server_first ← first_item server_found;
  server_endpoint ← subscript "publicURL" (publicURL server_first);
  let d := create_server rt server_endpoint auth_token None server_config in
  let d := addCallback d (fun server =>
             s ← getitem server "server";
             i ← getitem s "id";
             server_id ← as_str i;
             wait_for_status rt polls server_endpoint auth_token server_id "ACTIVE" 5) in
  let _add_lb (server : json) : Task World (list json) :=
    s ← getitem server "server";
    a ← getitem s "addresses";
    p ← getitem a "private";
    ps ← as_list p;
    v4 ← filter_version4 ps;
    x ← first_item v4;
    ip_address ← getitem x "addr";
    d ← add_to_load_balancers rt lb_endpoint auth_token lb_config ip_address;
    fired d in
  let d := addCallback d _add_lb in
  returning d.

End Worker.

(** ** The [croniter] library, which [otter/scheduler.py] imports *)

Module Croniter.
Import Py.

(** Times are UTC seconds since 1970-01-01T00:00:00; the minute that holds
    second [t] has index [t / 60]. *)
Definition time : Type := Z.

(** Modelled from the spec: the library [croniter] is not part of the
    sources; section 4.7 says that it takes a standard 5-field cron
    expression.  One item of a field: [*] and [*/n] are [Every n]; [a],
    [a-b] and [a-b/n] are [Span a b n]. *)
Inductive Item : Type :=
| Every (step : Z)
| Span (first last step : Z).

Definition Field : Type := list Item.

(** Modelled from the spec: the five fields of a standard cron expression,
    in the order in which they are written. *)
Record Cron : Type := mkCron {
  minutes : Field;
  hours : Field;
  days_of_month : Field;
  months : Field;
  days_of_week : Field
}.

Definition is_digit (c : ascii) : bool :=
  let n := N_of_ascii c in (N.leb 48 n && N.leb n 57)%bool.

Fixpoint digits_value (s : string) (acc : Z) : option Z :=
  match s with
  | EmptyString => Some acc
  | String c rest =>
      if is_digit c
      then digits_value rest (10 * acc + Z.of_N (N_of_ascii c) - 48)
      else None
  end.

Definition parse_number (s : string) : option Z :=
  match s with
  | EmptyString => None
  | _ => digits_value s 0
  end.

(** [s.split(sep)] for a single character [sep]. *)
Fixpoint split_on (sep : ascii) (s : string) : list string :=
  match s with
  | EmptyString => [EmptyString]
  | String c rest =>
      if Ascii.eqb c sep then EmptyString :: split_on sep rest
      else
        match split_on sep rest with
        | w :: ws => String c w :: ws
        | [] => [String c EmptyString]
        end
  end.

Definition nonempty (s : string) : bool :=
  match s with EmptyString => false | _ => true end.

(** [s.split()] on blanks. *)
Definition words (s : string) : list string :=
  List.filter nonempty (split_on " " s).

(** Modelled from the spec: the range part of an item, [None] for [*],
    which stands for the whole range of the field. *)
Definition parse_range (s : string) : option (option (Z * Z)) :=
  if String.eqb s "*" then Some None
  else
    match split_on "-" s with
    | [a] => v ← parse_number a; Some (Some (v, v))
    | [a; b] => v ← parse_number a; w ← parse_number b; Some (Some (v, w))
    | _ => None
    end.

Definition in_range (lo hi : Z) (r : option (Z * Z)) : bool :=
  match r with
  | None => true
  | Some (a, b) => (Z.leb lo a && Z.leb a b && Z.leb b hi)%bool
  end.

Definition make_item (r : option (Z * Z)) (step : Z) : Item :=
  match r with
  | None => Every step
  | Some (a, b) => Span a b step
  end.

(** Modelled from the spec: one comma-separated item of a field whose
    values range over [lo..hi]. *)
Definition parse_item (lo hi : Z) (s : string) : option Item :=
  match split_on "/" s with
  | [r] =>
      x ← parse_range r;
      if in_range lo hi x then Some (make_item x 1) else None
  | [r; n] =>
      x ← parse_range r;
      step ← parse_number n;
      if (in_range lo hi x && Z.leb 1 step)%bool then Some (make_item x step) else None
  | _ => None
  end.

Fixpoint parse_items (lo hi : Z) (items : list string) : option Field :=
  match items with
  | [] => Some []
  | s :: rest =>
      i ← parse_item lo hi s;
      f ← parse_items lo hi rest;
      Some (i :: f)
  end.

Definition parse_field (lo hi : Z) (s : string) : option Field :=
  parse_items lo hi (split_on "," s).

(** Modelled from the spec: a cron expression is valid when it has five
    blank-separated fields (minute 0-59, hour 0-23, day of month 1-31,
    month 1-12, day of week 0-7 with both 0 and 7 for Sunday) that parse. *)
Definition parse (expr : string) : option Cron :=
  match words expr with
  | [mi; ho; dm; mo; dw] =>
      a ← parse_field 0 59 mi;
      b ← parse_field 0 23 ho;
      c ← parse_field 1 31 dm;
      d ← parse_field 1 12 mo;
      e ← parse_field 0 7 dw;
      Some (mkCron a b c d e)
  | _ => None
  end.

(** The civil date (year, month, day) of a day number counted from
    1970-01-01, in the proleptic Gregorian calendar. *)
Definition civil_from_days (days : Z) : Z * Z * Z :=
  let z := days + 719468 in
  let era := z / 146097 in
  let doe := z - era * 146097 in
  let yoe := (doe - doe / 1460 + doe / 36524 - doe / 146096) / 365 in
  let doy := doe - (365 * yoe + yoe / 4 - yoe / 100) in
  let mp := (5 * doy + 2) / 153 in
  let d := doy - (153 * mp + 2) / 5 + 1 in
  let m := if Z.ltb mp 10 then mp + 3 else mp - 9 in
  let y := yoe + era * 400 in
  (if Z.leb m 2 then y + 1 else y, m, d).

(** Day of the week of a day number, 0 for Sunday; day 0 was a Thursday. *)
Definition weekday_of_days (days : Z) : Z := (days + 4) mod 7.

Definition item_matches (lo : Z) (v : Z) (i : Item) : bool :=
  match i with
  | Every step => Z.eqb ((v - lo) mod step) 0
  | Span a b step => (Z.leb a v && Z.leb v b && Z.eqb ((v - a) mod step) 0)%bool
  end.

Definition field_matches (lo : Z) (f : Field) (v : Z) : bool :=
  existsb (item_matches lo v) f.

Definition weekday_matches (f : Field) (v : Z) : bool :=
  (field_matches 0 f v || (Z.eqb v 0 && field_matches 0 f 7))%bool.

Definition unrestricted (f : Field) : bool :=
  match f with
  | [Every 1] => true
  | _ => false
  end.

(** Modelled from the spec: the day rule of standard cron.  When both the
    day of month and the day of week are restricted, a day that satisfies
    either is taken; otherwise both fields have to match. *)
Definition day_matches (c : Cron) (dom dow : Z) : bool :=
  if (unrestricted (days_of_month c) || unrestricted (days_of_week c))%bool
  then (field_matches 1 (days_of_month c) dom && weekday_matches (days_of_week c) dow)%bool
  else (field_matches 1 (days_of_month c) dom || weekday_matches (days_of_week c) dow)%bool.

(** Modelled from the spec: whether the expression fires in the minute
    with index [m]. *)
Definition occurs_at (c : Cron) (m : Z) : bool :=
  let days := m / 1440 in
  let '(_, month, dom) := civil_from_days days in
  (field_matches 0 (minutes c) (m mod 60)
   && field_matches 0 (hours c) ((m / 60) mod 24)
   && field_matches 1 (months c) month
   && day_matches c dom (weekday_of_days days))%bool.

(** Modelled from the spec: the first minute from [m] on, among the next
    [horizon] minutes, in which the expression fires. *)
Fixpoint first_from (horizon : nat) (c : Cron) (m : Z) : option Z :=
  match horizon with
  | O => None
  | S h => if occurs_at c m then Some m else first_from h c (m + 1)
  end.

(** Modelled from the spec: [croniter(expr, start_time)], which rejects an
    expression that is not valid, and [get_next], "the earliest time
    strictly greater than now".  The search gives up after [horizon]
    minutes, as the library gives up on dates that never come. *)
Definition croniter {S} (expr : string) (start_time : time) : Task S (Cron * time) :=
  match parse expr with
  | Some c => mret (c, start_time)
  | None => raise ValueError
  end.

Definition get_next {S} (horizon : nat) (it : Cron * time) : Task S time :=
  match first_from horizon (fst it) (snd it / 60 + 1) with
  | Some m => mret (60 * m)
  | None => raise (OtherError "CroniterBadDateError")
  end.

End Croniter.

(** ** [otter.util.pure_http], as [otter/test/util/test_pure_http.py] uses it *)

Module PureHttp.

(** A pure response: the status code of the response object and the body. *)
Record PureResponse : Type := mkPureResponse {
  code : Z;
  body : string
}.

Section Effects.

(** The intents that an effect can ask for, and what performing one
    gives back. *)
Context {Intent Result : Type}.

(** Modelled from the spec: the [Effect] values of the imported [effect]
    library are not part of the sources.  An effect is a value: it is done
    with a result, or it names an intent to perform and the callbacks that
    receive the outcome. *)
Inductive Effect (A : Type) : Type :=
| Done (a : A)
| Perform (intent : Intent) (callbacks : Result -> Effect A).
Arguments Done {A} a.
Arguments Perform {A} intent callbacks.

(** Modelled from the spec: [eff.on_success(f)]. *)
Fixpoint on_success {A B} (eff : Effect A) (f : A -> Effect B) : Effect B :=
  match eff with
  | Done a => f a
  | Perform i k => Perform i (fun r => on_success (k r) f)
  end.

(** Modelled from the spec: performing an effect against a world [W], as
    [resolve_stubs] does in the tests.  The intents that were performed are
    recorded in order. *)
Fixpoint resolve {W A} (perform : Intent -> W -> Result * W) (eff : Effect A) (w : W)
    : A * W * list Intent :=
  match eff with
  | Done a => (a, w, [])
  | Perform i k =>
      let '(r, w1) := perform i w in
      let '(a, w2, performed) := resolve perform (k r) w1 in
      (a, w2, i :: performed)
  end.

(** [response.code in codes] *)
Definition code_in (codes : list Z) (response : PureResponse) : bool :=
  existsb (Z.eqb (code response)) codes.

(** Modelled from the spec: [effect_on_response(codes, effect, result)] of
    [otter.util.pure_http], which is not part of the sources: "if response
    code is in [codes], runs [side_effect] then propagates the response
    unchanged"; the tests add that otherwise "the result is returned
    immediately and the provided effect is not invoked". *)
Definition effect_on_response {A} (codes : list Z) (effect : Effect A)
    (result : PureResponse) : Effect PureResponse :=
  if code_in codes result
  then on_success effect (fun _ => Done result)
  else Done result.

(** Modelled from the spec: the middleware
    [add_effect_on_response(effect, codes, request_fn)], with the argument
    order of the tests: the response of [request_fn] goes through
    [effect_on_response]. *)
Definition add_effect_on_response {A Req} (effect : Effect A) (codes : list Z)
    (request_fn : Req -> Effect PureResponse) : Req -> Effect PureResponse :=
  fun req => on_success (request_fn req) (effect_on_response codes effect).

End Effects.

Arguments Effect Intent Result A : clear implicits.
Arguments Done {Intent Result A} a.
Arguments Perform {Intent Result A} intent callbacks.

(** The fixture of [EffectOnResponseTests]: the only intent is the
    invalidation, and performing it appends [True] to [invalidations]. *)
Inductive StubIntent : Type := Invalidate.

Definition perform_stub (i : StubIntent) (invalidations : list bool) : unit * list bool :=
  match i with
  | Invalidate => (tt, invalidations ++ [true])
  end.

Definition invalidate_effect : Effect StubIntent unit unit :=
  Perform Invalidate (fun _ => Done tt).

Definition badauth : PureResponse := mkPureResponse 401 "badauth!".

Definition good : PureResponse := mkPureResponse 200 "okay!".

End PureHttp.

(** ** [otter/scheduler.py] *)

Module Scheduler.
Import Py.

Definition time : Type := Croniter.time.

(** An event dictionary as [fetch_and_delete] returns it. *)
Record Event : Type := mkEvent {
  tenantId : string;
  groupId : string;
  policyId : string;
  trigger : time;
  cron : option string
}.

Inductive LogEntry : Type :=
| Msg (text : string)
| Err (failure : exn) (why : option string).

(** The set partitioner of the coordination service. *)
Record Partition : Type := mkPartition {
  allocating : bool;
  release : bool;
  failed : bool;
  members : list Z
}.

(** Calls that reached the store and the coordination client. *)
Inductive Call : Type :=
| FetchAndDelete (now : time) (batchsize : Z)
| ModifyState (tenant_id group_id policy_id : string)
| AddCronEvents (events : list Event)
| ReleaseSet
| SetPartition (path : string).

(** The mutable state that the service works on: the clock, what was
    logged, the calls made so far, [self.kz_partition], and the set object
    [deleted_policy_ids] that [process_events] creates for a batch and hands
    to [execute_event] and [add_cron_events]. *)
Record World : Type := mkWorld {
  w_utcnow : time;
  w_log : list LogEntry;
  w_calls : list Call;
  w_kz_partition : option Partition;
  w_deleted_policy_ids : gset string
}.

(** The collaborators of the service.  Each answer may depend on the calls
    made before.  [modify_state] stands for
    [get_scaling_group(...).modify_state(maybe_execute_scaling_policy ...)];
    [horizon] is the number of minutes that [croniter] looks ahead. *)
Record SchedulerService : Type := mkSchedulerService {
  fetch_and_delete : list Call -> time -> Z -> deferred (list Event);
  modify_state : list Call -> string -> string -> string -> deferred unit;
  store_add_cron_events : list Call -> list Event -> deferred unit;
  release_set : list Call -> Partition -> deferred unit * option Partition;
  kz_SetPartition : list Call -> string -> Partition;
  zk_partition_path : string;
  horizon : nat
}.

Definition set_log (f : list LogEntry -> list LogEntry) (w : World) : World :=
  mkWorld (w_utcnow w) (f (w_log w)) (w_calls w) (w_kz_partition w)
    (w_deleted_policy_ids w).

Definition set_calls (f : list Call -> list Call) (w : World) : World :=
  mkWorld (w_utcnow w) (w_log w) (f (w_calls w)) (w_kz_partition w)
    (w_deleted_policy_ids w).

Definition set_kz_partition (p : option Partition) (w : World) : World :=
  mkWorld (w_utcnow w) (w_log w) (w_calls w) p (w_deleted_policy_ids w).

Definition set_deleted_policy_ids (f : gset string -> gset string) (w : World) : World :=
  mkWorld (w_utcnow w) (w_log w) (w_calls w) (w_kz_partition w)
    (f (w_deleted_policy_ids w)).

(** [log.msg(text, ...)] *)
Definition log_msg (text : string) : Task World unit :=
  modify (set_log (fun l => l ++ [Msg text])).

(** [log.err(failure, why)]; as an errback it returns [None], so the
    Deferred carries on as a success. *)
Definition log_err (failure : exn) (why : option string) : Task World unit :=
  modify (set_log (fun l => l ++ [Err failure why])).

(** A call to a collaborator: it is recorded and answered. *)
Definition call {A} (c : Call) (answer : list Call -> deferred A) : Task World A :=
  fun w => (answer (w_calls w), set_calls (fun l => l ++ [c]) w).

(** [datetime.utcnow()] *)
Definition utcnow : Task World time := gets w_utcnow.

Definition next_cron_occurrence (self : SchedulerService) (cron : string) : Task World time :=
  start_time ← utcnow;
  it ← Croniter.croniter cron start_time;
  Croniter.get_next (horizon self) it.

Definition start_partitioner (self : SchedulerService) : Task World unit :=
  fun w =>
    (Succeeded tt,
     set_kz_partition (Some (kz_SetPartition self (w_calls w) (zk_partition_path self)))
       (set_calls (fun l => l ++ [SetPartition (zk_partition_path self)]) w)).

(** [self.kz_partition.release_set()] *)
Definition kz_release_set (self : SchedulerService) (p : Partition) : Task World unit :=
  fun w =>
    let '(d, p') := release_set self (w_calls w) p in
    (d, set_kz_partition p' (set_calls (fun l => l ++ [ReleaseSet]) w)).

Definition is_CannotExecutePolicyError (e : exn) : bool :=
  match e with CannotExecutePolicyError => true | _ => false end.

(** [failure.trap(NoSuchScalingGroupError, NoSuchPolicyError)] lets these
    two through and re-raises any other failure. *)
Definition is_deleted_error (e : exn) : bool :=
  match e with
  | NoSuchScalingGroupError | NoSuchPolicyError => true
  | _ => false
  end.

(** Modelled from the spec: [otter.util.deferredutils.ignore_and_log] is
    not part of the sources.  Section 4.6 makes a rejection "distinct from
    failure": the failure of the given class is logged as a message and
    dropped, any other failure goes on down the chain. *)
Definition ignore_and_log (failure : exn) (ignored : exn -> bool) (msg : string)
    : Task World unit :=
  if ignored failure then log_msg msg else raise failure.

Definition execute_event (self : SchedulerService) (event : Event) : Task World unit :=
  let tenant_id := tenantId event in
  let group_id := groupId event in
  let policy_id := policyId event in
  _ ← log_msg "Executing policy";
  let d := call (ModifyState tenant_id group_id policy_id)
             (fun past => modify_state self past tenant_id group_id policy_id) in
  let d := addErrback d (fun failure =>
             ignore_and_log failure is_CannotExecutePolicyError "Cannot execute policy") in
  let collect_deleted_policy (failure : exn) : Task World unit :=
    if is_deleted_error failure
    then modify (set_deleted_policy_ids (fun ids => {[policy_id]} ∪ ids))
    else raise failure in
  let d := addErrback d collect_deleted_policy in
  let d := addErrback d (fun failure =>
             log_err failure (Some "Scheduler failed to execute policy")) in
  d.

(** [event['cron']] as a condition: [None] and [''] are false. *)
Definition has_cron (event : Event) : bool :=
  match cron event with
  | Some c => negb (String.eqb c "")
  | None => false
  end.

Definition with_trigger (t : time) (event : Event) : Event :=
  mkEvent (tenantId event) (groupId event) (policyId event) t (cron event).

(** The [for] loop of [add_cron_events].  The events are dictionaries that
    are updated in place, so the result is the list [events] after the loop
    together with the list [new_cron_event]; both hold the updated
    dictionaries. *)
Fixpoint cron_loop (self : SchedulerService) (events : list Event)
    : Task World (list Event * list Event) :=
  match events with
  | [] => mret ([], [])
  | event :: rest =>
      deleted_policy_ids ← gets w_deleted_policy_ids;
      if (has_cron event && negb (bool_decide (policyId event ∈ deleted_policy_ids)))%bool
      then
        t ← next_cron_occurrence self (default "" (cron event));
        let event := with_trigger t event in
        r ← cron_loop self rest;
        mret (event :: fst r, event :: snd r)
      else
        r ← cron_loop self rest;
        mret (event :: fst r, snd r)
  end.

(** [add_cron_events]: after the loop the function reads the name
    [new_cron_events], while the list that the loop filled is bound to
    [new_cron_event]. *)
Definition add_cron_events (self : SchedulerService) (events : list Event)
    : Task World (list Event) :=
  match events with
  | [] => mret events
  | _ =>
      r ← cron_loop self events;
      let events := fst r in
      let scope := [("events", events); ("new_cron_event", snd r)] in
      counted ← fired (load_name scope "new_cron_events");
      _ ← log_msg "Adding {new_cron_events} cron events";
      new_cron_events ← fired (load_name scope "new_cron_events");
      let d := call (AddCronEvents new_cron_events)
                 (fun past => store_add_cron_events self past new_cron_events) in
      addCallback d (fun _ => mret events)
  end.

Definition process_events (self : SchedulerService) (events : list Event) (now : time)
    : Task World (list Event) :=
  match events with
  | [] => mret events
  | _ =>
      _ ← log_msg "Processing {num_events} events";
      _ ← modify (set_deleted_policy_ids (fun _ => ∅));
      deferreds ← comprehension (execute_event self) events;
      let d := fired (gatherResults deferreds) in
      addCallback d (fun _ => add_cron_events self events)
  end.

(** [events and len(events) == batchsize] *)
Definition batch_is_full (events : list Event) (batchsize : Z) : bool :=
  match events with
  | [] => false
  | _ => Z.eqb (Z.of_nat (length events)) batchsize
  end.

(** [check_for_more], with the inner function [_do_check] that it calls. *)
Definition check_for_more (batchsize : Z) (_do_check : Task World unit)
    (events : list Event) : Task World unit :=
  if batch_is_full events batchsize then _do_check else mret tt.

(** [_do_check] of [check_for_events_in_bucket].  [rounds] bounds how many
    times the function is entered; [Waiting] stands for a chain that is
    still at work after that many rounds. *)
Fixpoint _do_check (self : SchedulerService) (rounds : nat) (now : time) (batchsize : Z)
    : Task World unit :=
  match rounds with
  | O => fired Waiting
  | S rounds' =>
      let d := call (FetchAndDelete now batchsize)
                 (fun past => fetch_and_delete self past now batchsize) in
      let d := addCallback d (fun events => process_events self events now) in
      let d := addCallback d
                 (check_for_more batchsize (_do_check self rounds' now batchsize)) in
      addErrback d (fun failure => log_err failure None)
  end.

Definition check_for_events_in_bucket (self : SchedulerService) (rounds : nat)
    (bucket : Z) (now : time) (batchsize : Z) : Task World unit :=
  _do_check self rounds now batchsize.

(** What [check_for_events] hands back to the timer: [None], the result
    of [release_set()], or the Deferred of [gatherResults]. *)
Inductive Returned : Type :=
| ReturnedNone
| ReturnedRelease (d : deferred unit)
| ReturnedGather (d : deferred (list unit)).

(** The list comprehension of [check_for_events]: for each bucket the
    arguments are evaluated, [now] among them, and the call is made. *)
Fixpoint for_each_bucket (self : SchedulerService) (rounds : nat)
    (scope : list (string * time)) (batchsize : Z) (buckets : list Z)
    : Task World (list (deferred unit)) :=
  match buckets with
  | [] => mret []
  | bucket :: rest =>
      now ← fired (load_name scope "now");
      d ← returning (check_for_events_in_bucket self rounds bucket now batchsize);
      ds ← for_each_bucket self rounds scope batchsize rest;
      mret (d :: ds)
  end.

(** [check_for_events]: one tick of the timer.  A [Failed] outcome is an
    exception that leaves the function. *)
Definition check_for_events (self : SchedulerService) (rounds : nat) (batchsize : Z)
    : Task World Returned :=
  kz_partition ← gets w_kz_partition;
  match kz_partition with
  | None => _ ← log_msg "Partition allocating"; mret ReturnedNone
  | Some p =>
      if allocating p then _ ← log_msg "Partition allocating"; mret ReturnedNone
      else if release p then
        _ ← log_msg "Partition changed. Repartitioning";
        d ← returning (kz_release_set self p);
        mret (ReturnedRelease d)
      else if failed p then
        _ ← log_msg "Partition failed. Starting new";
        _ ← start_partitioner self;
        mret ReturnedNone
      else
        let buckets := members p in
        utcnow_ ← utcnow;
        let scope := [("utcnow", utcnow_)] in
        ds ← for_each_bucket self rounds scope batchsize buckets;
        mret (ReturnedGather (gatherResults ds))
  end.

End Scheduler.

(** ** Vocabulary of the properties of the worker *)

Module WorkerSpec.
Import Py Json Worker.

(** *** Requests *)

(** The headers of every request of the module. *)
Definition json_headers (auth_token : string) : list (string * list string) :=
  [("content-type", ["application/json"]);
   ("accept", ["application/json"]);
   ("x-auth-token", [auth_token])].

(** The request that adds [ip_address] as a node, on port [port], of the
    load balancer [lb_id]. *)
Definition add_node_request (rt : Runtime) (endpoint auth_token : string)
    (lb_id port : Z) (ip_address : json) : Request :=
  mkRequest "POST"
    (String.concat "/" [rstrip "/" endpoint; "loadbalancers"; str lb_id; "nodes"])
    (json_headers auth_token)
    (Some (json_dumps rt
             (JDict [("nodes",
                      JList [JDict [("address", ip_address);
                                    ("port", JInt port);
                                    ("condition", JStr "ENABLED");
                                    ("type", JStr "PRIMARY")]])]))).

(** The request for the details of a server. *)
Definition details_request (server_endpoint auth_token server_id : string) : Request :=
  mkRequest "GET"
    (String.concat "/" [rstrip "/" server_endpoint; "servers"; quote server_id])
    (json_headers auth_token)
    None.

(** The request that creates a server from [server_config]. *)
Definition create_request (rt : Runtime) (server_endpoint auth_token : string)
    (server_config : json) : Request :=
  mkRequest "POST"
    (String.concat "/" [rstrip "/" server_endpoint; "servers"])
    (json_headers auth_token)
    (Some (json_dumps rt (JDict [("server", server_config)]))).

(** *** Answers *)

(** What becomes of the answer to a request whose response has to carry
    one of [success_codes] and a JSON body: the parsed body, an [APIError]
    with the code and the body, or the [ValueError] of a body that does not
    parse. *)
Definition json_outcome (rt : Runtime) (success_codes : list Z)
    (answer : deferred Response) : deferred json :=
  match answer with
  | Succeeded response =>
      if existsb (Z.eqb (code response)) success_codes
      then
        match json_loads rt (content response) with
        | Some v => Succeeded v
        | None => Failed ValueError
        end
      else Failed (APIError (code response) (content response))
  | Failed e => Failed e
  | Waiting => Waiting
  end.

(** The request [r], sent after the requests [past], is answered with one
    of the codes [codes] and a body that parses to [doc]. *)
Definition answered (rt : Runtime) (past : list (Z * Request)) (r : Request)
    (codes : list Z) (doc : json) : Prop :=
  exists response,
    treq_send rt past r = Succeeded response /\
    In (code response) codes /\
    json_loads rt (content response) = Some doc.

(** The request [r] comes to nothing: it fails, it is answered with a code
    that is not among [codes], or the body of the answer does not parse. *)
Definition refused (rt : Runtime) (past : list (Z * Request)) (r : Request)
    (codes : list Z) (e : exn) : Prop :=
  treq_send rt past r = Failed e \/
  (exists response,
      treq_send rt past r = Succeeded response /\
      ~ In (code response) codes /\
      e = APIError (code response) (content response)) \/
  (exists response,
      treq_send rt past r = Succeeded response /\
      In (code response) codes /\
      json_loads rt (content response) = None /\
      e = ValueError).

(** The outcomes of the requests [requests], sent one after the other at
    time [t] after the requests [past], each of them before any answer is
    looked at. *)
Fixpoint outcomes (rt : Runtime) (codes : list Z) (past : list (Z * Request)) (t : Z)
    (requests : list Request) : list (deferred json) :=
  match requests with
  | [] => []
  | r :: rest =>
      json_outcome rt codes (treq_send rt past r)
      :: outcomes rt codes (past ++ [(t, r)]) t rest
  end.

(** *** Load-balancer configs *)

(** The config of a node: load balancer [fst node], port [snd node]. *)
Definition lb_config_of (node : Z * Z) : LBConfig :=
  mkLBConfig (Some (fst node)) (Some (snd node)).

(** The first of the two keys that a config does not have. *)
Definition missing_key (lb_config : LBConfig) : option string :=
  match loadBalancerId lb_config, lb_port lb_config with
  | None, _ => Some "loadBalancerId"
  | Some _, None => Some "port"
  | Some _, Some _ => None
  end.

(** The nodes of the configs that stand before the first config without
    one of its keys. *)
Fixpoint nodes_before_missing (lb_configs : list LBConfig) : list (Z * Z) :=
  match lb_configs with
  | [] => []
  | lb_config :: rest =>
      match loadBalancerId lb_config, lb_port lb_config with
      | Some lb_id, Some port => (lb_id, port) :: nodes_before_missing rest
      | _, _ => []
      end
  end.

(** The key whose absence ends the comprehension, if there is one. *)
Fixpoint first_missing_key (lb_configs : list LBConfig) : option string :=
  match lb_configs with
  | [] => None
  | lb_config :: rest =>
      match missing_key lb_config with
      | Some key => Some key
      | None => first_missing_key rest
      end
  end.

(** *** Server documents *)

(** [v[key]] where it exists. *)
Definition at_key (key : string) (v : json) : option json :=
  match v with
  | JDict items => lookup_key key items
  | _ => None
  end.

(** The exception of [v[key]] where it does not exist. *)
Definition unreadable (key : string) (v : json) (e : exn) : Prop :=
  match v with
  | JDict items => lookup_key key items = None /\ e = KeyError key
  | _ => e = TypeError
  end.

Definition status_of (server : json) : option json :=
  match at_key "server" server with
  | Some s => at_key "status" s
  | None => None
  end.

(** The document shows the status [status]. *)
Definition shows_status (server : json) (status : string) : Prop :=
  status_of server = Some (JStr status).

(** The document shows a status, and it is not [expected_status]. *)
Definition shows_another_status (server : json) (expected_status : string) : Prop :=
  exists v, status_of server = Some v /\ v <> JStr expected_status.

(** The document has no [['server']['status']]; [e] is the exception of
    the subscript that fails. *)
Definition lacks_status (server : json) (e : exn) : Prop :=
  unreadable "server" server e \/
  exists s, at_key "server" server = Some s /\ unreadable "status" s e.

(** A poll that fails: the request comes to nothing, or the document that
    answers it has no status. *)
Definition poll_fails (rt : Runtime) (past : list (Z * Request)) (r : Request)
    (e : exn) : Prop :=
  refused rt past r [200; 203] e \/
  exists server, answered rt past r [200; 203] server /\ lacks_status server e.

(** What the status check of a poll makes of a server document; the check
    reads no state. *)
Definition status_check (server : json) (expected_status : string) : deferred bool :=
  fst (status_is server expected_status tt).

(** The id of the server in the document that answers the create request,
    where it has one and the id is a string. *)
Definition server_id_of (created : json) : option string :=
  match at_key "server" created with
  | Some s =>
      match at_key "id" s with
      | Some (JStr server_id) => Some server_id
      | _ => None
      end
  | None => None
  end.

(** The entries of [active['server']['addresses']['private']]. *)
Definition private_entries (active : json) : option (list json) :=
  match at_key "server" active with
  | Some s =>
      match at_key "addresses" s with
      | Some a =>
          match at_key "private" a with
          | Some (JList entries) => Some entries
          | _ => None
          end
      | None => None
      end
  | None => None
  end.

(** [ip_address] is the private IPv4 address of the server: the ['addr']
    of the first private entry whose ['version'] is 4, in a list all of
    whose entries have a ['version']. *)
Definition first_ipv4 (active : json) (ip_address : json) : Prop :=
  exists before entry after,
    private_entries active = Some (before ++ entry :: after) /\
    Forall (fun x => exists v, at_key "version" x = Some v /\ v <> JInt 4) before /\
    at_key "version" entry = Some (JInt 4) /\
    at_key "addr" entry = Some ip_address /\
    Forall (fun x => is_Some (at_key "version" x)) after.

(** What the callbacks of [launch_server] make of the two documents. *)
Definition created_server_id (created : json) : deferred string :=
  fst ((s ← getitem created "server";
        i ← getitem s "id";
        as_str i) tt).

Definition private_ipv4 (active : json) : deferred json :=
  fst ((s ← getitem active "server";
        a ← getitem s "addresses";
        p ← getitem a "private";
        ps ← as_list p;
        v4 ← filter_version4 ps;
        x ← first_item v4;
        getitem x "addr") tt).

(** A Deferred that a callback returns takes the place of the result. *)
Definition chained {A} (d : deferred (deferred A)) : deferred A :=
  match d with
  | Succeeded inner => inner
  | Failed e => Failed e
  | Waiting => Waiting
  end.

(** *** The service catalog *)

(** A filter component that is supplied: neither [None] nor empty. *)
Definition supplied (wanted : option string) : Prop :=
  exists s, wanted = Some s /\ s <> "".

(** A filter component as the spec reads it: a component that is not
    supplied accepts everything. *)
Definition accepts (wanted found : option string) : bool :=
  match wanted with
  | None => true
  | Some s => if String.eqb s "" then true else bool_decide (found = Some s)
  end.

(** The endpoints that the spec asks for: those of the services that match
    the name and the type, restricted to the region, in catalog order. *)
Definition matching_endpoints (service_catalog : list Service)
    (name_wanted type_wanted region_wanted : option string) : list Endpoint :=
  flat_map
    (fun service =>
       if (accepts type_wanted (service_type service)
           && accepts name_wanted (service_name service))%bool
       then List.filter (fun e => accepts region_wanted (region e))
              (default [] (service_endpoints service))
       else [])
    service_catalog.

(** Every key of the catalog that a supplied filter could be compared
    with is present, and every service has its endpoints. *)
Definition has_key {A} (wanted : option string) (found : option A) : Prop :=
  truthy wanted = true -> is_Some found.

Definition readable (service_catalog : list Service)
    (name_wanted type_wanted region_wanted : option string) : Prop :=
  Forall
    (fun service =>
       has_key type_wanted (service_type service) /\
       has_key name_wanted (service_name service) /\
       exists es, service_endpoints service = Some es /\
                  Forall (fun e => has_key region_wanted (region e)) es)
    service_catalog.

(** The keys that [endpoints] consults of a service are present: its
    ['type'] when a type is supplied; its ['name'] when a name is supplied
    and the type is accepted; its ['endpoints'] when the name is accepted
    too; and then the ['region'] of each endpoint when a region is
    supplied. *)
Definition consulted_service (name_wanted type_wanted region_wanted : option string)
    (service : Service) : Prop :=
  (supplied type_wanted -> is_Some (service_type service)) /\
  (accepts type_wanted (service_type service) = true ->
   (supplied name_wanted -> is_Some (service_name service)) /\
   (accepts name_wanted (service_name service) = true ->
    exists es,
      service_endpoints service = Some es /\
      (supplied region_wanted -> Forall (fun e => is_Some (region e)) es))).

Definition consulted (service_catalog : list Service)
    (name_wanted type_wanted region_wanted : option string) : Prop :=
  Forall (consulted_service name_wanted type_wanted region_wanted) service_catalog.

(** The first key that [endpoints] consults of [service] and does not
    find is [key]; [yielded] are the endpoints of the service that are
    yielded before the key is missed. *)
Definition misses (name_wanted type_wanted region_wanted : option string)
    (service : Service) (key : string) (yielded : list Endpoint) : Prop :=
  (supplied type_wanted /\ service_type service = None /\
   key = "type" /\ yielded = []) \/
  (accepts type_wanted (service_type service) = true /\
   ((supplied name_wanted /\ service_name service = None /\
     key = "name" /\ yielded = []) \/
    (accepts name_wanted (service_name service) = true /\
     ((service_endpoints service = None /\ key = "endpoints" /\ yielded = []) \/
      (supplied region_wanted /\
       exists before e after,
         service_endpoints service = Some (before ++ e :: after) /\
         Forall (fun x => is_Some (region x)) before /\
         region e = None /\
         key = "region" /\
         yielded = List.filter (fun x => accepts region_wanted (region x)) before))))).

(** The catalog has, for the region, an endpoint of the load balancers
    and one of the servers, each first of its kind with a public URL. *)
Definition resolved (service_catalog : list Service) (region_ : string)
    (lb_endpoint server_endpoint : string) : Prop :=
  exists lb lbs sv svs,
    endpoints service_catalog (Some "cloudLoadBalancers") None (Some region_)
      = (lb :: lbs, None) /\
    publicURL lb = Some lb_endpoint /\
    endpoints service_catalog (Some "cloudServersOpenStack") None (Some region_)
      = (sv :: svs, None) /\
    publicURL sv = Some server_endpoint.

(** *** Worlds *)

Definition initial_world : World := mkWorld 0 [] [].

(** The world after one more request [r] was announced and sent. *)
Definition after_request (r : Request) (w : World) : World :=
  mkWorld (w_time w) (w_sent w ++ [(w_time w, r)]) (w_stdout w ++ [url r]).

(** The world when the next call of the loop is due. *)
Definition after_interval (interval : Z) (w : World) : World :=
  mkWorld (w_time w + interval) (w_sent w) (w_stdout w).

(** The world after the requests [requests] were announced and sent, all
    at the same time. *)
Definition after_requests (requests : list Request) (w : World) : World :=
  mkWorld (w_time w) (w_sent w ++ map (fun r => (w_time w, r)) requests)
    (w_stdout w ++ map url requests).

(** *** Strings *)

(** Whether [urllib.quote] leaves every character of [s] alone. *)
Fixpoint all_safe (s : string) : bool :=
  match s with
  | EmptyString => true
  | String c rest => (quote_safe c && all_safe rest)%bool
  end.

(** A URI followed by [n] slashes. *)
Fixpoint with_slashes (n : nat) (uri : string) : string :=
  match n with
  | O => uri
  | S k => String.append (with_slashes k uri) "/"
  end.

(** *** Fixtures *)

(** A runtime whose requests are never answered. *)
Definition silent_runtime : Runtime :=
  mkRuntime (fun _ _ => Waiting) (fun _ => None) (fun _ => "").

(** A runtime that answers every request with the same response and reads
    every body as the document [doc]. *)
Definition constant_runtime (response : Response) (doc : json) : Runtime :=
  mkRuntime (fun _ _ => Succeeded response) (fun _ => Some doc) (fun _ => "").

(** The service catalog of the module's [__main__] block. *)
Definition main_catalog : list Service :=
  [mkService (Some "cloudLoadBalancers") None
     (Some [mkEndpoint (Some "ORD")
              (Some "https://ord.loadbalancers.api.rackspacecloud.com/v1.0/416511")]);
   mkService (Some "cloudServersOpenStack") None
     (Some [mkEndpoint (Some "ORD")
              (Some "https://ord.servers.api.rackspacecloud.com/v2/416511")])].

Definition main_launch_config : LaunchConfig :=
  mkLaunchConfig (Some [mkLBConfig (Some 96815) (Some 8080)])
    (Some (JDict [("name", JStr "test-server-manual"); ("flavorRef", JStr "3")])).

(** A catalog of three services in two regions; the second service has no
    ['type']. *)
Definition two_region_catalog : list Service :=
  [mkService (Some "cloudServersOpenStack") (Some "compute")
     (Some [mkEndpoint (Some "ORD") (Some "https://ord.servers/v2");
            mkEndpoint (Some "DFW") (Some "https://dfw.servers/v2");
            mkEndpoint (Some "ORD") (Some "https://ord2.servers/v2")]);
   mkService (Some "cloudLoadBalancers") None
     (Some [mkEndpoint (Some "ORD") (Some "https://ord.loadbalancers/v1.0")]);
   mkService (Some "cloudServersOpenStack") (Some "compute")
     (Some [mkEndpoint (Some "ORD") (Some "https://ord3.servers/v2")])].

(** A server document with the given status. *)
Definition server_document (status : string) : json :=
  JDict [("server", JDict [("id", JStr "s1"); ("status", JStr status)])].

(** A runtime whose server shows the statuses [statuses] to successive
    polls, one after the other, and the last of them from then on; the body
    of a response is the status itself. *)
Definition scripted_runtime (statuses : list string) : Runtime :=
  mkRuntime
    (fun past _ =>
       Succeeded (mkResponse 200
                    (nth (Nat.min (length past) (length statuses - 1)) statuses "")))
    (fun body => Some (server_document body))
    (fun _ => "").

(** The document of a server that is active, with an IPv6 and an IPv4
    address on the private network. *)
Definition active_document : json :=
  JDict [("server",
          JDict [("id", JStr "s1");
                 ("status", JStr "ACTIVE");
                 ("addresses",
                  JDict [("private",
                          JList [JDict [("version", JInt 6); ("addr", JStr "fe80::1")];
                                 JDict [("version", JInt 4); ("addr", JStr "10.0.0.7")]])])])].

(** A cloud that accepts the create request with 202, shows the server in
    [BUILD] to the first poll and active to the second, and answers every
    later request with 200; a body is read by its name, and a document is
    written as its node address. *)
Definition launching_runtime : Runtime :=
  mkRuntime
    (fun past _ =>
       match length past with
       | 0%nat => Succeeded (mkResponse 202 "created")
       | 1%nat => Succeeded (mkResponse 200 "build")
       | 2%nat => Succeeded (mkResponse 203 "active")
       | _ => Succeeded (mkResponse 200 "added")
       end)
    (fun body =>
       if String.eqb body "created" then Some (server_document "BUILD")
       else if String.eqb body "build" then Some (server_document "BUILD")
       else if String.eqb body "active" then Some active_document
       else if String.eqb body "added" then Some (JDict [("nodes", JList [])])
       else None)
    (fun doc =>
       match doc with
       | JDict [("nodes", JList [JDict (("address", JStr a) :: _)])] => a
       | _ => ""
       end).

End WorkerSpec.

(** ** Vocabulary of the properties of the scheduler *)

Module SchedulerSpec.
Import Py Scheduler.

(** *** The calendar and the occurrences of a cron expression *)

(** The Gregorian rule for leap years. *)
Definition leap_year (y : Z) : bool :=
  (Z.eqb (y mod 4) 0 && (negb (Z.eqb (y mod 100) 0) || Z.eqb (y mod 400) 0))%bool.

Definition month_length (y m : Z) : Z :=
  match m with
  | 1 | 3 | 5 | 7 | 8 | 10 | 12 => 31
  | 4 | 6 | 9 | 11 => 30
  | 2 => if leap_year y then 29 else 28
  | _ => 0
  end.

(** [y]-[m]-[d] is a date of the calendar. *)
Definition is_date (y m d : Z) : Prop :=
  1 <= m <= 12 /\ 1 <= d <= month_length y m.

Definition months_before (m : Z) : list Z := map Z.of_nat (seq 1 (Z.to_nat (m - 1))).

(** The days of year [y] that lie before its month [m]. *)
Definition days_before_month (y m : Z) : Z :=
  fold_right Z.add 0 (map (month_length y) (months_before m)).

(** The days between 1970-01-01 and the first day of year [y]: 365 for
    each year and one more for each leap year in between, as POSIX counts
    the seconds since the Epoch. *)
Definition days_before_year (y : Z) : Z :=
  365 * (y - 1970) + (y - 1969) / 4 - (y - 1901) / 100 + (y - 1601) / 400.

(** The number of the day [y]-[m]-[d], counted from 1970-01-01. *)
Definition day_number (y m d : Z) : Z :=
  days_before_year y + days_before_month y m + (d - 1).

(** The time [y]-[m]-[d]T[h]:[mi]:00 UTC. *)
Definition datetime (y m d h mi : Z) : time :=
  ((day_number y m d * 24 + h) * 60 + mi) * 60.

(** The day of the week of a date, 0 for Sunday; 1970-01-01 was a
    Thursday. *)
Definition weekday (y m d : Z) : Z := (day_number y m d + 4) mod 7.

(** An item of a field admits the value [v]: [*/n] admits every [n]th
    value from the lowest value [lo] of the field on, and [a-b/n] every
    [n]th value from [a] up to [b]. *)
Definition admits (lo : Z) (item : Croniter.Item) (v : Z) : Prop :=
  match item with
  | Croniter.Every step => (step | v - lo)
  | Croniter.Span first last step => first <= v <= last /\ (step | v - first)
  end.

Definition field_admits (lo : Z) (f : Croniter.Field) (v : Z) : Prop :=
  Exists (fun item => admits lo item v) f.

(** Sunday is written 0 or 7. *)
Definition weekday_admits (f : Croniter.Field) (wd : Z) : Prop :=
  field_admits 0 f wd \/ (wd = 0 /\ field_admits 0 f 7).

(** The field is written [*]. *)
Definition starred (f : Croniter.Field) : Prop := f = [Croniter.Every 1].

(** The day rule of cron: when the day of the month or the day of the
    week is [*], both fields have to admit the day; when both are
    restricted, one of them is enough. *)
Definition day_admits (c : Croniter.Cron) (d wd : Z) : Prop :=
  ((starred (Croniter.days_of_month c) \/ starred (Croniter.days_of_week c)) /\
   field_admits 1 (Croniter.days_of_month c) d /\
   weekday_admits (Croniter.days_of_week c) wd) \/
  (~ starred (Croniter.days_of_month c) /\ ~ starred (Croniter.days_of_week c) /\
   (field_admits 1 (Croniter.days_of_month c) d \/
    weekday_admits (Croniter.days_of_week c) wd)).

(** An occurrence of a cron expression: the start of a minute of a day of
    the calendar all of whose components the fields admit. *)
Definition occurrence (c : Croniter.Cron) (t : time) : Prop :=
  exists y m d h mi,
    is_date y m d /\ 0 <= h < 24 /\ 0 <= mi < 60 /\
    t = datetime y m d h mi /\
    field_admits 0 (Croniter.minutes c) mi /\
    field_admits 0 (Croniter.hours c) h /\
    field_admits 1 (Croniter.months c) m /\
    day_admits c d (weekday y m d).

(** The last time that the iterator of [self] looks at when it is started
    at [now]. *)
Definition look_ahead (self : SchedulerService) (now : time) : time :=
  60 * (now / 60 + Z.of_nat (horizon self)).

(** The world of [process_events] after its first statements: the batch
    is announced in the log and [deleted_policy_ids] is a new, empty set. *)
Definition batch_start (w : World) : World :=
  set_deleted_policy_ids (fun _ => ∅)
    (set_log (fun l => l ++ [Msg "Processing {num_events} events"]) w).

(** The world after the events [events] have been handed to
    [execute_event], one after the other. *)
Definition executed (self : SchedulerService) (events : list Event) (w : World) : World :=
  snd (comprehension (execute_event self) events w).

(** The answer of the store to the execution of [event] in world [w]. *)
Definition execution_answer (self : SchedulerService) (event : Event) (w : World)
    : deferred unit :=
  modify_state self (w_calls w) (tenantId event) (groupId event) (policyId event).

(** The events that the loop of [add_cron_events] takes up: those with a
    cron entry whose policy is not in [deleted_policy_ids]. *)
Definition reschedulable (deleted_policy_ids : gset string) (event : Event) : bool :=
  (has_cron event && negb (bool_decide (policyId event ∈ deleted_policy_ids)))%bool.

Definition is_fetch (c : Call) : bool :=
  match c with FetchAndDelete _ _ => true | _ => false end.

(** The number of times the store was asked for a batch. *)
Definition fetches (w : World) : nat := length (List.filter is_fetch (w_calls w)).

Definition execution_call (event : Event) : Call :=
  ModifyState (tenantId event) (groupId event) (policyId event).

(** A store with nothing in it whose policies are all deleted, a
    partitioner that hands out nothing, and a cron horizon of ten minutes. *)
Definition deserted_service : SchedulerService :=
  mkSchedulerService
    (fun _ _ _ => Succeeded [])
    (fun _ _ _ _ => Failed NoSuchPolicyError)
    (fun _ _ => Succeeded tt)
    (fun _ _ => (Succeeded tt, Some (mkPartition true false false [])))
    (fun _ _ => mkPartition true false false [])
    "/scheduler_partition"
    10.

(** The world at 2014-03-01T12:00:01 in which the partitioner has given
    this instance the buckets [buckets]. *)
Definition acquired_world (buckets : list Z) : World :=
  mkWorld 1393675201 [] [] (Some (mkPartition false false false buckets)) ∅.

Definition every_five_minutes : Event :=
  mkEvent "tenant" "group" "policy" 1393675200 (Some "*/5 * * * *").

(** A store that hands out [batch] whenever it is asked, a collaborator
    that executes every policy, and a cron horizon of one hour. *)
Definition busy_service (batch : list Event) : SchedulerService :=
  mkSchedulerService
    (fun _ _ _ => Succeeded batch)
    (fun _ _ _ _ => Succeeded tt)
    (fun _ _ => Succeeded tt)
    (fun _ _ => (Succeeded tt, Some (mkPartition true false false [])))
    (fun _ _ => mkPartition true false false [])
    "/scheduler_partition"
    60.

(** The world at 2014-02-28T23:50:01. *)
Definition late_february : World := mkWorld 1393631401 [] [] None ∅.

End SchedulerSpec.

(* ===================================================================== *)
(** * Part II: properties                                                  *)
(* ===================================================================== *)

Module ModelFacts.
Import Model.

Lemma CLB_equivalent_definition_spec (x y : CLBDescription) :
  CLB_equivalent_definition x (CLB y) = true <-> lb_id x = lb_id y /\ port x = port y.
Proof.
  unfold CLB_equivalent_definition.
  rewrite andb_true_iff, String.eqb_eq, Z.eqb_eq.
  intuition congruence.
Qed.

Lemma RCv3_equivalent_definition_spec (x y : RCv3Description) :
  RCv3_equivalent_definition x (RCv3 y) = true <-> pool_id x = pool_id y.
Proof.
  unfold RCv3_equivalent_definition. rewrite String.eqb_eq. intuition congruence.
Qed.

(** C5. Two load-balancer descriptions are equivalent by definition exactly
    when they are of the same variant and agree on (lb_id, port) for CLB, or
    on pool_id for RCv3; replacing weight, condition and type on either side
    never changes the answer. *)
Theorem equivalent_definition_iff_same_key :
  (forall a b : LBDescription,
      equivalent_definition a b = true <->
      (exists x y, a = CLB x /\ b = CLB y /\ lb_id x = lb_id y /\ port x = port y) \/
      (exists x y, a = RCv3 x /\ b = RCv3 y /\ pool_id x = pool_id y)) /\
  (forall a b w c t w' c' t',
      equivalent_definition (with_node_attributes w c t a)
                            (with_node_attributes w' c' t' b)
      = equivalent_definition a b).
Proof.
  split.
  - intros [x|x] [y|y]; cbn [equivalent_definition].
    + rewrite CLB_equivalent_definition_spec. split.
      * intros [H1 H2]. left. exists x, y. auto.
      * intros [(x' & y' & Hx & Hy & H1 & H2) | (x' & y' & Hx & _)];
          [ injection Hx as <-; injection Hy as <-; auto | discriminate ].
    + split; [ discriminate | ].
      intros [(x' & y' & _ & Hy & _) | (x' & y' & Hx & _)]; discriminate.
    + split; [ discriminate | ].
      intros [(x' & y' & Hx & _) | (x' & y' & _ & Hy & _)]; discriminate.
    + rewrite RCv3_equivalent_definition_spec. split.
      * intros H. right. exists x, y. auto.
      * intros [(x' & y' & Hx & _) | (x' & y' & Hx & Hy & H)];
          [ discriminate | injection Hx as <-; injection Hy as <-; auto ].
  - intros [x|x] [y|y] w c t w' c' t'; reflexivity.
Qed.

End ModelFacts.

(** ** Deferreds *)

Module PyFacts.
Import Py.

Ltac task_simpl :=
  unfold addCallback, addErrback, returning, raise, fired, modify, gets,
    mbind, task_bind, mret, task_ret in *;
  cbn beta iota in *.

Lemma gather_from_map_succeeded {A} (vs : list A) :
  forall index, gather_from index (map Succeeded vs) = Succeeded vs.
Proof.
  induction vs as [|v vs IH]; intros index; simpl; [reflexivity|].
  now rewrite IH.
Qed.

Lemma gather_from_succeeded {A} (ds : list (deferred A)) :
  forall index vs,
    gather_from index ds = Succeeded vs <-> ds = map Succeeded vs.
Proof.
  intros index vs. split.
  - revert index vs. induction ds as [|d ds IH]; intros index vs; simpl.
    + intros H. injection H as <-. reflexivity.
    + destruct d as [a|e|]; try discriminate.
      * destruct (gather_from (S index) ds) as [l|e|] eqn:G; try discriminate.
        intros H. injection H as <-. simpl. f_equal. eapply IH, G.
      * destruct (gather_from (S index) ds); discriminate.
  - intros ->. apply gather_from_map_succeeded.
Qed.

Lemma gather_from_failed {A} (ds : list (deferred A)) :
  forall index e,
    gather_from index ds = Failed e <->
    exists j sub,
      e = FirstError sub (index + j) /\
      ds !! j = Some (Failed sub) /\
      forall k, (k < j)%nat -> forall sub', ds !! k <> Some (Failed sub').
Proof.
  induction ds as [|d ds IH]; intros index e; simpl.
  - split; [discriminate|]. intros (j & sub & _ & H & _). discriminate.
  - destruct d as [a|e0|].
    + assert (Hshift :
        gather_from (S index) ds = Failed e <->
        exists j sub, e = FirstError sub (index + j) /\
          (Succeeded a :: ds) !! j = Some (Failed sub) /\
          forall k, (k < j)%nat -> forall sub', (Succeeded a :: ds) !! k <> Some (Failed sub')).
      { rewrite IH. split.
        - intros (j & sub & -> & Hj & Hlt). exists (S j), sub.
          split; [f_equal; lia|]. split; [exact Hj|].
          intros [|k] Hk sub'; [discriminate|]. simpl. apply Hlt. lia.
        - intros (j & sub & -> & Hj & Hlt). destruct j as [|j]; [discriminate|].
          exists j, sub. split; [f_equal; lia|]. split; [exact Hj|].
          intros k Hk sub'. apply (Hlt (S k)). lia. }
      rewrite <- Hshift.
      destruct (gather_from (S index) ds); split; congruence.
    + split.
      * intros H. injection H as <-. exists 0%nat, e0.
        split; [f_equal; lia|]. split; [reflexivity|]. intros k Hk. lia.
      * intros (j & sub & -> & Hj & Hlt). destruct j as [|j].
        -- injection Hj as <-. f_equal. f_equal. lia.
        -- exfalso. apply (Hlt 0%nat ltac:(lia) e0). reflexivity.
    + assert (Hshift :
        gather_from (S index) ds = Failed e <->
        exists j sub, e = FirstError sub (index + j) /\
          (Waiting :: ds) !! j = Some (Failed sub) /\
          forall k, (k < j)%nat -> forall sub', (Waiting :: ds) !! k <> Some (Failed sub')).
      { rewrite IH. split.
        - intros (j & sub & -> & Hj & Hlt). exists (S j), sub.
          split; [f_equal; lia|]. split; [exact Hj|].
          intros [|k] Hk sub'; [discriminate|]. simpl. apply Hlt. lia.
        - intros (j & sub & -> & Hj & Hlt). destruct j as [|j]; [discriminate|].
          exists j, sub. split; [f_equal; lia|]. split; [exact Hj|].
          intros k Hk sub'. apply (Hlt (S k)). lia. }
      rewrite <- Hshift.
      destruct (gather_from (S index) ds); split; congruence.
Qed.

Lemma gather_from_some_failed {A} (ds : list (deferred A)) index j sub :
  ds !! j = Some (Failed sub) -> exists e, gather_from index ds = Failed e.
Proof.
  revert index j. induction ds as [|d ds IH]; intros index j H; [discriminate|].
  simpl. destruct d as [a|e|].
  - destruct j as [|j]; [discriminate|].
    destruct (IH (S index) j H) as [e ->]. eauto.
  - eauto.
  - destruct j as [|j]; [discriminate|].
    destruct (IH (S index) j H) as [e ->]. eauto.
Qed.

Lemma comprehension_cons {S A B} (f : A -> Task S B) (x : A) (xs : list A) (s : S) :
  comprehension f (x :: xs) s =
  (match fst (comprehension f xs (snd (f x s))) with
   | Succeeded ds => Succeeded (fst (f x s) :: ds)
   | Failed e => Failed e
   | Waiting => Waiting
   end,
   snd (comprehension f xs (snd (f x s)))).
Proof.
  cbn [comprehension]. unfold mbind, task_bind, returning, mret, task_ret.
  destruct (f x s) as [d s1]. cbn [fst snd].
  destruct (comprehension f xs s1) as [[ds|e|] s2]; reflexivity.
Qed.

Lemma comprehension_succeeds {S A B} (f : A -> Task S B) (xs : list A) :
  forall s, exists ds,
    fst (comprehension f xs s) = Succeeded ds /\ length ds = length xs.
Proof.
  induction xs as [|x xs IH]; intros s.
  - exists []. split; reflexivity.
  - rewrite comprehension_cons. cbn [fst].
    destruct (IH (snd (f x s))) as (ds & -> & Hlen).
    eexists. split; [reflexivity|]. cbn [length]. now rewrite Hlen.
Qed.

Lemma comprehension_app_snd {S A B} (f : A -> Task S B) (xs ys : list A) :
  forall s,
    snd (comprehension f (xs ++ ys) s) =
    snd (comprehension f ys (snd (comprehension f xs s))).
Proof.
  induction xs as [|x xs IH]; intros s; [reflexivity|].
  rewrite <- app_comm_cons, !comprehension_cons. cbn [snd]. apply IH.
Qed.

Lemma gather_from_not_failed {A} (ds : list (deferred A)) :
  Forall (fun d => is_failed d = false) ds ->
  forall index, is_failed (gather_from index ds) = false.
Proof.
  induction 1 as [|d ds Hd _ IH]; intros index; [reflexivity|].
  cbn [gather_from]. destruct d as [a|e|]; [|discriminate|].
  - specialize (IH (S index)). destruct (gather_from (S index) ds); [reflexivity|discriminate|reflexivity].
  - specialize (IH (S index)). destruct (gather_from (S index) ds); [reflexivity|discriminate|reflexivity].
Qed.

End PyFacts.

(** ** The launch worker *)

Module WorkerFacts.
Import Py Json Worker WorkerSpec PyFacts.

Lemma code_not_in_false (response : Response) (success_codes : list Z) :
  code_not_in response success_codes = false <-> In (code response) success_codes.
Proof.
  unfold code_not_in. rewrite negb_false_iff, existsb_exists. split.
  - intros (x & Hx & E). apply Z.eqb_eq in E. now subst.
  - intros H. exists (code response). split; [exact H | apply Z.eqb_refl].
Qed.

Lemma code_not_in_true (response : Response) (success_codes : list Z) :
  code_not_in response success_codes = true <-> ~ In (code response) success_codes.
Proof.
  rewrite <- code_not_in_false. destruct (code_not_in response success_codes);
    split; congruence.
Qed.

(** C7. [check_success] fails exactly when the response code is not among
    the success codes, and then with an [APIError] that carries the code and
    the body of the response; when the code is among them the response comes
    back as it was.  The check neither waits nor touches the state. *)
Theorem check_success_fails_iff_code_not_in_success_codes :
  forall (S : Type) (response : Response) (success_codes : list Z) (s : S),
    (forall e,
        fst (check_success response success_codes s) = Failed e <->
        ~ In (code response) success_codes /\
        e = APIError (code response) (content response)) /\
    (forall r,
        fst (check_success response success_codes s) = Succeeded r <->
        In (code response) success_codes /\ r = response) /\
    fst (check_success response success_codes s) <> Waiting /\
    snd (check_success response success_codes s) = s.
Proof.
  intros S response success_codes s. unfold check_success, treq_content.
  destruct (code_not_in response success_codes) eqn:E; task_simpl; simpl;
    [ apply code_not_in_true in E | apply code_not_in_false in E ];
    repeat split; intros;
    repeat match goal with H : _ /\ _ |- _ => destruct H end;
    subst; try congruence; try contradiction; auto.
Qed.

Lemma append_segments_run (uri : string) (segments : list string) (w : World) :
  append_segments uri segments w =
  (Succeeded (String.concat "/" (rstrip "/" uri :: map quote segments)),
   mkWorld (w_time w) (w_sent w)
     (w_stdout w ++ [String.concat "/" (rstrip "/" uri :: map quote segments)])).
Proof. reflexivity. Qed.

(** The request and its two callbacks, as [server_details],
    [create_server] and [add_to_load_balancer] chain them. *)
Lemma json_request_run (rt : Runtime) (r : Request) (codes : list Z) (w : World) :
  addCallback (addCallback (send rt r) (fun response => check_success response codes))
    (treq_json_content rt) w
  = (json_outcome rt codes (treq_send rt (w_sent w) r),
     mkWorld (w_time w) (w_sent w ++ [(w_time w, r)]) (w_stdout w)).
Proof.
  unfold addCallback, send, mbind, task_bind, json_outcome.
  destruct (treq_send rt (w_sent w) r) as [response|e|]; try reflexivity.
  unfold check_success, code_not_in, treq_content, addCallback, mbind, task_bind,
    mret, task_ret, raise.
  destruct (existsb (Z.eqb (code response)) codes); cbn [negb]; [|reflexivity].
  unfold treq_json_content, mret, task_ret, raise.
  destruct (json_loads rt (content response)); reflexivity.
Qed.

Lemma existsb_code (c : Z) (codes : list Z) :
  existsb (Z.eqb c) codes = true <-> In c codes.
Proof.
  rewrite existsb_exists. split.
  - intros (x & Hx & E). apply Z.eqb_eq in E. now subst.
  - intros H. exists c. split; [exact H | apply Z.eqb_refl].
Qed.

Lemma json_outcome_answered (rt : Runtime) (codes : list Z) (past : list (Z * Request))
    (r : Request) (doc : json) :
  json_outcome rt codes (treq_send rt past r) = Succeeded doc <-> answered rt past r codes doc.
Proof.
  unfold json_outcome, answered. destruct (treq_send rt past r) as [response|e|].
  - destruct (existsb (Z.eqb (code response)) codes) eqn:E.
    + apply existsb_code in E.
      destruct (json_loads rt (content response)) as [v|] eqn:J.
      * split.
        -- intros H. injection H as <-. exists response. auto.
        -- intros (x & Hx & _ & Hj). injection Hx as <-. congruence.
      * split; [discriminate|].
        intros (x & Hx & _ & Hj). injection Hx as <-. congruence.
    + split; [discriminate|].
      intros (x & Hx & Hin & _). injection Hx as <-.
      apply existsb_code in Hin. congruence.
  - split; [discriminate|]. intros (x & Hx & _). discriminate.
  - split; [discriminate|]. intros (x & Hx & _). discriminate.
Qed.

Lemma json_outcome_refused (rt : Runtime) (codes : list Z) (past : list (Z * Request))
    (r : Request) (e : exn) :
  json_outcome rt codes (treq_send rt past r) = Failed e <-> refused rt past r codes e.
Proof.
  unfold json_outcome, refused. destruct (treq_send rt past r) as [response|e'|].
  - destruct (existsb (Z.eqb (code response)) codes) eqn:E.
    + apply existsb_code in E.
      destruct (json_loads rt (content response)) as [v|] eqn:J.
      * split; [discriminate|].
        intros [H|[(x & Hx & Hn & _)|(x & Hx & _ & Hj & _)]]; [discriminate| |];
          injection Hx as <-; [contradiction | congruence].
      * split.
        -- intros H. injection H as <-. right. right. exists response. auto.
        -- intros [H|[(x & Hx & Hn & _)|(x & Hx & _ & _ & ->)]]; [discriminate| |];
             [injection Hx as <-; contradiction | reflexivity].
    + assert (Hn : ~ In (code response) codes).
      { intros Hin. apply existsb_code in Hin. congruence. }
      split.
      * intros H. injection H as <-. right. left. exists response. auto.
      * intros [H|[(x & Hx & _ & ->)|(x & Hx & Hin & _)]]; [discriminate| |];
          injection Hx as <-; [reflexivity | contradiction].
  - split.
    + intros H. injection H as <-. now left.
    + intros [H|[(x & Hx & _)|(x & Hx & _)]]; [congruence | discriminate | discriminate].
  - split; [discriminate|].
    intros [H|[(x & Hx & _)|(x & Hx & _)]]; discriminate.
Qed.

Lemma json_outcome_waiting (rt : Runtime) (codes : list Z) (past : list (Z * Request))
    (r : Request) :
  json_outcome rt codes (treq_send rt past r) = Waiting <-> treq_send rt past r = Waiting.
Proof.
  unfold json_outcome. destruct (treq_send rt past r) as [response|e|].
  - destruct (existsb (Z.eqb (code response)) codes);
      [destruct (json_loads rt (content response))|]; split; discriminate.
  - split; discriminate.
  - split; reflexivity.
Qed.

Lemma rstrip_append_char (c : ascii) (s : string) :
  rstrip c (String.append s (String c EmptyString)) = rstrip c s.
Proof.
  induction s as [|a s IH].
  - change (rstrip c (String c EmptyString) = EmptyString). cbn [rstrip].
    now rewrite Ascii.eqb_refl.
  - change (String.append (String a s) (String c EmptyString))
      with (String a (String.append s (String c EmptyString))).
    cbn [rstrip]. now rewrite IH.
Qed.

Lemma rstrip_with_slashes (n : nat) (uri : string) :
  rstrip "/" (with_slashes n uri) = rstrip "/" uri.
Proof.
  induction n as [|n IH]; [reflexivity|].
  cbn [with_slashes]. now rewrite rstrip_append_char.
Qed.

Lemma quote_all_safe (s : string) : all_safe s = true -> quote s = s.
Proof.
  induction s as [|c s IH]; [reflexivity|].
  cbn [all_safe quote]. intros H. apply andb_true_iff in H as [Hc Hs].
  now rewrite Hc, IH.
Qed.

Lemma digits_all_safe (d : Decimal.uint) :
  all_safe (NilEmpty.string_of_uint d) = true.
Proof. induction d; cbn [NilEmpty.string_of_uint all_safe]; try rewrite IHd; reflexivity. Qed.

Lemma str_all_safe (n : Z) : all_safe (str n) = true.
Proof.
  unfold str, NilZero.string_of_int, NilZero.string_of_uint.
  destruct (Z.to_int n) as [d|d]; destruct d; try reflexivity;
    cbn [all_safe]; rewrite ?andb_true_l;
    match goal with
    | |- all_safe (NilEmpty.string_of_uint ?u) = true => apply digits_all_safe
    | |- (_ && all_safe (NilEmpty.string_of_uint ?u))%bool = true =>
        rewrite digits_all_safe; reflexivity
    end.
Qed.

(** [add_to_load_balancer] on a config that has both keys. *)
Lemma add_to_load_balancer_run (rt : Runtime) (endpoint auth_token : string)
    (lb_id port : Z) (ip_address : json) (w : World) :
  let r := add_node_request rt endpoint auth_token lb_id port ip_address in
  add_to_load_balancer rt endpoint auth_token (mkLBConfig (Some lb_id) (Some port))
    ip_address w =
  (Succeeded (json_outcome rt [200; 202] (treq_send rt (w_sent w) r)), after_request r w).
Proof.
  intros r. unfold add_to_load_balancer, subscript. cbn [loadBalancerId lb_port].
  unfold mbind at 1. unfold task_bind at 1. unfold mret at 1. unfold task_ret at 1.
  unfold mbind at 1. unfold task_bind at 1. unfold mret at 1. unfold task_ret at 1.
  unfold mbind at 1. unfold task_bind at 1. rewrite append_segments_run.
  unfold returning, treq_post. rewrite json_request_run.
  cbn [map String.concat w_time w_sent w_stdout].
  rewrite (quote_all_safe _ (str_all_safe lb_id)).
  reflexivity.
Qed.

Lemma add_to_load_balancer_missing (rt : Runtime) (endpoint auth_token : string)
    (lb_config : LBConfig) (ip_address : json) (w : World) (key : string) :
  missing_key lb_config = Some key ->
  add_to_load_balancer rt endpoint auth_token lb_config ip_address w
  = (Failed (KeyError key), w).
Proof.
  destruct lb_config as [[lb_id|] [port|]]; cbn; intros H; try discriminate;
    injection H as <-; reflexivity.
Qed.

Lemma after_requests_cons (r : Request) (requests : list Request) (w : World) :
  after_requests (r :: requests) w = after_requests requests (after_request r w).
Proof.
  unfold after_requests, after_request. cbn [w_time w_sent w_stdout map].
  now rewrite <- !app_assoc.
Qed.

Lemma after_requests_nil (w : World) : after_requests [] w = w.
Proof. unfold after_requests. cbn. rewrite !app_nil_r. now destruct w. Qed.

(** The list comprehension of [add_to_load_balancers]. *)
Lemma add_to_load_balancers_for_each (rt : Runtime) (endpoint auth_token : string)
    (ip_address : json) (lb_configs : list LBConfig) :
  forall w,
    let requests :=
      map (fun node => add_node_request rt endpoint auth_token (fst node) (snd node)
                         ip_address)
        (nodes_before_missing lb_configs) in
    for_each
      (fun lb_config => add_to_load_balancer rt endpoint auth_token lb_config ip_address)
      lb_configs w =
    (match first_missing_key lb_configs with
     | None => Succeeded (outcomes rt [200; 202] (w_sent w) (w_time w) requests)
     | Some key => Failed (KeyError key)
     end,
     after_requests requests w).
Proof.
  induction lb_configs as [|c rest IH]; intros w requests; subst requests.
  - cbn. now rewrite after_requests_nil.
  - cbn [for_each]. unfold mbind at 1. unfold task_bind at 1.
    destruct c as [[lb_id|] [port|]].
    + rewrite add_to_load_balancer_run. cbn [first_missing_key missing_key
        loadBalancerId lb_port nodes_before_missing map fst snd].
      unfold mbind at 1. unfold task_bind at 1. rewrite IH. cbn zeta.
      rewrite after_requests_cons. cbn [after_request w_time w_sent outcomes].
      destruct (first_missing_key rest); reflexivity.
    + rewrite (add_to_load_balancer_missing rt endpoint auth_token
                 (mkLBConfig (Some lb_id) None) ip_address w "port" eq_refl).
      cbn. now rewrite after_requests_nil.
    + rewrite (add_to_load_balancer_missing rt endpoint auth_token
                 (mkLBConfig None (Some port)) ip_address w "loadBalancerId" eq_refl).
      cbn. now rewrite after_requests_nil.
    + rewrite (add_to_load_balancer_missing rt endpoint auth_token
                 (mkLBConfig None None) ip_address w "loadBalancerId" eq_refl).
      cbn. now rewrite after_requests_nil.
Qed.

Lemma add_to_load_balancers_run (rt : Runtime) (endpoint auth_token : string)
    (lb_configs : list LBConfig) (ip_address : json) (w : World) :
  let requests :=
    map (fun node => add_node_request rt endpoint auth_token (fst node) (snd node)
                       ip_address)
      (nodes_before_missing lb_configs) in
  add_to_load_balancers rt endpoint auth_token lb_configs ip_address w =
  (match first_missing_key lb_configs with
   | None => Succeeded (gatherResults (outcomes rt [200; 202] (w_sent w) (w_time w) requests))
   | Some key => Failed (KeyError key)
   end,
   after_requests requests w).
Proof.
  intros requests. unfold add_to_load_balancers, mbind, task_bind.
  rewrite add_to_load_balancers_for_each. fold requests.
  destruct (first_missing_key lb_configs); reflexivity.
Qed.

Lemma nodes_before_missing_complete (nodes : list (Z * Z)) :
  nodes_before_missing (map lb_config_of nodes) = nodes /\
  first_missing_key (map lb_config_of nodes) = None.
Proof.
  induction nodes as [|[lb_id port] nodes [IH1 IH2]]; [split; reflexivity|].
  cbn. rewrite IH1, IH2. split; reflexivity.
Qed.

Lemma nodes_before_missing_incomplete (nodes : list (Z * Z)) (lb_config : LBConfig)
    (rest : list LBConfig) (key : string) :
  missing_key lb_config = Some key ->
  nodes_before_missing (map lb_config_of nodes ++ lb_config :: rest) = nodes /\
  first_missing_key (map lb_config_of nodes ++ lb_config :: rest) = Some key.
Proof.
  intros H. induction nodes as [|[lb_id port] nodes [IH1 IH2]].
  - cbn. rewrite H. destruct lb_config as [[?|] [?|]]; try discriminate; split; reflexivity.
  - cbn. cbn in IH1, IH2. rewrite IH1, IH2. split; reflexivity.
Qed.

Lemma outcomes_length (rt : Runtime) (codes : list Z) (t : Z) (requests : list Request) :
  forall past, length (outcomes rt codes past t requests) = length requests.
Proof.
  induction requests as [|r rest IH]; intros past; [reflexivity|].
  cbn. now rewrite IH.
Qed.

(** C10. [add_to_load_balancers] sends one add-node request per config, in
    the order of the configs: a [POST] to the nodes of the load balancer of
    the config whose body names the given address and the port of the
    config.  What it returns is a Deferred whose result is the list of the
    per-config responses exactly when every add has succeeded; as soon as
    one add has failed the result is a failure ([FirstError] of a failed
    add), never a list with some of the responses.  A dictionary that lacks
    ['loadBalancerId'] or ['port'] is no config: it ends the call with the
    [KeyError] of the key, after the requests of the configs before it. *)
Theorem add_to_load_balancers_all_or_nothing :
  forall (rt : Runtime) (endpoint auth_token : string) (nodes : list (Z * Z))
         (ip_address : json) (w : World),
    let requests :=
      map (fun node =>
             mkRequest "POST"
               (String.concat "/"
                  [rstrip "/" endpoint; "loadbalancers"; str (fst node); "nodes"])
               [("content-type", ["application/json"]);
                ("accept", ["application/json"]);
                ("x-auth-token", [auth_token])]
               (Some (json_dumps rt
                        (JDict [("nodes",
                                 JList [JDict [("address", ip_address);
                                               ("port", JInt (snd node));
                                               ("condition", JStr "ENABLED");
                                               ("type", JStr "PRIMARY")]])]))))
        nodes in
    (let run := add_to_load_balancers rt endpoint auth_token (map lb_config_of nodes)
                  ip_address w in
     let adds := outcomes rt [200; 202] (w_sent w) (w_time w) requests in
     w_sent (snd run) = w_sent w ++ map (fun r => (w_time w, r)) requests /\
     length requests = length (map lb_config_of nodes) /\
     length adds = length (map lb_config_of nodes) /\
     exists d,
       fst run = Succeeded d /\
       (forall responses, d = Succeeded responses <-> adds = map Succeeded responses) /\
       (forall e, d = Failed e <->
          exists j sub, e = FirstError sub j /\ adds !! j = Some (Failed sub) /\
                        forall k, (k < j)%nat -> forall sub', adds !! k <> Some (Failed sub')) /\
       (forall j sub, adds !! j = Some (Failed sub) -> exists e, d = Failed e)) /\
    (forall (lb_config : LBConfig) (rest : list LBConfig) (key : string),
        missing_key lb_config = Some key ->
        let run := add_to_load_balancers rt endpoint auth_token
                     (map lb_config_of nodes ++ lb_config :: rest) ip_address w in
        fst run = Failed (KeyError key) /\
        w_sent (snd run) = w_sent w ++ map (fun r => (w_time w, r)) requests).
Proof.
  intros rt endpoint auth_token nodes ip_address w requests.
  assert (Hreq : requests
                 = map (fun node => add_node_request rt endpoint auth_token (fst node)
                                      (snd node) ip_address) nodes) by reflexivity.
  split.
  - intros run adds. subst run. rewrite add_to_load_balancers_run. cbn zeta.
    destruct (nodes_before_missing_complete nodes) as [-> ->].
    rewrite <- Hreq. cbn [fst snd after_requests w_sent].
    split; [reflexivity|].
    split; [unfold requests; now rewrite !length_map|].
    split; [unfold adds, requests; now rewrite outcomes_length, !length_map|].
    exists (gatherResults adds). split; [reflexivity|]. unfold gatherResults.
    split; [intros responses; apply gather_from_succeeded|].
    split; [intros e; apply gather_from_failed|].
    intros j sub H. eapply gather_from_some_failed, H.
  - intros lb_config rest key Hkey run. subst run.
    rewrite add_to_load_balancers_run. cbn zeta.
    destruct (nodes_before_missing_incomplete nodes lb_config rest key Hkey) as [-> ->].
    rewrite <- Hreq. split; reflexivity.
Qed.

(** The theorem of C10 at two configs, the second of which the cloud
    refuses with 404, and at a third dictionary that has no port. *)
Lemma add_to_load_balancers_all_or_nothing_witness :
  let rt :=
    mkRuntime
      (fun past _ =>
         match past with
         | [] => Succeeded (mkResponse 200 "ok")
         | _ => Succeeded (mkResponse 404 "no such load balancer")
         end)
      (fun _ => Some JNull) (fun _ => "") in
  let nodes := [(96815, 8080); (96816, 443)] in
  (let run := add_to_load_balancers rt "http://clb/v1.0/" "token" (map lb_config_of nodes)
                (JStr "10.0.0.7") initial_world in
   fst run = Succeeded (Failed (FirstError (APIError 404 "no such load balancer") 1)) /\
   map (fun sent => url (snd sent)) (w_sent (snd run))
     = ["http://clb/v1.0/loadbalancers/96815/nodes";
        "http://clb/v1.0/loadbalancers/96816/nodes"]) /\
  (let run := add_to_load_balancers rt "http://clb/v1.0/" "token"
                (map lb_config_of nodes ++ [mkLBConfig (Some 96817) None])
                (JStr "10.0.0.7") initial_world in
   fst run = Failed (KeyError "port") /\
   length (w_sent (snd run)) = 2%nat).
Proof.
  intros rt nodes.
  destruct (add_to_load_balancers_all_or_nothing rt "http://clb/v1.0/" "token" nodes
              (JStr "10.0.0.7") initial_world) as [Hall Hmissing].
  split.
  - destruct Hall as (Hsent & _ & _ & d & Hd & _ & Hfail & _).
    split.
    + rewrite Hd. f_equal.
      apply Hfail. exists 1%nat, (APIError 404 "no such load balancer").
      split; [reflexivity|]. split; [reflexivity|].
      intros k Hk sub'. destruct k as [|k]; [discriminate | lia].
    + rewrite Hsent. reflexivity.
  - destruct (Hmissing (mkLBConfig (Some 96817) None) [] "port" eq_refl) as [Hf Hs].
    split; [exact Hf|]. rewrite Hs. reflexivity.
Defined.

Lemma truthy_supplied (wanted : option string) :
  truthy wanted = true <-> supplied wanted.
Proof.
  unfold truthy, supplied. destruct wanted as [s|].
  - rewrite negb_true_iff, String.eqb_neq. split.
    + intros H. exists s. auto.
    + intros (s' & E & Hn). now injection E as <-.
  - split; [discriminate | intros (s & E & _); discriminate].
Qed.

Lemma supplied_dec (wanted : option string) : supplied wanted \/ ~ supplied wanted.
Proof.
  rewrite <- truthy_supplied. destruct (truthy wanted); [now left | right; discriminate].
Qed.

Lemma accepts_not_supplied (wanted found : option string) :
  ~ supplied wanted -> accepts wanted found = true.
Proof.
  unfold accepts, supplied. destruct wanted as [s|]; [|reflexivity].
  destruct (String.eqb_spec s ""); [reflexivity|].
  intros H. exfalso. apply H. eauto.
Qed.

Lemma accepts_supplied_some (wanted found : option string) :
  accepts wanted found = true -> supplied wanted -> is_Some found.
Proof.
  intros Ha (s & -> & Hne). unfold accepts in Ha.
  apply String.eqb_neq in Hne. rewrite Hne in Ha.
  apply bool_decide_eq_true in Ha. rewrite Ha. eauto.
Qed.

Lemma differs_missing (wanted : option string) (key : string) :
  supplied wanted -> differs wanted key None = inl (KeyError key).
Proof.
  intros H. apply truthy_supplied in H. unfold differs.
  destruct wanted as [s|]; [|discriminate]. now rewrite H.
Qed.

Lemma differs_present (wanted : option string) (key : string) (found : option string) :
  (supplied wanted -> is_Some found) ->
  differs wanted key found = inr (negb (accepts wanted found)).
Proof.
  intros H. destruct (supplied_dec wanted) as [Hs|Hn].
  - destruct (H Hs) as [f ->]. destruct Hs as (s & -> & Hne).
    unfold differs, accepts, truthy.
    apply String.eqb_neq in Hne. rewrite Hne. cbn [negb]. do 2 f_equal.
    destruct (String.eqb_spec s f) as [->|Hsf]; symmetry.
    + now apply bool_decide_eq_true.
    + apply bool_decide_eq_false. congruence.
  - rewrite (accepts_not_supplied _ _ Hn). rewrite <- truthy_supplied in Hn.
    unfold differs. destruct wanted as [s|]; [|reflexivity].
    destruct (truthy (Some s)); [now destruct Hn | reflexivity].
Qed.

Lemma differs_accepts (wanted : option string) (key : string) (found : option string) :
  has_key wanted found ->
  differs wanted key found = inr (negb (accepts wanted found)).
Proof.
  unfold has_key. intros H. apply differs_present.
  intros Hs. apply H. now apply truthy_supplied.
Qed.

Lemma endpoints_of_service_regions (es : list Endpoint) (region_wanted : option string) :
  (supplied region_wanted -> Forall (fun e => is_Some (region e)) es) ->
  endpoints_of_service es region_wanted =
  (List.filter (fun e => accepts region_wanted (region e)) es, None).
Proof.
  induction es as [|e es IH]; intros H; [reflexivity|].
  cbn [endpoints_of_service List.filter].
  rewrite differs_present, IH.
  - destruct (accepts region_wanted (region e)); reflexivity.
  - intros Hs. specialize (H Hs). now inversion H.
  - intros Hs. specialize (H Hs). now inversion H.
Qed.

Lemma endpoints_of_service_filter (es : list Endpoint) (region_wanted : option string) :
  Forall (fun e => has_key region_wanted (region e)) es ->
  endpoints_of_service es region_wanted =
  (List.filter (fun e => accepts region_wanted (region e)) es, None).
Proof.
  intros H. apply endpoints_of_service_regions. intros Hs.
  eapply List.Forall_impl; [|exact H]. intros e He. apply He. now apply truthy_supplied.
Qed.

Lemma endpoints_of_service_missing (before after : list Endpoint) (e : Endpoint)
    (region_wanted : option string) :
  supplied region_wanted ->
  Forall (fun x => is_Some (region x)) before ->
  region e = None ->
  endpoints_of_service (before ++ e :: after) region_wanted =
  (List.filter (fun x => accepts region_wanted (region x)) before, Some (KeyError "region")).
Proof.
  intros Hs Hb He. induction Hb as [|x before Hx _ IH].
  - cbn [app endpoints_of_service List.filter]. rewrite He.
    now rewrite (differs_missing _ _ Hs).
  - rewrite <- app_comm_cons. cbn [endpoints_of_service List.filter].
    rewrite differs_present by (intros _; exact Hx). rewrite IH.
    destruct (accepts region_wanted (region x)); reflexivity.
Qed.

Lemma regions_or_missing (es : list Endpoint) :
  Forall (fun x => is_Some (region x)) es \/
  exists before e after,
    es = before ++ e :: after /\
    Forall (fun x => is_Some (region x)) before /\
    region e = None.
Proof.
  induction es as [|x es IH]; [left; constructor|].
  destruct (region x) as [r|] eqn:Hx.
  - destruct IH as [IH|(before & e & after & -> & Hb & He)].
    + left. constructor; [rewrite Hx; eauto | exact IH].
    + right. exists (x :: before), e, after. split; [reflexivity|].
      split; [constructor; [rewrite Hx; eauto | exact Hb] | exact He].
  - right. exists [], x, es. split; [reflexivity|]. split; [constructor | exact Hx].
Qed.

Lemma endpoints_consulted (service_catalog : list Service)
    (name_wanted type_wanted region_wanted : option string) :
  consulted service_catalog name_wanted type_wanted region_wanted ->
  endpoints service_catalog name_wanted type_wanted region_wanted =
  (matching_endpoints service_catalog name_wanted type_wanted region_wanted, None).
Proof.
  unfold consulted, matching_endpoints.
  induction 1 as [|service rest [Ht Hrest] _ IH]; [reflexivity|].
  cbn [endpoints flat_map].
  rewrite (differs_present _ _ _ Ht).
  destruct (accepts type_wanted (service_type service)); cbn [negb andb];
    [|rewrite IH; reflexivity].
  destruct (Hrest eq_refl) as [Hn Hes].
  rewrite (differs_present _ _ _ Hn).
  destruct (accepts name_wanted (service_name service)); cbn [negb];
    [|rewrite IH; reflexivity].
  destruct (Hes eq_refl) as (es & -> & Hr).
  rewrite (endpoints_of_service_regions _ _ Hr), IH.
  reflexivity.
Qed.

Lemma readable_consulted (service_catalog : list Service)
    (name_wanted type_wanted region_wanted : option string) :
  readable service_catalog name_wanted type_wanted region_wanted ->
  consulted service_catalog name_wanted type_wanted region_wanted.
Proof.
  unfold readable, consulted. intros H. eapply List.Forall_impl; [|exact H].
  intros service (Ht & Hn & es & Hes & Hr). unfold has_key in *.
  split; [intros Hs; apply Ht; now apply truthy_supplied|].
  intros _. split; [intros Hs; apply Hn; now apply truthy_supplied|].
  intros _. exists es. split; [exact Hes|].
  intros Hs. eapply List.Forall_impl; [|exact Hr].
  intros e He. apply He. now apply truthy_supplied.
Qed.

Lemma endpoints_matching (service_catalog : list Service)
    (name_wanted type_wanted region_wanted : option string) :
  readable service_catalog name_wanted type_wanted region_wanted ->
  endpoints service_catalog name_wanted type_wanted region_wanted =
  (matching_endpoints service_catalog name_wanted type_wanted region_wanted, None).
Proof. intros H. now apply endpoints_consulted, readable_consulted. Qed.

Lemma endpoints_app (before rest : list Service)
    (name_wanted type_wanted region_wanted : option string) :
  snd (endpoints before name_wanted type_wanted region_wanted) = None ->
  endpoints (before ++ rest) name_wanted type_wanted region_wanted
  = yield_then (fst (endpoints before name_wanted type_wanted region_wanted))
      (endpoints rest name_wanted type_wanted region_wanted).
Proof.
  induction before as [|service before IH]; intros H.
  - cbn. now destruct (endpoints rest _ _ _).
  - rewrite <- app_comm_cons. cbn [endpoints] in *.
    destruct (differs type_wanted "type" (service_type service)) as [e|[|]];
      [discriminate | now apply IH |].
    destruct (differs name_wanted "name" (service_name service)) as [e|[|]];
      [discriminate | now apply IH |].
    destruct (service_endpoints service) as [es|]; [|discriminate].
    destruct (endpoints_of_service es region_wanted) as [ys [e|]]; [discriminate|].
    unfold yield_then in *. cbn [fst snd] in *. rewrite (IH H). cbn [fst snd].
    now rewrite app_assoc.
Qed.

Lemma endpoints_misses (before after : list Service) (service : Service)
    (name_wanted type_wanted region_wanted : option string) (key : string)
    (yielded : list Endpoint) :
  consulted before name_wanted type_wanted region_wanted ->
  misses name_wanted type_wanted region_wanted service key yielded ->
  endpoints (before ++ service :: after) name_wanted type_wanted region_wanted =
  (matching_endpoints before name_wanted type_wanted region_wanted ++ yielded,
   Some (KeyError key)).
Proof.
  intros Hc Hm. pose proof (endpoints_consulted _ _ _ _ Hc) as E.
  rewrite endpoints_app; [|now rewrite E]. rewrite E. cbn [fst endpoints].
  unfold yield_then.
  destruct Hm as [(Hs & Ht & -> & ->)|(Ht & Hm)].
  - rewrite Ht, (differs_missing _ _ Hs). reflexivity.
  - rewrite (differs_present _ _ _ (accepts_supplied_some _ _ Ht)), Ht. cbn [negb].
    destruct Hm as [(Hs & Hn & -> & ->)|(Hn & Hm)].
    + rewrite Hn, (differs_missing _ _ Hs). reflexivity.
    + rewrite (differs_present _ _ _ (accepts_supplied_some _ _ Hn)), Hn. cbn [negb].
      destruct Hm as [(Hes & -> & ->)
                     |(Hs & eb & e & ea & Hes & Hb & He & -> & ->)].
      * rewrite Hes. reflexivity.
      * rewrite Hes, (endpoints_of_service_missing _ _ _ _ Hs Hb He). reflexivity.
Qed.

Lemma consulted_service_or_misses (service : Service)
    (name_wanted type_wanted region_wanted : option string) :
  consulted_service name_wanted type_wanted region_wanted service \/
  exists key yielded, misses name_wanted type_wanted region_wanted service key yielded.
Proof.
  unfold consulted_service, misses.
  assert (Hendpoints :
    (exists es,
        service_endpoints service = Some es /\
        (supplied region_wanted -> Forall (fun e => is_Some (region e)) es)) \/
    exists key yielded,
      (service_endpoints service = None /\ key = "endpoints" /\ yielded = []) \/
      (supplied region_wanted /\
       exists before e after,
         service_endpoints service = Some (before ++ e :: after) /\
         Forall (fun x => is_Some (region x)) before /\
         region e = None /\
         key = "region" /\
         yielded = List.filter (fun x => accepts region_wanted (region x)) before)).
  { destruct (service_endpoints service) as [es|];
      [|right; exists "endpoints", []; left; auto].
    destruct (supplied_dec region_wanted) as [Hr|Hr].
    - destruct (regions_or_missing es) as [Hall|(eb & e & ea & -> & Hb & He)].
      + left. exists es. auto.
      + right. eexists "region", _. right. split; [exact Hr|].
        exists eb, e, ea. auto.
    - left. exists es. split; [reflexivity|]. intros H. contradiction. }
  assert (Hname :
    ((supplied name_wanted -> is_Some (service_name service)) /\
     (accepts name_wanted (service_name service) = true ->
      exists es,
        service_endpoints service = Some es /\
        (supplied region_wanted -> Forall (fun e => is_Some (region e)) es))) \/
    exists key yielded,
      (supplied name_wanted /\ service_name service = None /\
       key = "name" /\ yielded = []) \/
      (accepts name_wanted (service_name service) = true /\
       ((service_endpoints service = None /\ key = "endpoints" /\ yielded = []) \/
        (supplied region_wanted /\
         exists before e after,
           service_endpoints service = Some (before ++ e :: after) /\
           Forall (fun x => is_Some (region x)) before /\
           region e = None /\
           key = "region" /\
           yielded = List.filter (fun x => accepts region_wanted (region x)) before)))).
  { destruct (accepts name_wanted (service_name service)) eqn:An.
    - destruct (supplied_dec name_wanted) as [Hn|Hn].
      + pose proof (accepts_supplied_some _ _ An Hn) as Hsome.
        destruct Hendpoints as [Hok|(key & yielded & Hm)].
        * left. split; [intros _; exact Hsome | intros _; exact Hok].
        * right. exists key, yielded. right. split; [reflexivity | exact Hm].
      + destruct Hendpoints as [Hok|(key & yielded & Hm)].
        * left. split; [intros H; contradiction | intros _; exact Hok].
        * right. exists key, yielded. right. split; [reflexivity | exact Hm].
    - destruct (service_name service) as [n|] eqn:En.
      + left. split; [eauto | discriminate].
      + destruct (supplied_dec name_wanted) as [Hn|Hn].
        * right. exists "name", []. left. auto.
        * rewrite (accepts_not_supplied _ _ Hn) in An. discriminate. }
  clear Hendpoints.
  destruct (accepts type_wanted (service_type service)) eqn:At.
  - destruct (supplied_dec type_wanted) as [Ht|Ht].
    + pose proof (accepts_supplied_some _ _ At Ht) as Hsome.
      destruct Hname as [Hok|(key & yielded & Hm)].
      * left. split; [intros _; exact Hsome | intros _; exact Hok].
      * right. exists key, yielded. right. split; [reflexivity | exact Hm].
    + destruct Hname as [Hok|(key & yielded & Hm)].
      * left. split; [intros H; contradiction | intros _; exact Hok].
      * right. exists key, yielded. right. split; [reflexivity | exact Hm].
  - destruct (service_type service) as [t|] eqn:Et.
    + left. split; [eauto | discriminate].
    + destruct (supplied_dec type_wanted) as [Ht|Ht].
      * right. exists "type", []. left. auto.
      * rewrite (accepts_not_supplied _ _ Ht) in At. discriminate.
Qed.

Lemma consulted_or_misses (service_catalog : list Service)
    (name_wanted type_wanted region_wanted : option string) :
  consulted service_catalog name_wanted type_wanted region_wanted \/
  exists before service after key yielded,
    service_catalog = before ++ service :: after /\
    consulted before name_wanted type_wanted region_wanted /\
    misses name_wanted type_wanted region_wanted service key yielded.
Proof.
  unfold consulted. induction service_catalog as [|service rest IH]; [left; constructor|].
  destruct (consulted_service_or_misses service name_wanted type_wanted region_wanted)
    as [Hc|(key & yielded & Hm)].
  - destruct IH as [IH|(before & s & after & key & yielded & -> & Hb & Hm)].
    + left. now constructor.
    + right. exists (service :: before), s, after, key, yielded.
      split; [reflexivity|]. split; [now constructor | exact Hm].
  - right. exists [], service, rest, key, yielded.
    split; [reflexivity|]. split; [constructor | exact Hm].
Qed.

Lemma matching_endpoints_In (service_catalog : list Service)
    (name_wanted type_wanted region_wanted : option string) (e : Endpoint) :
  In e (matching_endpoints service_catalog name_wanted type_wanted region_wanted) <->
  exists service es,
    In service service_catalog /\
    accepts type_wanted (service_type service) = true /\
    accepts name_wanted (service_name service) = true /\
    service_endpoints service = Some es /\
    In e es /\
    accepts region_wanted (region e) = true.
Proof.
  unfold matching_endpoints. rewrite in_flat_map. split.
  - intros (service & Hs & He).
    destruct (accepts type_wanted (service_type service)) eqn:T; [|destruct He].
    destruct (accepts name_wanted (service_name service)) eqn:N; [|destruct He].
    cbn [andb] in He. apply filter_In in He as [He Hr].
    destruct (service_endpoints service) as [es|] eqn:Hes; [|destruct He].
    exists service, es. auto 10.
  - intros (service & es & Hs & T & N & Hes & He & Hr).
    exists service. split; [exact Hs|]. rewrite T, N, Hes. cbn [andb default].
    apply filter_In. auto.
Qed.

Lemma matching_endpoints_sublist (service_catalog : list Service)
    (name_wanted type_wanted region_wanted : option string) :
  sublist (matching_endpoints service_catalog name_wanted type_wanted region_wanted)
    (flat_map (fun service => default [] (service_endpoints service)) service_catalog).
Proof.
  unfold matching_endpoints.
  induction service_catalog as [|service rest IH]; [constructor|].
  cbn [flat_map]. apply sublist_app; [|exact IH].
  destruct (_ && _)%bool; [|apply sublist_nil_l].
  generalize (default [] (service_endpoints service)). intros es.
  induction es as [|e es IHes]; [constructor|].
  cbn [List.filter]. destruct (accepts region_wanted (region e)).
  - now apply sublist_skip.
  - now apply sublist_cons.
Qed.

Lemma launch_server_no_load_balancer_endpoint (rt : Runtime) (polls : nat)
    (region_ : string) (service_catalog : list Service) (auth_token : string)
    (launch_config : LaunchConfig) (w : World) :
  is_Some (lc_server launch_config) ->
  endpoints service_catalog (Some "cloudLoadBalancers") None (Some region_) = ([], None) ->
  launch_server rt polls region_ service_catalog auth_token launch_config w
  = (Failed IndexError, w).
Proof.
  intros [server_config Hs] He. unfold launch_server.
  rewrite Hs, He. reflexivity.
Qed.

Lemma launch_server_no_server_endpoint (rt : Runtime) (polls : nat)
    (region_ : string) (service_catalog : list Service) (auth_token : string)
    (launch_config : LaunchConfig) (w : World) (lb : Endpoint) (lbs : list Endpoint) :
  is_Some (lc_server launch_config) ->
  endpoints service_catalog (Some "cloudLoadBalancers") None (Some region_)
    = (lb :: lbs, None) ->
  is_Some (publicURL lb) ->
  endpoints service_catalog (Some "cloudServersOpenStack") None (Some region_) = ([], None) ->
  launch_server rt polls region_ service_catalog auth_token launch_config w
  = (Failed IndexError, w).
Proof.
  intros [server_config Hs] Hlb [u Hu] He.
  destruct lb as [reg pub]. cbn in Hu. subst pub.
  unfold launch_server. rewrite Hs, Hlb, He. reflexivity.
Qed.

(** C9, where the specification and the code part.  With a catalog that
    has no endpoint to offer, [launch_server] does not end in a
    [NoEndpointError]: the exception that leaves it is the [IndexError] of
    [[0]] on the empty list.  And not every catalog document is resolved:
    asked for the type [compute], the resolver yields the two [ORD]
    endpoints of the first service of a catalog whose second service has no
    ['type'], and then raises [KeyError]. *)
Lemma launch_server_empty_catalog_is_IndexError :
  launch_server silent_runtime 0 "ORD" [] "token" main_launch_config initial_world
    = (Failed IndexError, initial_world) /\
  IndexError <> OtherError "NoEndpointError" /\
  endpoints two_region_catalog None (Some "compute") (Some "ORD")
    = ([mkEndpoint (Some "ORD") (Some "https://ord.servers/v2");
        mkEndpoint (Some "ORD") (Some "https://ord2.servers/v2")],
       Some (KeyError "type")).
Proof. split; [reflexivity|]. split; [discriminate | reflexivity]. Qed.

(** C9, as the code has it.  [endpoints] yields exactly the endpoints that
    match every filter component that is supplied (a component that is
    [None] or empty is not supplied), in the order of the catalog, as long
    as it finds the keys that it consults.  At the first key that it does
    not find it raises the [KeyError] of that key, after the matching
    endpoints that come before; every catalog is of one of the two kinds.
    At the call site [launch_server] an empty result of either lookup is an
    error: the [IndexError] raised by taking element 0 of the empty list,
    before any request is sent. *)
Theorem endpoints_match_in_order_and_empty_raises_IndexError :
  forall (service_catalog : list Service)
         (name_wanted type_wanted region_wanted : option string),
    (consulted service_catalog name_wanted type_wanted region_wanted ->
     endpoints service_catalog name_wanted type_wanted region_wanted =
       (matching_endpoints service_catalog name_wanted type_wanted region_wanted, None)) /\
    (forall before service after key yielded,
        service_catalog = before ++ service :: after ->
        consulted before name_wanted type_wanted region_wanted ->
        misses name_wanted type_wanted region_wanted service key yielded ->
        endpoints service_catalog name_wanted type_wanted region_wanted =
          (matching_endpoints before name_wanted type_wanted region_wanted ++ yielded,
           Some (KeyError key))) /\
    (consulted service_catalog name_wanted type_wanted region_wanted \/
     exists before service after key yielded,
       service_catalog = before ++ service :: after /\
       consulted before name_wanted type_wanted region_wanted /\
       misses name_wanted type_wanted region_wanted service key yielded) /\
    (forall e,
        In e (matching_endpoints service_catalog name_wanted type_wanted region_wanted) <->
        exists service es,
          In service service_catalog /\
          accepts type_wanted (service_type service) = true /\
          accepts name_wanted (service_name service) = true /\
          service_endpoints service = Some es /\
          In e es /\
          accepts region_wanted (region e) = true) /\
    sublist (matching_endpoints service_catalog name_wanted type_wanted region_wanted)
      (flat_map (fun service => default [] (service_endpoints service)) service_catalog) /\
    (forall rt polls region_ auth_token launch_config w,
        is_Some (lc_server launch_config) ->
        (endpoints service_catalog (Some "cloudLoadBalancers") None (Some region_)
           = ([], None) \/
         exists lb lbs,
           endpoints service_catalog (Some "cloudLoadBalancers") None (Some region_)
             = (lb :: lbs, None) /\
           is_Some (publicURL lb) /\
           endpoints service_catalog (Some "cloudServersOpenStack") None (Some region_)
             = ([], None)) ->
        launch_server rt polls region_ service_catalog auth_token launch_config w
        = (Failed IndexError, w)).
Proof.
  intros service_catalog name_wanted type_wanted region_wanted.
  split; [apply endpoints_consulted|].
  split; [intros before service after key yielded -> Hc Hm; now apply endpoints_misses|].
  split; [apply consulted_or_misses|].
  split; [apply matching_endpoints_In|].
  split; [apply matching_endpoints_sublist|].
  intros rt polls region_ auth_token launch_config w Hs [He|(lb & lbs & Hlb & Hu & He)].
  - now apply launch_server_no_load_balancer_endpoint.
  - now apply (launch_server_no_server_endpoint _ _ _ _ _ _ _ lb lbs).
Qed.

(** The theorem of C9 at a catalog of three services: asked for the
    servers of [ORD], the resolver yields the three endpoints in the order
    of the catalog; and with the catalog of the [__main__] block, which has
    no endpoint in [DFW], [launch_server] raises [IndexError]. *)
Lemma endpoints_match_in_order_and_empty_raises_IndexError_witness :
  endpoints two_region_catalog (Some "cloudServersOpenStack") None (Some "ORD")
    = ([mkEndpoint (Some "ORD") (Some "https://ord.servers/v2");
        mkEndpoint (Some "ORD") (Some "https://ord2.servers/v2");
        mkEndpoint (Some "ORD") (Some "https://ord3.servers/v2")], None) /\
  launch_server silent_runtime 0 "DFW" main_catalog "token" main_launch_config initial_world
    = (Failed IndexError, initial_world).
Proof.
  assert (Hc : consulted two_region_catalog (Some "cloudServersOpenStack") None (Some "ORD")).
  { apply readable_consulted. unfold readable, two_region_catalog, has_key.
    repeat (constructor;
            [ cbn; split; [ intros; discriminate
                          | split; [ intros; eexists; reflexivity
                                   | eexists; split;
                                     [ reflexivity
                                     | repeat constructor; intros; eexists; reflexivity ] ] ]
            | ]).
    constructor. }
  split.
  - destruct (endpoints_match_in_order_and_empty_raises_IndexError
                two_region_catalog (Some "cloudServersOpenStack") None (Some "ORD"))
      as (Heq & _).
    rewrite (Heq Hc). reflexivity.
  - destruct (endpoints_match_in_order_and_empty_raises_IndexError
                main_catalog None None None) as (_ & _ & _ & _ & _ & Hcall).
    apply Hcall; [cbn; eauto|]. left. reflexivity.
Defined.

Lemma status_is_pure {S} (server : json) (expected_status : string) (s : S) :
  status_is server expected_status s = (status_check server expected_status, s).
Proof.
  unfold status_check, status_is, mbind, task_bind, getitem, mret, task_ret, raise.
  destruct server as [| | | |?|items]; try reflexivity.
  destruct (lookup_key "server" items) as [[| | | |?|items']|]; try reflexivity.
  destruct (lookup_key "status" items'); reflexivity.
Qed.

Lemma eq_str_true (v : json) (s : string) : eq_str v s = true <-> v = JStr s.
Proof.
  destruct v; cbn [eq_str]; try (split; [discriminate | intros H; discriminate H]).
  rewrite String.eqb_eq. split; [now intros -> | intros H; now injection H].
Qed.

(** The status check of a poll, case by case. *)
Lemma status_check_cases (server : json) (expected_status : string) :
  (status_check server expected_status = Succeeded true /\
   shows_status server expected_status) \/
  (status_check server expected_status = Succeeded false /\
   shows_another_status server expected_status) \/
  (exists e, status_check server expected_status = Failed e /\ lacks_status server e).
Proof.
  unfold status_check, status_is, shows_status, shows_another_status, lacks_status,
    status_of, at_key, unreadable, mbind, task_bind, getitem, mret, task_ret, raise.
  destruct server as [| | | |?|items];
    try (right; right; exists TypeError; split; [reflexivity | now left]).
  destruct (lookup_key "server" items) as [s|] eqn:Es;
    [|right; right; exists (KeyError "server"); split; [reflexivity | left; auto]].
  destruct s as [| | | |?|fields];
    try (right; right; exists TypeError; split; [reflexivity|]; right; eexists;
         split; reflexivity).
  destruct (lookup_key "status" fields) as [v|] eqn:Ev.
  - cbn [fst]. destruct (eq_str v expected_status) eqn:Eq.
    + left. apply eq_str_true in Eq. subst v. split; reflexivity.
    + right. left. split; [reflexivity|]. exists v. split; [reflexivity|].
      intros ->. rewrite (proj2 (eq_str_true _ _) eq_refl) in Eq. discriminate.
  - right. right. exists (KeyError "status"). split; [reflexivity|].
    right. eexists. split; [reflexivity|]. cbn. auto.
Qed.

Lemma shows_status_check (server : json) (expected_status : string) :
  shows_status server expected_status ->
  status_check server expected_status = Succeeded true.
Proof.
  intros H. destruct (status_check_cases server expected_status)
    as [[E _]|[[_ (v & Hv & Hne)]|(e & _ & Hl)]]; [exact E| |].
  - unfold shows_status in H. congruence.
  - exfalso. unfold shows_status, status_of, lacks_status, unreadable, at_key in *.
    destruct Hl as [Hl|(s & Hs & Hl)].
    + destruct server; try discriminate. destruct Hl as [Hl _]. now rewrite Hl in H.
    + destruct server; try discriminate. rewrite Hs in H.
      destruct s; try discriminate. destruct Hl as [Hl _]. congruence.
Qed.

Lemma shows_another_status_check (server : json) (expected_status : string) :
  shows_another_status server expected_status ->
  status_check server expected_status = Succeeded false.
Proof.
  intros (v & Hv & Hne). destruct (status_check_cases server expected_status)
    as [[_ H]|[[E _]|(e & _ & Hl)]]; [|exact E|].
  - unfold shows_status in H. congruence.
  - exfalso. unfold status_of, lacks_status, unreadable, at_key in *.
    destruct Hl as [Hl|(s & Hs & Hl)].
    + destruct server; try discriminate. destruct Hl as [Hl _]. now rewrite Hl in Hv.
    + destruct server; try discriminate. rewrite Hs in Hv.
      destruct s; try discriminate. destruct Hl as [Hl _]. congruence.
Qed.

Lemma lacks_status_check (server : json) (expected_status : string) (e : exn) :
  lacks_status server e ->
  status_check server expected_status = Failed e.
Proof.
  intros Hl. unfold status_check, status_is, lacks_status, unreadable, at_key,
    mbind, task_bind, getitem, mret, task_ret, raise in *.
  destruct Hl as [Hl|(s & Hs & Hl)].
  - destruct server; try (now subst e). destruct Hl as [-> ->]. reflexivity.
  - destruct server; try discriminate. rewrite Hs.
    destruct s; try (now subst e). destruct Hl as [-> ->]. reflexivity.
Qed.

Lemma server_details_run (rt : Runtime) (server_endpoint auth_token server_id : string)
    (w : World) :
  let r := details_request server_endpoint auth_token server_id in
  server_details rt server_endpoint auth_token server_id w =
  (json_outcome rt [200; 203] (treq_send rt (w_sent w) r), after_request r w).
Proof.
  intros r. unfold server_details.
  unfold mbind at 1. unfold task_bind. rewrite append_segments_run.
  unfold treq_get. rewrite json_request_run. reflexivity.
Qed.

(** One call of [poll]. *)
Lemma poll_run (rt : Runtime)
    (server_endpoint auth_token server_id expected_status : string) (w : World) :
  let r := details_request server_endpoint auth_token server_id in
  poll rt server_endpoint auth_token server_id expected_status w =
  match json_outcome rt [200; 203] (treq_send rt (w_sent w) r) with
  | Succeeded server =>
      match status_check server expected_status with
      | Succeeded true => (Succeeded (Some server), after_request r w)
      | Succeeded false => (Succeeded None, after_request r w)
      | Failed e => (Failed e, after_request r w)
      | Waiting => (Waiting, after_request r w)
      end
  | Failed e => (Failed e, after_request r w)
  | Waiting => (Waiting, after_request r w)
  end.
Proof.
  intros r. unfold poll.
  unfold mbind at 1. unfold task_bind. rewrite server_details_run. fold r.
  destruct (json_outcome rt [200; 203] (treq_send rt (w_sent w) r)) as [server|e|];
    try reflexivity.
  unfold mbind at 1. unfold task_bind. rewrite status_is_pure.
  destruct (status_check server expected_status) as [[|]|e|]; reflexivity.
Qed.

(** One round of the loop of [wait_for_status]. *)
Lemma wait_for_status_round (rt : Runtime) (n : nat)
    (server_endpoint auth_token server_id expected_status : string) (interval : Z)
    (w : World) :
  0 <= interval ->
  let r := details_request server_endpoint auth_token server_id in
  wait_for_status rt (S n) server_endpoint auth_token server_id expected_status interval w =
  match json_outcome rt [200; 203] (treq_send rt (w_sent w) r) with
  | Succeeded server =>
      match status_check server expected_status with
      | Succeeded true => (Succeeded server, after_request r w)
      | Succeeded false =>
          wait_for_status rt n server_endpoint auth_token server_id expected_status
            interval (after_interval interval (after_request r w))
      | Failed e => (Failed e, after_request r w)
      | Waiting => (Waiting, after_request r w)
      end
  | Failed e => (Failed e, after_request r w)
  | Waiting => (Waiting, after_request r w)
  end.
Proof.
  intros Hi r. unfold wait_for_status, LoopingCall_start.
  destruct (Z.ltb_spec interval 0) as [Hneg|_]; [lia|].
  cbn [looping_call]. unfold mbind at 1. unfold task_bind. rewrite poll_run. fold r.
  destruct (json_outcome rt [200; 203] (treq_send rt (w_sent w) r)) as [server|e|];
    try reflexivity.
  destruct (status_check server expected_status) as [[|]|e|]; reflexivity.
Qed.

Lemma wait_for_status_idle (rt : Runtime)
    (server_endpoint auth_token server_id expected_status : string) (interval : Z)
    (w : World) :
  0 <= interval ->
  wait_for_status rt 0 server_endpoint auth_token server_id expected_status interval w
  = (Waiting, w).
Proof.
  intros Hi. unfold wait_for_status, LoopingCall_start.
  destruct (Z.ltb_spec interval 0) as [Hneg|_]; [lia | reflexivity].
Qed.

Lemma wait_for_status_negative (rt : Runtime) (polls : nat)
    (server_endpoint auth_token server_id expected_status : string) (interval : Z)
    (w : World) :
  interval < 0 ->
  wait_for_status rt polls server_endpoint auth_token server_id expected_status interval w
  = (Failed ValueError, w).
Proof.
  intros Hi. unfold wait_for_status, LoopingCall_start.
  destruct (Z.ltb_spec interval 0) as [_|Hpos]; [reflexivity | lia].
Qed.

(** What a poll comes to, in the words of the properties. *)
Lemma poll_cases (rt : Runtime) (past : list (Z * Request)) (r : Request)
    (expected_status : string) :
  (exists server,
      answered rt past r [200; 203] server /\ shows_status server expected_status) \/
  (exists server,
      answered rt past r [200; 203] server /\
      shows_another_status server expected_status) \/
  (exists e, poll_fails rt past r e) \/
  treq_send rt past r = Waiting.
Proof.
  destruct (json_outcome rt [200; 203] (treq_send rt past r)) as [server|e|] eqn:J.
  - apply json_outcome_answered in J.
    destruct (status_check_cases server expected_status)
      as [[_ H]|[[_ H]|(e & _ & H)]].
    + left. eauto.
    + right. left. eauto.
    + right. right. left. exists e. right. eauto.
  - apply json_outcome_refused in J. right. right. left. exists e. now left.
  - apply json_outcome_waiting in J. auto.
Qed.

Lemma poll_fails_outcome (rt : Runtime) (past : list (Z * Request)) (r : Request)
    (expected_status : string) (e : exn) :
  poll_fails rt past r e ->
  match json_outcome rt [200; 203] (treq_send rt past r) with
  | Succeeded server => status_check server expected_status = Failed e
  | Failed e' => e' = e
  | Waiting => False
  end.
Proof.
  intros [H|(server & Ha & Hl)].
  - apply json_outcome_refused in H. now rewrite H.
  - apply json_outcome_answered in Ha. rewrite Ha. now apply lacks_status_check.
Qed.

(** The run of [wait_for_status] as a whole: the polls that were sent and
    the poll that ended it. *)
Lemma wait_for_status_trace (rt : Runtime)
    (server_endpoint auth_token server_id expected_status : string) (interval : Z) :
  0 <= interval ->
  forall polls w,
    let r := details_request server_endpoint auth_token server_id in
    let run := wait_for_status rt polls server_endpoint auth_token server_id
                 expected_status interval w in
    exists n,
      (n <= polls)%nat /\
      map snd (w_sent (snd run)) = map snd (w_sent w) ++ repeat r n /\
      (forall server,
          fst run = Succeeded server ->
          exists past t,
            w_sent (snd run) = past ++ [(t, r)] /\
            map snd past = map snd (w_sent w) ++ repeat r (n - 1) /\
            (1 <= n)%nat /\
            answered rt past r [200; 203] server /\
            shows_status server expected_status) /\
      (forall e,
          fst run = Failed e ->
          exists past t,
            w_sent (snd run) = past ++ [(t, r)] /\
            map snd past = map snd (w_sent w) ++ repeat r (n - 1) /\
            (1 <= n)%nat /\
            poll_fails rt past r e).
Proof.
  intros Hi. induction polls as [|polls IH]; intros w r run.
  - exists 0%nat. subst run. rewrite wait_for_status_idle by exact Hi.
    cbn [fst snd repeat]. rewrite app_nil_r.
    split; [lia|]. split; [reflexivity|]. split; discriminate.
  - assert (Hone : map snd (w_sent (after_request r w)) = map snd (w_sent w) ++ repeat r 1).
    { cbn [after_request w_sent repeat]. now rewrite map_app. }
    assert (Hlast : exists past t,
              w_sent (after_request r w) = past ++ [(t, r)] /\
              map snd past = map snd (w_sent w) ++ repeat r (1 - 1) /\ (1 <= 1)%nat).
    { exists (w_sent w), (w_time w). cbn [after_request w_sent repeat Nat.sub].
      rewrite app_nil_r. auto. }
    subst run. rewrite wait_for_status_round by exact Hi. fold r.
    destruct (json_outcome rt [200; 203] (treq_send rt (w_sent w) r)) as [server|e|] eqn:J.
    + apply json_outcome_answered in J.
      destruct (status_check_cases server expected_status)
        as [[-> Hs]|[[-> Hs]|(e & -> & Hs)]].
      * exists 1%nat. split; [lia|]. split; [exact Hone|]. cbn [fst snd].
        split; [|discriminate].
        intros s H. injection H as <-.
        destruct Hlast as (past & t & Hp & Hm & Hn). exists past, t.
        split; [exact Hp|]. split; [exact Hm|]. split; [exact Hn|].
        assert (past = w_sent w) as ->.
        { cbn [after_request w_sent] in Hp. now apply app_inj_tail in Hp as [-> _]. }
        auto.
      * destruct (IH (after_interval interval (after_request r w)))
          as (n & Hn & Hsent & Hok & Hfail).
        fold r in Hsent, Hok, Hfail.
        assert (Hpre : forall k,
                  map snd (w_sent (after_interval interval (after_request r w)))
                    ++ repeat r k
                  = map snd (w_sent w) ++ repeat r (S k)).
        { intros k. cbn [after_interval after_request w_sent].
          rewrite map_app, <- app_assoc. reflexivity. }
        exists (S n). split; [lia|]. split; [now rewrite Hsent, Hpre|].
        split.
        -- intros s H. destruct (Hok s H) as (past & t & Hp & Hm & Hn1 & Ha & Hsh).
           exists past, t. split; [exact Hp|]. split.
           ++ rewrite Hm, Hpre. do 2 f_equal. lia.
           ++ split; [lia | auto].
        -- intros e H. destruct (Hfail e H) as (past & t & Hp & Hm & Hn1 & Hf).
           exists past, t. split; [exact Hp|]. split.
           ++ rewrite Hm, Hpre. do 2 f_equal. lia.
           ++ split; [lia | auto].
      * exists 1%nat. split; [lia|]. split; [exact Hone|]. cbn [fst snd].
        split; [discriminate|].
        intros e' H. injection H as <-.
        destruct Hlast as (past & t & Hp & Hm & Hn). exists past, t.
        split; [exact Hp|]. split; [exact Hm|]. split; [exact Hn|].
        assert (past = w_sent w) as ->.
        { cbn [after_request w_sent] in Hp. now apply app_inj_tail in Hp as [-> _]. }
        right. eauto.
    + apply json_outcome_refused in J.
      exists 1%nat. split; [lia|]. split; [exact Hone|]. cbn [fst snd].
      split; [discriminate|].
      intros e' H. injection H as <-.
      destruct Hlast as (past & t & Hp & Hm & Hn). exists past, t.
      split; [exact Hp|]. split; [exact Hm|]. split; [exact Hn|].
      assert (past = w_sent w) as ->.
      { cbn [after_request w_sent] in Hp. now apply app_inj_tail in Hp as [-> _]. }
      now left.
    + exists 1%nat. split; [lia|]. split; [exact Hone|]. cbn [fst snd].
      split; discriminate.
Qed.

(** C6, where the specification and the code part.  A server that shows
    [ERROR] to the first poll and [ACTIVE] to the second makes
    [wait_for_status] succeed with the second document; and for a server
    that stays in [ERROR] the loop is still polling after 200 polls, having
    sent nothing but the 200 [GET]s. *)
Lemma wait_for_status_ERROR_not_fatal_and_no_timeout :
  (let run := wait_for_status (scripted_runtime ["ERROR"; "ACTIVE"]) 2
                "http://nova/v2" "token" "s1" "ACTIVE" 5 initial_world in
   fst run = Succeeded (server_document "ACTIVE") /\
   length (w_sent (snd run)) = 2%nat) /\
  (let run := wait_for_status (scripted_runtime ["ERROR"]) 200
                "http://nova/v2" "token" "s1" "ACTIVE" 5 initial_world in
   fst run = Waiting /\
   length (w_sent (snd run)) = 200%nat /\
   forallb (fun sent => String.eqb (method (snd sent)) "GET") (w_sent (snd run)) = true).
Proof. vm_compute. repeat split; reflexivity. Qed.

(** C6, as the code has it.  With an interval that is not negative,
    [wait_for_status] asks for the details of the server again and again.
    A poll that is answered with a document of the expected status ends
    the wait with that document; after a poll that is answered with a
    document of any other status, [ERROR] included, the next poll follows;
    a poll that fails, because the request comes to nothing or because the
    document has no status, ends the wait with its failure, and the wait
    fails in no other way.  Every poll is of one of these kinds or is not
    answered.  There is no bound: against a server that never shows the
    expected status the loop is still waiting after every number of polls,
    with one request per poll and nothing else sent.  A negative interval
    is refused with [ValueError] before the first poll. *)
Theorem wait_for_status_polls_until_expected_status :
  forall (rt : Runtime) (server_endpoint auth_token server_id expected_status : string)
         (interval : Z),
    let r := mkRequest "GET"
               (String.concat "/" [rstrip "/" server_endpoint; "servers"; quote server_id])
               [("content-type", ["application/json"]);
                ("accept", ["application/json"]);
                ("x-auth-token", [auth_token])]
               None in
    let wait polls w :=
      wait_for_status rt polls server_endpoint auth_token server_id expected_status
        interval w in
    (0 <= interval ->
     (forall n w server,
         answered rt (w_sent w) r [200; 203] server ->
         shows_status server expected_status ->
         wait (S n) w = (Succeeded server, after_request r w)) /\
     (forall n w server,
         answered rt (w_sent w) r [200; 203] server ->
         shows_another_status server expected_status ->
         exists w',
           wait (S n) w = wait n w' /\
           w_sent w' = w_sent w ++ [(w_time w, r)] /\
           w_stdout w' = w_stdout w ++ [url r]) /\
     (forall n w e,
         poll_fails rt (w_sent w) r e ->
         wait (S n) w = (Failed e, after_request r w)) /\
     (forall n w,
         treq_send rt (w_sent w) r = Waiting ->
         wait (S n) w = (Waiting, after_request r w)) /\
     (forall past,
         (exists server,
             answered rt past r [200; 203] server /\
             shows_status server expected_status) \/
         (exists server,
             answered rt past r [200; 203] server /\
             shows_another_status server expected_status) \/
         (exists e, poll_fails rt past r e) \/
         treq_send rt past r = Waiting) /\
     (forall polls w server,
         fst (wait polls w) = Succeeded server ->
         shows_status server expected_status /\
         exists past, answered rt past r [200; 203] server) /\
     (forall polls w e,
         fst (wait polls w) = Failed e ->
         exists past, poll_fails rt past r e) /\
     ((forall past, exists server,
          answered rt past r [200; 203] server /\
          shows_another_status server expected_status) ->
      forall polls w,
        fst (wait polls w) = Waiting /\
        map snd (w_sent (snd (wait polls w))) = map snd (w_sent w) ++ repeat r polls)) /\
    (interval < 0 -> forall polls w, wait polls w = (Failed ValueError, w)).
Proof.
  intros rt server_endpoint auth_token server_id expected_status interval r wait.
  assert (Hr : r = details_request server_endpoint auth_token server_id) by reflexivity.
  clearbody r. subst r wait. split.
  - intros Hi.
    split; [|split; [|split; [|split; [|split; [|split; [|split]]]]]].
    + intros n w server Ha Hs. rewrite wait_for_status_round by exact Hi. cbn zeta.
      apply json_outcome_answered in Ha. rewrite Ha.
      now rewrite (shows_status_check _ _ Hs).
    + intros n w server Ha Hs. rewrite wait_for_status_round by exact Hi. cbn zeta.
      apply json_outcome_answered in Ha. rewrite Ha.
      rewrite (shows_another_status_check _ _ Hs).
      eexists. split; [reflexivity|]. split; reflexivity.
    + intros n w e Hf. rewrite wait_for_status_round by exact Hi. cbn zeta.
      pose proof (poll_fails_outcome _ _ _ expected_status _ Hf) as H.
      destruct (json_outcome rt [200; 203] _) as [server|e'|];
        [now rewrite H | now subst e' | destruct H].
    + intros n w Hw. rewrite wait_for_status_round by exact Hi. cbn zeta.
      apply (json_outcome_waiting rt [200; 203]) in Hw. now rewrite Hw.
    + intros past. apply poll_cases.
    + intros polls w server H.
      destruct (wait_for_status_trace rt server_endpoint auth_token server_id
                  expected_status interval Hi polls w) as (n & _ & _ & Hok & _).
      destruct (Hok server H) as (past & t & _ & _ & _ & Ha & Hs). eauto.
    + intros polls w e H.
      destruct (wait_for_status_trace rt server_endpoint auth_token server_id
                  expected_status interval Hi polls w) as (n & _ & _ & _ & Hfail).
      destruct (Hfail e H) as (past & t & _ & _ & _ & Hf). eauto.
    + intros Hnever. induction polls as [|polls IH]; intros w.
      * rewrite wait_for_status_idle by exact Hi. cbn [fst snd repeat].
        now rewrite app_nil_r.
      * destruct (Hnever (w_sent w)) as (server & Ha & Hs).
        rewrite wait_for_status_round by exact Hi. cbn zeta.
        apply json_outcome_answered in Ha. rewrite Ha.
        rewrite (shows_another_status_check _ _ Hs).
        destruct (IH (after_interval interval
                        (after_request (details_request server_endpoint auth_token
                                          server_id) w))) as [H1 H2].
        split; [exact H1|]. rewrite H2.
        cbn [after_interval after_request w_sent repeat].
        rewrite map_app, <- app_assoc. reflexivity.
  - intros Hi polls w. now apply wait_for_status_negative.
Qed.

(** The theorem of C6 at a server that is in [BUILD] at the first poll and
    [ACTIVE] at the second. *)
Lemma wait_for_status_polls_until_expected_status_witness :
  fst (wait_for_status (scripted_runtime ["BUILD"; "ACTIVE"]) 2
         "http://nova/v2" "token" "s1" "ACTIVE" 5 initial_world)
    = Succeeded (server_document "ACTIVE") /\
  wait_for_status (scripted_runtime ["BUILD"; "ACTIVE"]) 2
    "http://nova/v2" "token" "s1" "ACTIVE" (-5) initial_world
    = (Failed ValueError, initial_world).
Proof.
  destruct (wait_for_status_polls_until_expected_status
              (scripted_runtime ["BUILD"; "ACTIVE"]) "http://nova/v2" "token" "s1" "ACTIVE" 5)
    as [Hpos _].
  destruct (Hpos ltac:(lia)) as (Hstop & Hnext & _).
  destruct (wait_for_status_polls_until_expected_status
              (scripted_runtime ["BUILD"; "ACTIVE"]) "http://nova/v2" "token" "s1" "ACTIVE"
              (-5)) as [_ Hneg].
  split; [|apply Hneg; lia].
  destruct (Hnext 1%nat initial_world (server_document "BUILD")) as (w' & -> & Hsent & _).
  - eexists. split; [reflexivity|]. split; [now left | reflexivity].
  - exists (JStr "BUILD"). split; [reflexivity | discriminate].
  - rewrite (Hstop 0%nat w' (server_document "ACTIVE")); [reflexivity| |reflexivity].
    rewrite Hsent. eexists. split; [reflexivity|]. split; [now left | reflexivity].
Defined.

End WorkerFacts.
(** ** Effects on responses *)

Module PureHttpFacts.
Import PureHttp.

Lemma code_in_iff (codes : list Z) (response : PureResponse) :
  code_in codes response = true <-> In (code response) codes.
Proof.
  unfold code_in. rewrite existsb_exists. split.
  - intros (x & Hx & E). apply Z.eqb_eq in E. now subst.
  - intros H. exists (code response). split; [exact H | apply Z.eqb_refl].
Qed.

Lemma resolve_on_success {Intent Result W A B}
    (perform : Intent -> W -> Result * W) (eff : Effect Intent Result A)
    (f : A -> Effect Intent Result B) :
  forall w,
    resolve perform (on_success eff f) w =
    let '(a, w1, first) := resolve perform eff w in
    let '(b, w2, second) := resolve perform (f a) w1 in
    (b, w2, first ++ second).
Proof.
  induction eff as [a|i k IH]; intros w.
  - cbn [on_success resolve]. destruct (resolve perform (f a) w) as [[b w2] second].
    reflexivity.
  - cbn [on_success resolve]. destruct (perform i w) as [r w1].
    rewrite IH. destruct (resolve perform (k r) w1) as [[a w2] first].
    destruct (resolve perform (f a) w2) as [[b w3] second]. reflexivity.
Qed.

(** C8. When the code of the response is among [codes],
    [effect_on_response] is the given effect followed by the response:
    resolving it performs what the effect alone performs, once, leaves the
    world as the effect leaves it, and results in the response as it was.
    When the code is not among them the response comes back directly and
    nothing is performed.  The middleware [add_effect_on_response] does the
    same to the response of the request function it wraps. *)
Theorem effect_on_response_runs_effect_once_or_not_at_all :
  forall (Intent Result W A : Type) (perform : Intent -> W -> Result * W)
         (codes : list Z) (effect : Effect Intent Result A) (response : PureResponse)
         (w : W),
    (In (code response) codes ->
       effect_on_response codes effect response
         = on_success effect (fun _ => Done response) /\
       resolve perform (effect_on_response codes effect response) w
         = (response, snd (fst (resolve perform effect w)),
            snd (resolve perform effect w))) /\
    (~ In (code response) codes ->
       effect_on_response codes effect response = Done response /\
       resolve perform (effect_on_response codes effect response) w = (response, w, [])) /\
    (forall (Req : Type) (request_fn : Req -> Effect Intent Result PureResponse) (req : Req),
       resolve perform (add_effect_on_response effect codes request_fn req) w =
       let '(answer, w1, requested) := resolve perform (request_fn req) w in
       if code_in codes answer
       then (answer, snd (fst (resolve perform effect w1)),
             requested ++ snd (resolve perform effect w1))
       else (answer, w1, requested)).
Proof.
  intros Intent Result W A perform codes effect response w.
  assert (Hin : forall r w',
             code_in codes r = true ->
             resolve perform (effect_on_response codes effect r) w'
             = (r, snd (fst (resolve perform effect w')), snd (resolve perform effect w'))).
  { intros r w' Hc. unfold effect_on_response. rewrite Hc, resolve_on_success.
    destruct (resolve perform effect w') as [[a w1] performed]. cbn.
    now rewrite app_nil_r. }
  split; [|split].
  - intros H. apply code_in_iff in H. split; [|now apply Hin].
    unfold effect_on_response. now rewrite H.
  - intros H. assert (Hc : code_in codes response = false).
    { destruct (code_in codes response) eqn:E; [|reflexivity].
      apply code_in_iff in E. contradiction. }
    unfold effect_on_response. rewrite Hc. split; reflexivity.
  - intros Req request_fn req. unfold add_effect_on_response.
    rewrite resolve_on_success.
    destruct (resolve perform (request_fn req) w) as [[answer w1] requested].
    destruct (code_in codes answer) eqn:Hc.
    + rewrite (Hin _ _ Hc). reflexivity.
    + unfold effect_on_response. rewrite Hc. cbn. now rewrite app_nil_r.
Qed.

(** The theorem of C8 at the fixture of the tests: a 401 response and the
    invalidation effect. *)
Lemma effect_on_response_runs_effect_once_or_not_at_all_witness :
  In 401 [401] /\
  resolve perform_stub (effect_on_response [401] invalidate_effect badauth) []
    = (badauth, [true], [Invalidate]).
Proof.
  split; [now left|].
  apply (effect_on_response_runs_effect_once_or_not_at_all
           StubIntent unit (list bool) unit perform_stub [401] invalidate_effect badauth []).
  now left.
Defined.

End PureHttpFacts.

(** ** The cron iterator *)

Module CroniterFacts.
Import Py Croniter SchedulerSpec.

Lemma first_from_some (horizon : nat) (c : Cron) :
  forall m found,
    first_from horizon c m = Some found ->
    m <= found < m + Z.of_nat horizon /\
    occurs_at c found = true /\
    forall k, m <= k < found -> occurs_at c k = false.
Proof.
  induction horizon as [|h IH]; intros m found; cbn [first_from]; [discriminate|].
  destruct (occurs_at c m) eqn:E.
  - intros H. injection H as <-. repeat split; try lia. exact E.
  - intros H. apply IH in H as (Hb & Ho & Hmin). repeat split; try lia; [exact Ho|].
    intros k Hk. destruct (Z.eq_dec k m) as [->|Hne]; [exact E|]. apply Hmin. lia.
Qed.

Lemma first_from_none (horizon : nat) (c : Cron) :
  forall m,
    first_from horizon c m = None ->
    forall k, m <= k < m + Z.of_nat horizon -> occurs_at c k = false.
Proof.
  induction horizon as [|h IH]; intros m; cbn [first_from]; [intros _ k Hk; lia|].
  destruct (occurs_at c m) eqn:E; [discriminate|].
  intros H k Hk. destruct (Z.eq_dec k m) as [->|Hne]; [exact E|].
  apply (IH _ H). lia.
Qed.

(** *** The calendar *)

Lemma leap_year_cases (y : Z) :
  (leap_year y = true /\ y mod 4 = 0 /\ (y mod 100 <> 0 \/ y mod 400 = 0)) \/
  (leap_year y = false /\ (y mod 4 <> 0 \/ (y mod 100 = 0 /\ y mod 400 <> 0))).
Proof.
  unfold leap_year.
  destruct (Z.eqb_spec (y mod 4) 0), (Z.eqb_spec (y mod 100) 0), (Z.eqb_spec (y mod 400) 0);
    cbn; intuition lia.
Qed.

Lemma month_cases (m : Z) :
  1 <= m <= 12 ->
  m = 1 \/ m = 2 \/ m = 3 \/ m = 4 \/ m = 5 \/ m = 6 \/ m = 7 \/ m = 8 \/ m = 9 \/ m = 10
  \/ m = 11 \/ m = 12.
Proof. lia. Qed.

Ltac each_month H :=
  destruct (month_cases _ H) as [->|[->|[->|[->|[->|[->|[->|[->|[->|[->|[->| ->]]]]]]]]]]].

(** Closed table look-ups and tests are evaluated. *)
Ltac table_simpl :=
  repeat match goal with
  | |- context [nth ?k ?l 0] =>
      let v := eval vm_compute in (nth k l 0) in change (nth k l 0) with v
  | H : context [nth ?k ?l 0] |- _ =>
      let v := eval vm_compute in (nth k l 0) in change (nth k l 0) with v in H
  | |- context [if ?c then ?a else ?b] =>
      let v := eval vm_compute in (if c then a else b) in
      change (if c then a else b) with v
  | H : context [if ?c then ?a else ?b] |- _ =>
      let v := eval vm_compute in (if c then a else b) in
      change (if c then a else b) with v in H
  end.

Lemma days_before_month_table (y m : Z) :
  1 <= m <= 12 ->
  days_before_month y m =
  nth (Z.to_nat (m - 1)) [0; 31; 59; 90; 120; 151; 181; 212; 243; 273; 304; 334] 0
  + (if (Z.leb 3 m && leap_year y)%bool then 1 else 0).
Proof.
  intros H. unfold days_before_month, month_length.
  each_month H; destruct (leap_year y); reflexivity.
Qed.

Lemma month_length_table (y m : Z) :
  1 <= m <= 12 ->
  month_length y m =
  nth (Z.to_nat (m - 1)) [31; 28; 31; 30; 31; 30; 31; 31; 30; 31; 30; 31] 0
  + (if (Z.eqb m 2 && leap_year y)%bool then 1 else 0).
Proof.
  intros H. unfold month_length.
  each_month H; destruct (leap_year y); reflexivity.
Qed.

(** The day number that [civil_from_days] is given is the number of the
    date that it returns. *)
Lemma civil_from_days_date (n : Z) :
  let '(y, m, d) := civil_from_days n in
  is_date y m d /\ day_number y m d = n.
Proof.
  unfold civil_from_days.
  set (z := n + 719468). set (era := z / 146097). set (doe := z - era * 146097).
  set (yoe := (doe - doe / 1460 + doe / 36524 - doe / 146096) / 365).
  set (doy := doe - (365 * yoe + yoe / 4 - yoe / 100)).
  set (mp := (5 * doy + 2) / 153).
  assert (Hdoe : 0 <= doe < 146097).
  { subst doe era. Z.to_euclidean_division_equations. lia. }
  assert (Hyoe : 0 <= yoe <= 399 /\ 0 <= doy /\
                 doe < 365 * (yoe + 1) + (yoe + 1) / 4 - (yoe + 1) / 100 + (yoe + 1) / 400).
  { subst doy yoe. clearbody doe. clear - Hdoe. Z.to_euclidean_division_equations. lia. }
  destruct Hyoe as (Hyoe & Hdoy0 & Hnext).
  assert (Hmp : 0 <= mp <= 11).
  { subst mp. assert (doy <= 365).
    { subst doy. clearbody doe yoe. clear - Hnext Hyoe.
      Z.to_euclidean_division_equations. lia. }
    clearbody doy. Z.to_euclidean_division_equations. lia. }
  assert (Hz : n = 146097 * era + doe - 719468) by (subst doe z; lia).
  assert (Hd : doe = 365 * yoe + yoe / 4 - yoe / 100 + doy) by (subst doy; lia).
  assert (Hm : 153 * mp <= 5 * doy + 2 < 153 * (mp + 1)).
  { subst mp. clearbody doy. Z.to_euclidean_division_equations. lia. }
  clearbody mp doy yoe doe era. clear z.
  set (m := if Z.ltb mp 10 then mp + 3 else mp - 9).
  set (y := if Z.leb m 2 then yoe + era * 400 + 1 else yoe + era * 400).
  assert (Hmy : (3 <= m <= 12 /\ mp = m - 3 /\ y = yoe + era * 400) \/
                (1 <= m <= 2 /\ mp = m + 9 /\ y = yoe + era * 400 + 1)).
  { subst y m. destruct (Z.ltb_spec mp 10).
    - destruct (Z.leb_spec (mp + 3) 2); lia.
    - destruct (Z.leb_spec (mp - 9) 2); lia. }
  assert (Hmr : 1 <= m <= 12) by lia.
  clearbody m y.
  unfold is_date, day_number.
  rewrite (days_before_month_table y m Hmr), (month_length_table y m Hmr).
  unfold days_before_year.
  destruct (leap_year_cases y) as [(-> & L)|(-> & L)];
    each_month Hmr; table_simpl; Z.to_euclidean_division_equations; lia.
Qed.

Lemma year_length (y : Z) :
  days_before_year (y + 1) = days_before_year y + (if leap_year y then 366 else 365).
Proof.
  unfold days_before_year.
  destruct (leap_year_cases y) as [(-> & L)|(-> & L)];
    Z.to_euclidean_division_equations; lia.
Qed.

Lemma days_before_year_mono (y y' : Z) :
  y < y' -> days_before_year (y + 1) <= days_before_year y'.
Proof.
  intros H. unfold days_before_year. Z.to_euclidean_division_equations. lia.
Qed.

Lemma day_number_in_year (y m d : Z) :
  is_date y m d ->
  days_before_year y <= day_number y m d < days_before_year (y + 1).
Proof.
  intros [Hm Hd]. rewrite year_length. unfold day_number.
  rewrite (days_before_month_table y m Hm).
  rewrite (month_length_table y m Hm) in Hd.
  destruct (leap_year y); each_month Hm; table_simpl; lia.
Qed.

(** Different dates have different day numbers. *)
Lemma day_number_inj (y m d y' m' d' : Z) :
  is_date y m d -> is_date y' m' d' ->
  day_number y m d = day_number y' m' d' ->
  y = y' /\ m = m' /\ d = d'.
Proof.
  intros H H' E.
  pose proof (day_number_in_year _ _ _ H) as B.
  pose proof (day_number_in_year _ _ _ H') as B'.
  assert (Hy : y = y').
  { destruct (Z.lt_trichotomy y y') as [L|[L|L]]; [|exact L|].
    - pose proof (days_before_year_mono _ _ L). lia.
    - pose proof (days_before_year_mono _ _ L). lia. }
  subst y'. split; [reflexivity|].
  destruct H as [Hm Hd], H' as [Hm' Hd'].
  unfold day_number in E.
  rewrite (days_before_month_table y m Hm), (days_before_month_table y m' Hm') in E.
  rewrite (month_length_table y m Hm) in Hd.
  rewrite (month_length_table y m' Hm') in Hd'.
  clear B B'.
  destruct (leap_year y); each_month Hm; each_month Hm'; table_simpl; lia.
Qed.

Lemma civil_from_days_day_number (y m d : Z) :
  is_date y m d -> civil_from_days (day_number y m d) = (y, m, d).
Proof.
  intros H. pose proof (civil_from_days_date (day_number y m d)) as C.
  destruct (civil_from_days (day_number y m d)) as [[y' m'] d'].
  destruct C as [C E].
  destruct (day_number_inj _ _ _ _ _ _ C H E) as (-> & -> & ->). reflexivity.
Qed.

(** *** The fields *)

Lemma mod_divide (a b : Z) : a mod b = 0 <-> (b | a).
Proof.
  destruct (Z.eq_dec b 0) as [->|Hb].
  - rewrite Z.mod_0_r. split.
    + intros ->. apply Z.divide_0_r.
    + intros H. now apply Z.divide_0_l in H.
  - now apply Z.mod_divide.
Qed.

Lemma item_matches_admits (lo v : Z) (i : Item) :
  item_matches lo v i = true <-> admits lo i v.
Proof.
  destruct i as [step|first last step]; cbn [item_matches admits].
  - now rewrite Z.eqb_eq, mod_divide.
  - rewrite !andb_true_iff, !Z.leb_le, Z.eqb_eq, mod_divide. tauto.
Qed.

Lemma field_matches_admits (lo : Z) (f : Field) (v : Z) :
  field_matches lo f v = true <-> field_admits lo f v.
Proof.
  unfold field_matches, field_admits. rewrite existsb_exists, List.Exists_exists.
  split; intros (i & Hi & H); exists i; (split; [exact Hi|]);
    now apply item_matches_admits.
Qed.

Lemma weekday_matches_admits (f : Field) (wd : Z) :
  weekday_matches f wd = true <-> weekday_admits f wd.
Proof.
  unfold weekday_matches, weekday_admits.
  now rewrite orb_true_iff, andb_true_iff, Z.eqb_eq, !field_matches_admits.
Qed.

Lemma unrestricted_starred (f : Field) : unrestricted f = true <-> starred f.
Proof.
  unfold starred. split.
  - destruct f as [|[[|[p|p|]|p]|? ? ?] [|? ?]]; cbn; try discriminate; reflexivity.
  - intros ->. reflexivity.
Qed.

Lemma day_matches_admits (c : Cron) (d wd : Z) :
  day_matches c d wd = true <-> day_admits c d wd.
Proof.
  unfold day_matches, day_admits.
  rewrite <- !unrestricted_starred, <- field_matches_admits, <- weekday_matches_admits.
  destruct (unrestricted (days_of_month c)), (unrestricted (days_of_week c));
    cbn [orb]; rewrite ?andb_true_iff, ?orb_true_iff; intuition congruence.
Qed.

(** The iterator fires in minute [m] exactly when the start of the minute
    is an occurrence of the expression. *)
Lemma occurs_at_occurrence (c : Cron) (m : Z) :
  occurs_at c m = true <-> occurrence c (60 * m).
Proof.
  unfold occurs_at, occurrence. split.
  - pose proof (civil_from_days_date (m / 1440)) as C.
    destruct (civil_from_days (m / 1440)) as [[y mo] d]. destruct C as [Hdate Hn].
    rewrite !andb_true_iff, !field_matches_admits, day_matches_admits.
    intros [[[Hmi Hh] Hmo] Hday].
    exists y, mo, d, ((m / 60) mod 24), (m mod 60).
    split; [exact Hdate|].
    split; [apply Z.mod_pos_bound; lia|].
    split; [apply Z.mod_pos_bound; lia|].
    split; [unfold datetime; rewrite Hn; Z.to_euclidean_division_equations; lia|].
    unfold weekday. rewrite Hn. auto.
  - intros (y & mo & d & h & mi & Hdate & Hh & Hmi & Ht & Fmi & Fh & Fmo & Fday).
    unfold datetime in Ht. unfold weekday in Fday.
    pose proof (civil_from_days_day_number _ _ _ Hdate) as C.
    remember (day_number y mo d) as n eqn:Hn.
    assert (E1 : m / 1440 = n) by (Z.to_euclidean_division_equations; lia).
    assert (E2 : m mod 60 = mi) by (Z.to_euclidean_division_equations; lia).
    assert (E3 : (m / 60) mod 24 = h) by (Z.to_euclidean_division_equations; lia).
    rewrite E1, E2, E3, C.
    rewrite !andb_true_iff, !field_matches_admits, day_matches_admits.
    unfold weekday_of_days. auto.
Qed.

Lemma occurrence_minute (c : Cron) (t : Z) :
  occurrence c t -> t = 60 * (t / 60).
Proof.
  intros (y & mo & d & h & mi & _ & _ & _ & -> & _). unfold datetime.
  Z.to_euclidean_division_equations. lia.
Qed.

End CroniterFacts.

(** ** The scheduler *)

Module SchedulerFacts.
Import Py Scheduler SchedulerSpec PyFacts CroniterFacts.

Lemma next_cron_occurrence_run (self : SchedulerService) (expr : string) (w : World) :
  next_cron_occurrence self expr w =
  (match Croniter.parse expr with
   | Some c =>
       match Croniter.first_from (horizon self) c (w_utcnow w / 60 + 1) with
       | Some m => Succeeded (60 * m)
       | None => Failed (OtherError "CroniterBadDateError")
       end
   | None => Failed ValueError
   end, w).
Proof.
  unfold next_cron_occurrence, utcnow, gets, Croniter.croniter, Croniter.get_next,
    mbind, task_bind, mret, task_ret, raise.
  destruct (Croniter.parse expr) as [c|]; [|reflexivity].
  cbn [fst snd]. destruct (Croniter.first_from _ _ _); reflexivity.
Qed.

Lemma execute_event_run (self : SchedulerService) (event : Event) (w : World) :
  execute_event self event w =
  let w1 := set_calls (fun l => l ++ [execution_call event])
              (set_log (fun l => l ++ [Msg "Executing policy"]) w) in
  match execution_answer self event w with
  | Succeeded u => (Succeeded u, w1)
  | Waiting => (Waiting, w1)
  | Failed e =>
      if is_CannotExecutePolicyError e
      then (Succeeded tt, set_log (fun l => l ++ [Msg "Cannot execute policy"]) w1)
      else if is_deleted_error e
      then (Succeeded tt,
            set_deleted_policy_ids (fun ids => {[policyId event]} ∪ ids) w1)
      else (Succeeded tt,
            set_log (fun l => l ++ [Err e (Some "Scheduler failed to execute policy")]) w1)
  end.
Proof.
  unfold execute_event, execution_answer, execution_call, call, log_msg, log_err,
    ignore_and_log, addErrback, modify, raise, mbind, task_bind.
  cbn [set_log set_calls w_calls].
  destruct (modify_state self (w_calls w) (tenantId event) (groupId event) (policyId event))
    as [u|e|]; [reflexivity| |reflexivity].
  destruct e; reflexivity.
Qed.

Lemma execute_event_calls (self : SchedulerService) (event : Event) (w : World) :
  w_calls (snd (execute_event self event w)) = w_calls w ++ [execution_call event].
Proof.
  rewrite execute_event_run. cbn zeta.
  destruct (execution_answer self event w) as [u|e|]; [reflexivity| |reflexivity].
  destruct (is_CannotExecutePolicyError e); [reflexivity|].
  destruct (is_deleted_error e); reflexivity.
Qed.

Lemma execute_event_deleted_mono (self : SchedulerService) (event : Event) (w : World) :
  w_deleted_policy_ids w ⊆ w_deleted_policy_ids (snd (execute_event self event w)).
Proof.
  rewrite execute_event_run. cbn zeta.
  destruct (execution_answer self event w) as [u|e|]; [reflexivity| |reflexivity].
  destruct (is_CannotExecutePolicyError e); [reflexivity|].
  destruct (is_deleted_error e); [|reflexivity].
  cbn. set_solver.
Qed.

Lemma execute_event_not_failed (self : SchedulerService) (event : Event) (w : World) :
  is_failed (fst (execute_event self event w)) = false.
Proof.
  rewrite execute_event_run. cbn zeta.
  destruct (execution_answer self event w) as [u|e|]; [reflexivity| |reflexivity].
  destruct (is_CannotExecutePolicyError e); [reflexivity|].
  destruct (is_deleted_error e); reflexivity.
Qed.

Lemma executed_cons (self : SchedulerService) (event : Event) (events : list Event)
    (w : World) :
  executed self (event :: events) w = executed self events (snd (execute_event self event w)).
Proof. unfold executed. now rewrite comprehension_cons. Qed.

Lemma executed_app (self : SchedulerService) (before after : list Event) (w : World) :
  executed self (before ++ after) w = executed self after (executed self before w).
Proof. unfold executed. apply comprehension_app_snd. Qed.

Lemma executed_calls (self : SchedulerService) (events : list Event) :
  forall w, w_calls (executed self events w) = w_calls w ++ map execution_call events.
Proof.
  induction events as [|event events IH]; intros w.
  - cbn. now rewrite app_nil_r.
  - rewrite executed_cons, IH, execute_event_calls, <- app_assoc. reflexivity.
Qed.

Lemma executed_deleted_mono (self : SchedulerService) (events : list Event) :
  forall w, w_deleted_policy_ids w ⊆ w_deleted_policy_ids (executed self events w).
Proof.
  induction events as [|event events IH]; intros w; [reflexivity|].
  rewrite executed_cons. etransitivity; [apply execute_event_deleted_mono | apply IH].
Qed.

Lemma executions_not_failed (self : SchedulerService) (events : list Event) :
  forall w ds,
    fst (comprehension (execute_event self) events w) = Succeeded ds ->
    Forall (fun d => is_failed d = false) ds.
Proof.
  induction events as [|event events IH]; intros w ds.
  - cbn. intros H. injection H as <-. constructor.
  - rewrite comprehension_cons. cbn [fst].
    destruct (fst (comprehension (execute_event self) events
                     (snd (execute_event self event w)))) as [ds'|e|] eqn:E;
      try discriminate.
    intros H. injection H as <-. constructor.
    + apply execute_event_not_failed.
    + eapply IH, E.
Qed.

Lemma with_trigger_policyId (t : time) (event : Event) :
  policyId (with_trigger t event) = policyId event.
Proof. reflexivity. Qed.

Lemma cron_loop_world (self : SchedulerService) (events : list Event) (w : World) :
  snd (cron_loop self events w) = w.
Proof.
  induction events as [|event events IH]; [reflexivity|].
  cbn [cron_loop]. unfold mbind at 1. unfold task_bind, gets.
  destruct (has_cron event && negb (bool_decide (policyId event ∈ w_deleted_policy_ids w)))%bool.
  - unfold mbind at 1. unfold task_bind. rewrite next_cron_occurrence_run.
    destruct (match Croniter.parse _ with Some _ => _ | None => _ end) as [t|e|];
      try reflexivity.
    unfold mbind, task_bind. destruct (cron_loop self events w) as [[r|e|] w'];
      cbn [snd] in IH; subst; reflexivity.
  - unfold mbind, task_bind. destruct (cron_loop self events w) as [[r|e|] w'];
      cbn [snd] in IH; subst; reflexivity.
Qed.

(** The list [new_cron_event] that the loop builds holds the events with a
    cron entry whose policy is not in [deleted_policy_ids], in the order of
    the batch and with their new triggers. *)
Lemma cron_loop_result (self : SchedulerService) (events : list Event) (w : World) :
  forall r,
    fst (cron_loop self events w) = Succeeded r ->
    length (fst r) = length events /\
    Forall2 (fun new old => exists t, new = with_trigger t old) (snd r)
      (List.filter (reschedulable (w_deleted_policy_ids w)) events).
Proof.
  induction events as [|event events IH]; intros r.
  - cbn. intros H. injection H as <-. split; [reflexivity | constructor].
  - cbn [cron_loop List.filter]. unfold mbind at 1. unfold task_bind, gets.
    unfold reschedulable at 1.
    destruct (has_cron event && negb (bool_decide (policyId event ∈ w_deleted_policy_ids w)))%bool.
    + unfold mbind at 1. unfold task_bind. rewrite next_cron_occurrence_run.
      destruct (match Croniter.parse _ with Some _ => _ | None => _ end) as [t|e|];
        try discriminate.
      unfold mbind, task_bind, mret, task_ret.
      destruct (cron_loop self events w) as [[r'|e|] w'] eqn:E; try discriminate.
      cbn [fst]. intros H. injection H as <-. cbn [fst snd length].
      destruct (IH r' eq_refl) as [Hlen Hall]. split; [now rewrite Hlen|].
      constructor; [now exists t | exact Hall].
    + unfold mbind, task_bind, mret, task_ret.
      destruct (cron_loop self events w) as [[r'|e|] w'] eqn:E; try discriminate.
      cbn [fst]. intros H. injection H as <-. cbn [fst snd length].
      destruct (IH r' eq_refl) as [Hlen Hall]. split; [now rewrite Hlen | exact Hall].
Qed.

Lemma load_name_new_cron_events (events new_cron_event : list Event) :
  load_name [("events", events); ("new_cron_event", new_cron_event)] "new_cron_events"
  = Failed (NameError "new_cron_events").
Proof. reflexivity. Qed.

(** On a batch that is not empty [add_cron_events] never reaches the
    store: when the loop has gone through, reading [new_cron_events] raises
    [NameError]. *)
Lemma add_cron_events_run (self : SchedulerService) (event : Event) (events : list Event)
    (w : World) :
  add_cron_events self (event :: events) w =
  (match fst (cron_loop self (event :: events) w) with
   | Succeeded _ => Failed (NameError "new_cron_events")
   | Failed e => Failed e
   | Waiting => Waiting
   end, w).
Proof.
  unfold add_cron_events. unfold mbind at 1. unfold task_bind.
  pose proof (cron_loop_world self (event :: events) w) as Hw.
  destruct (cron_loop self (event :: events) w) as [[r|e|] w']; cbn [fst snd] in *;
    subst w'; try reflexivity.
Qed.

Lemma process_events_run (self : SchedulerService) (event : Event)
    (events : list Event) (now : time) (w : World) :
  process_events self (event :: events) now w =
  let run := comprehension (execute_event self) (event :: events) (batch_start w) in
  match fst run with
  | Succeeded ds =>
      match gatherResults ds with
      | Succeeded _ => add_cron_events self (event :: events) (snd run)
      | Failed e => (Failed e, snd run)
      | Waiting => (Waiting, snd run)
      end
  | Failed e => (Failed e, snd run)
  | Waiting => (Waiting, snd run)
  end.
Proof.
  unfold process_events, addCallback, fired, log_msg, modify, mbind, task_bind, batch_start.
  cbn zeta.
  destruct (comprehension (execute_event self) (event :: events) _) as [[ds|e|] w1];
    reflexivity.
Qed.

(** A batch that is not empty: every event is handed to [execute_event],
    the world is left as the executions leave it, and the Deferred of
    [process_events] never succeeds. *)
Lemma process_events_nonempty (self : SchedulerService) (event : Event)
    (events : list Event) (now : time) (w : World) :
  snd (process_events self (event :: events) now w)
    = executed self (event :: events) (batch_start w) /\
  forall v, fst (process_events self (event :: events) now w) <> Succeeded v.
Proof.
  rewrite process_events_run. cbn zeta. unfold executed.
  destruct (comprehension_succeeds (execute_event self) (event :: events) (batch_start w))
    as (ds & Hds & _).
  rewrite Hds.
  destruct (gatherResults ds); cbn [fst snd]; try (split; [reflexivity | discriminate]).
  rewrite add_cron_events_run. cbn [fst snd]. split; [reflexivity|].
  intros v. destruct (fst (cron_loop self (event :: events) _)); discriminate.
Qed.

Lemma cron_loop_chosen (self : SchedulerService) (events : list Event) (w : World)
    (r : list Event * list Event) :
  fst (cron_loop self events w) = Succeeded r ->
  Forall (fun x => exists t old,
            x = with_trigger t old /\ In old events /\
            reschedulable (w_deleted_policy_ids w) old = true)
    (snd r).
Proof.
  intros H. apply cron_loop_result in H as [_ Hall].
  remember (List.filter (reschedulable (w_deleted_policy_ids w)) events) as olds eqn:Holds.
  assert (Hin : forall old, In old olds ->
                  In old events /\ reschedulable (w_deleted_policy_ids w) old = true).
  { subst olds. intros old. apply filter_In. }
  clear Holds. induction Hall as [|new old news olds (t & ->) _ IH]; constructor.
  - exists t, old. split; [reflexivity|]. apply Hin. now left.
  - apply IH. intros o Ho. apply Hin. now right.
Qed.

Lemma batch_start_calls (w : World) : w_calls (batch_start w) = w_calls w.
Proof. reflexivity. Qed.

(** Every event of a batch is handed to the store for execution, whatever
    [deleted_policy_ids] holds by then, and nothing else is asked of the
    store. *)
Lemma process_events_calls (self : SchedulerService) (events : list Event) (now : time)
    (w : World) :
  w_calls (snd (process_events self events now w)) = w_calls w ++ map execution_call events.
Proof.
  destruct events as [|event events].
  - cbn. now rewrite app_nil_r.
  - destruct (process_events_nonempty self event events now w) as [-> _].
    now rewrite executed_calls, batch_start_calls.
Qed.

Lemma deleted_error_not_ignored (failure : exn) :
  is_deleted_error failure = true -> is_CannotExecutePolicyError failure = false.
Proof. destruct failure; (reflexivity || discriminate). Qed.






(** One round of [_do_check], callback by callback. *)
Lemma _do_check_round (self : SchedulerService) (rounds : nat) (now : time)
    (batchsize : Z) (w : World) :
  _do_check self (S rounds) now batchsize w =
  let w1 := set_calls (fun l => l ++ [FetchAndDelete now batchsize]) w in
  match fetch_and_delete self (w_calls w) now batchsize with
  | Succeeded events =>
      match process_events self events now w1 with
      | (Succeeded processed, w2) =>
          match check_for_more batchsize (_do_check self rounds now batchsize)
                  processed w2 with
          | (Failed e, w3) => log_err e None w3
          | r => r
          end
      | (Failed e, w2) => log_err e None w2
      | (Waiting, w2) => (Waiting, w2)
      end
  | Failed e => log_err e None w1
  | Waiting => (Waiting, w1)
  end.
Proof.
  cbn [_do_check]. unfold addErrback, addCallback, call, mbind, task_bind. cbn zeta.
  destruct (fetch_and_delete self (w_calls w) now batchsize) as [events|e|];
    try reflexivity.
  destruct (process_events self events now _) as [[processed|e|] w2]; reflexivity.
Qed.

(** One round of [_do_check] asks the store for one batch, hands the
    events of the batch to the store for execution, and asks for nothing
    more. *)
Lemma _do_check_calls (self : SchedulerService) (rounds : nat) (now : time)
    (batchsize : Z) (w : World) :
  w_calls (snd (_do_check self (S rounds) now batchsize w)) =
  w_calls w ++
  FetchAndDelete now batchsize ::
  match fetch_and_delete self (w_calls w) now batchsize with
  | Succeeded events => map execution_call events
  | _ => []
  end.
Proof.
  rewrite _do_check_round. cbn zeta.
  destruct (fetch_and_delete self (w_calls w) now batchsize) as [events|e|];
    [|reflexivity|reflexivity].
  pose proof (process_events_calls self events now
                (set_calls (fun l => l ++ [FetchAndDelete now batchsize]) w)) as Hc.
  cbn [set_calls w_calls] in Hc. rewrite <- app_assoc in Hc. cbn [app] in Hc.
  destruct events as [|event events].
  - cbn. reflexivity.
  - destruct (process_events_nonempty self event events now
                (set_calls (fun l => l ++ [FetchAndDelete now batchsize]) w)) as [_ Hn].
    destruct (process_events self (event :: events) now _) as [[v|e|] w1];
      cbn [fst snd] in *.
    + now destruct (Hn v).
    + exact Hc.
    + exact Hc.
Qed.

Lemma fetches_app (w : World) (calls : list Call) (w' : World) :
  w_calls w' = w_calls w ++ calls ->
  fetches w' = (fetches w + length (List.filter is_fetch calls))%nat.
Proof.
  unfold fetches. intros ->. now rewrite List.filter_app, length_app.
Qed.

Lemma execution_calls_are_no_fetch (events : list Event) :
  List.filter is_fetch (map execution_call events) = [].
Proof. induction events as [|e events IH]; [reflexivity | exact IH]. Qed.

(** A bucket is asked for a batch once in a tick. *)
Lemma bucket_is_fetched_once (self : SchedulerService) (rounds : nat) (bucket : Z)
    (now : time) (batchsize : Z) (w : World) :
  fetches (snd (check_for_events_in_bucket self (S rounds) bucket now batchsize w))
  = S (fetches w).
Proof.
  unfold check_for_events_in_bucket.
  rewrite (fetches_app w _ _ (_do_check_calls self rounds now batchsize w)).
  cbn [List.filter is_fetch length].
  destruct (fetch_and_delete self (w_calls w) now batchsize);
    rewrite ?execution_calls_are_no_fetch; cbn [List.filter length]; lia.
Qed.

Lemma _do_check_not_failed (self : SchedulerService) (rounds : nat) (now : time)
    (batchsize : Z) :
  forall w, is_failed (fst (_do_check self rounds now batchsize w)) = false.
Proof.
  induction rounds as [|rounds IH]; intros w; [reflexivity|].
  rewrite _do_check_round. cbn zeta.
  destruct (fetch_and_delete self (w_calls w) now batchsize) as [events|e|];
    [|reflexivity|reflexivity].
  destruct (process_events self events now _) as [[v|e|] w1]; [|reflexivity|reflexivity].
  unfold check_for_more. destruct (batch_is_full v batchsize).
  - specialize (IH w1). destruct (_do_check self rounds now batchsize w1) as [[u|e|] w2];
      [reflexivity|discriminate|reflexivity].
  - reflexivity.
Qed.

Lemma batch_is_full_iff (events : list Event) (batchsize : Z) :
  batch_is_full events batchsize = true <->
  events <> [] /\ Z.of_nat (length events) = batchsize.
Proof.
  unfold batch_is_full. destruct events as [|event events].
  - split; [discriminate | intros [H _]; now destruct H].
  - rewrite Z.eqb_eq. split; [intros H; split; [discriminate | exact H] | now intros [_ H]].
Qed.

(** C2: with a partition that is acquired and owns at least one bucket,
    the tick does not complete: evaluating the arguments of the first call
    of the list comprehension reads the name [now], which is not bound (the
    local is called [utcnow]), and the [NameError] leaves
    [check_for_events]. *)
Theorem check_for_events_raises_NameError_when_a_bucket_is_owned :
  forall (self : SchedulerService) (rounds : nat) (batchsize : Z) (w : World)
         (p : Partition) (bucket : Z) (buckets : list Z),
    w_kz_partition w = Some p ->
    allocating p = false ->
    release p = false ->
    failed p = false ->
    members p = bucket :: buckets ->
    check_for_events self rounds batchsize w = (Failed (NameError "now"), w).
Proof.
  intros self rounds batchsize w p bucket buckets Hp Ha Hr Hf Hm.
  unfold check_for_events, gets, utcnow, mbind, task_bind.
  rewrite Hp, Ha, Hr, Hf, Hm. reflexivity.
Qed.

(** The theorem of C2 at a partition that owns bucket 0. *)
Lemma check_for_events_raises_NameError_when_a_bucket_is_owned_witness :
  check_for_events deserted_service 3 10 (acquired_world [0])
  = (Failed (NameError "now"), acquired_world [0]).
Proof.
  apply (check_for_events_raises_NameError_when_a_bucket_is_owned
           deserted_service 3 10 (acquired_world [0])
           (mkPartition false false false [0]) 0 []); reflexivity.
Defined.

(** While the partitioner has no set for this instance (none was started,
    or it is still allocating) a tick only logs: it asks nothing of the
    store or of the coordination service and hands [None] to the timer. *)
Theorem check_for_events_is_idle_while_allocating :
  forall (self : SchedulerService) (rounds : nat) (batchsize : Z) (w : World),
    (w_kz_partition w = None \/
     exists p, w_kz_partition w = Some p /\ allocating p = true) ->
    check_for_events self rounds batchsize w
    = (Succeeded ReturnedNone, set_log (fun l => l ++ [Msg "Partition allocating"]) w).
Proof.
  intros self rounds batchsize w [Hp|(p & Hp & Ha)];
    unfold check_for_events, gets, log_msg, modify, mbind, task_bind, mret, task_ret;
    rewrite Hp; [reflexivity|]. now rewrite Ha.
Qed.

Lemma check_for_events_is_idle_while_allocating_witness :
  check_for_events deserted_service 3 10
    (mkWorld 0 [] [] (Some (mkPartition true false false [])) ∅)
  = (Succeeded ReturnedNone,
     mkWorld 0 [Msg "Partition allocating"] [] (Some (mkPartition true false false [])) ∅).
Proof.
  apply (check_for_events_is_idle_while_allocating deserted_service 3 10
           (mkWorld 0 [] [] (Some (mkPartition true false false [])) ∅)).
  right. eexists. split; reflexivity.
Defined.

(** When the partitioner asks for its set back, a tick releases the set
    and hands the result of [release_set()] to the timer; the store is not
    asked for any batch. *)
Theorem check_for_events_releases_the_set_on_request :
  forall (self : SchedulerService) (rounds : nat) (batchsize : Z) (w : World)
         (p : Partition),
    w_kz_partition w = Some p ->
    allocating p = false ->
    release p = true ->
    let run := check_for_events self rounds batchsize w in
    fst run = Succeeded (ReturnedRelease (fst (release_set self (w_calls w) p))) /\
    w_calls (snd run) = w_calls w ++ [ReleaseSet] /\
    w_kz_partition (snd run) = snd (release_set self (w_calls w) p) /\
    fetches (snd run) = fetches w.
Proof.
  intros self rounds batchsize w p Hp Ha Hr run. subst run.
  unfold check_for_events, gets, log_msg, modify, returning, kz_release_set,
    mbind, task_bind, mret, task_ret, fetches.
  rewrite Hp, Ha, Hr. cbn [set_log w_calls].
  destruct (release_set self (w_calls w) p) as [d p']. cbn.
  repeat split. rewrite List.filter_app. cbn. now rewrite app_nil_r.
Qed.

Lemma check_for_events_releases_the_set_on_request_witness :
  let w := mkWorld 0 [] [] (Some (mkPartition false true false [0; 1])) ∅ in
  let run := check_for_events deserted_service 3 10 w in
  fst run = Succeeded (ReturnedRelease (Succeeded tt)) /\
  w_calls (snd run) = [ReleaseSet] /\
  w_kz_partition (snd run) = Some (mkPartition true false false []) /\
  fetches (snd run) = 0%nat.
Proof.
  intros w.
  apply (check_for_events_releases_the_set_on_request deserted_service 3 10 w
           (mkPartition false true false [0; 1])); reflexivity.
Defined.

(** Every event of a batch is handed to the store for execution exactly
    once, in the order of the batch, and [process_events] asks nothing else
    of the store. *)
Theorem process_events_executes_each_event_once :
  forall (self : SchedulerService) (events : list Event) (now : time) (w : World),
    w_calls (snd (process_events self events now w))
    = w_calls w ++ map (fun event =>
                          ModifyState (tenantId event) (groupId event) (policyId event))
                     events.
Proof. intros. apply process_events_calls. Qed.

(** An event whose policy cannot be executed (for instance because a
    cooldown has not passed) is logged as a message and not as an error; its
    policy id is not put into the set of deleted policies and its Deferred
    succeeds. *)
Theorem execute_event_ignores_CannotExecutePolicyError :
  forall (self : SchedulerService) (event : Event) (w : World),
    execution_answer self event w = Failed CannotExecutePolicyError ->
    let run := execute_event self event w in
    fst run = Succeeded tt /\
    w_log (snd run) = w_log w ++ [Msg "Executing policy"; Msg "Cannot execute policy"] /\
    w_deleted_policy_ids (snd run) = w_deleted_policy_ids w.
Proof.
  intros self event w H run. subst run. rewrite execute_event_run, H. cbn.
  repeat split. now rewrite <- app_assoc.
Qed.

Lemma execute_event_ignores_CannotExecutePolicyError_witness :
  let self :=
    mkSchedulerService (fetch_and_delete deserted_service)
      (fun _ _ _ _ => Failed CannotExecutePolicyError)
      (store_add_cron_events deserted_service)
      (release_set deserted_service) (kz_SetPartition deserted_service)
      "/scheduler_partition" 10 in
  let run := execute_event self every_five_minutes (acquired_world [0]) in
  fst run = Succeeded tt /\
  w_log (snd run) = [Msg "Executing policy"; Msg "Cannot execute policy"] /\
  w_deleted_policy_ids (snd run) = ∅.
Proof.
  intros self.
  apply (execute_event_ignores_CannotExecutePolicyError self every_five_minutes
           (acquired_world [0])).
  reflexivity.
Defined.

End SchedulerFacts.

(** ** Further properties of the convergence data model *)

Module ModelLaws.
Import Model ModelFacts.

(** [equivalent_definition] relates descriptions as an equivalence: every
    description is equivalent to itself, the answer does not depend on
    which of the two descriptions is asked, and equivalence carries over a
    common description. *)
Theorem equivalent_definition_is_an_equivalence :
  (forall a, equivalent_definition a a = true) /\
  (forall a b, equivalent_definition a b = equivalent_definition b a) /\
  (forall a b c,
      equivalent_definition a b = true ->
      equivalent_definition b c = true ->
      equivalent_definition a c = true).
Proof.
  split; [|split].
  - intros [x|x]; cbn [equivalent_definition].
    + now apply CLB_equivalent_definition_spec.
    + now apply RCv3_equivalent_definition_spec.
  - intros [x|x] [y|y]; cbn; try reflexivity.
    + now rewrite String.eqb_sym, Z.eqb_sym.
    + now rewrite String.eqb_sym.
  - intros [x|x] [y|y] [z|z]; cbn [equivalent_definition]; try discriminate;
      try (intros _ H; discriminate H).
    + rewrite !CLB_equivalent_definition_spec. intros [H1 H2] [H3 H4].
      split; congruence.
    + rewrite !RCv3_equivalent_definition_spec. congruence.
Qed.

End ModelLaws.

(** ** Further properties of the scheduler *)

Module SchedulerLaws.
Import Py Scheduler SchedulerSpec PyFacts CroniterFacts SchedulerFacts.

(** When the partitioner has failed, a tick starts a new one from the
    partition path of the service and hands [None] to the timer; the store
    is not asked for any batch. *)
Theorem check_for_events_restarts_a_failed_partitioner :
  forall (self : SchedulerService) (rounds : nat) (batchsize : Z) (w : World)
         (p : Partition),
    w_kz_partition w = Some p ->
    allocating p = false ->
    release p = false ->
    failed p = true ->
    let run := check_for_events self rounds batchsize w in
    fst run = Succeeded ReturnedNone /\
    w_calls (snd run) = w_calls w ++ [SetPartition (zk_partition_path self)] /\
    w_kz_partition (snd run)
      = Some (kz_SetPartition self (w_calls w) (zk_partition_path self)) /\
    fetches (snd run) = fetches w.
Proof.
  intros self rounds batchsize w p Hp Ha Hr Hf run. subst run.
  unfold check_for_events, gets, log_msg, modify, start_partitioner,
    mbind, task_bind, mret, task_ret, fetches.
  rewrite Hp, Ha, Hr, Hf. cbn.
  repeat split. rewrite List.filter_app. cbn. now rewrite app_nil_r.
Qed.

Lemma check_for_events_restarts_a_failed_partitioner_witness :
  let w := mkWorld 0 [] [] (Some (mkPartition false false true [0; 1])) ∅ in
  let run := check_for_events deserted_service 3 10 w in
  fst run = Succeeded ReturnedNone /\
  w_calls (snd run) = [SetPartition "/scheduler_partition"] /\
  w_kz_partition (snd run) = Some (mkPartition true false false []) /\
  fetches (snd run) = 0%nat.
Proof.
  intros w.
  apply (check_for_events_restarts_a_failed_partitioner deserted_service 3 10 w
           (mkPartition false false true [0; 1])); reflexivity.
Defined.

Lemma deleted_error_cases (e : exn) :
  is_CannotExecutePolicyError e = true -> is_deleted_error e = false.
Proof. destruct e; (reflexivity || discriminate). Qed.

Lemma execute_event_deleted (self : SchedulerService) (event : Event) (w : World)
    (pid : string) :
  pid ∈ w_deleted_policy_ids (snd (execute_event self event w)) <->
  pid ∈ w_deleted_policy_ids w \/
  (pid = policyId event /\
   exists failure, execution_answer self event w = Failed failure /\
                   is_deleted_error failure = true).
Proof.
  rewrite execute_event_run. cbn zeta.
  destruct (execution_answer self event w) as [u|e|] eqn:A.
  - cbn. split; [auto|]. intros [H|(_ & f & Hf & _)]; [exact H | discriminate].
  - destruct (is_CannotExecutePolicyError e) eqn:C.
    + cbn. split; [auto|]. intros [H|(_ & f & Hf & Hd)]; [exact H|].
      injection Hf as <-. rewrite (deleted_error_cases _ C) in Hd. discriminate.
    + destruct (is_deleted_error e) eqn:D.
      * cbn. rewrite elem_of_union, elem_of_singleton. split.
        -- intros [->|H]; [right; split; [reflexivity | eauto] | now left].
        -- intros [H|(-> & _)]; [now right | now left].
      * cbn. split; [auto|]. intros [H|(_ & f & Hf & Hd)]; [exact H|].
        injection Hf as <-. congruence.
  - cbn. split; [auto|]. intros [H|(_ & f & Hf & _)]; [exact H | discriminate].
Qed.

Lemma executed_deleted (self : SchedulerService) (events : list Event) :
  forall (w : World) (pid : string),
    pid ∈ w_deleted_policy_ids (executed self events w) <->
    pid ∈ w_deleted_policy_ids w \/
    exists before event after failure,
      events = before ++ event :: after /\
      policyId event = pid /\
      execution_answer self event (executed self before w) = Failed failure /\
      is_deleted_error failure = true.
Proof.
  induction events as [|e l IH]; intros w pid.
  - split; [now left|]. intros [H|(before & ev & after & f & Heq & _)]; [exact H|].
    now destruct before.
  - rewrite executed_cons, IH, execute_event_deleted. split.
    + intros [[H|(-> & f & Hf & Hd)]|(before & ev & after & f & -> & Hp & Hf & Hd)].
      * now left.
      * right. exists [], e, l, f. auto.
      * right. exists (e :: before), ev, after, f.
        rewrite executed_cons. auto.
    + intros [H|(before & ev & after & f & Heq & Hp & Hf & Hd)].
      * left. now left.
      * destruct before as [|b before]; cbn [app] in Heq; injection Heq as <- ->.
        -- left. right. split; [now symmetry|]. eauto.
        -- right. exists before, ev, after, f. rewrite executed_cons in Hf. auto.
Qed.

(** After a batch has been executed, the set of deleted policy ids holds
    exactly the policy ids of the events of the batch whose execution failed
    with [NoSuchPolicyError] or [NoSuchScalingGroupError]: no id of an
    earlier batch, and no id of an event that failed for another reason. *)
Theorem deleted_policy_ids_are_exactly_the_deleted_policies :
  forall (self : SchedulerService) (first : Event) (rest : list Event)
         (now : time) (w : World) (pid : string),
    pid ∈ w_deleted_policy_ids (snd (process_events self (first :: rest) now w)) <->
    exists before event after failure,
      first :: rest = before ++ event :: after /\
      policyId event = pid /\
      execution_answer self event (executed self before (batch_start w)) = Failed failure /\
      is_deleted_error failure = true.
Proof.
  intros self first rest now w pid.
  destruct (process_events_nonempty self first rest now w) as [-> _].
  rewrite executed_deleted. split; [|now right].
  intros [H|H]; [|exact H]. cbn in H. set_solver.
Qed.

(** Whatever the store does, the work on a bucket never ends in a failed
    Deferred; a fetch that fails is logged with [log.err], no event is
    executed, and the Deferred of the bucket fires. *)
Theorem bucket_errors_are_logged_and_contained :
  forall (self : SchedulerService) (rounds : nat) (bucket : Z) (now : time)
         (batchsize : Z) (w : World),
    is_failed (fst (check_for_events_in_bucket self rounds bucket now batchsize w)) = false /\
    (forall e,
        fetch_and_delete self (w_calls w) now batchsize = Failed e ->
        check_for_events_in_bucket self (S rounds) bucket now batchsize w
        = (Succeeded tt,
           set_log (fun l => l ++ [Err e None])
             (set_calls (fun l => l ++ [FetchAndDelete now batchsize]) w))).
Proof.
  intros self rounds bucket now batchsize w. unfold check_for_events_in_bucket.
  split; [apply _do_check_not_failed|].
  intros e He. rewrite _do_check_round, He. reflexivity.
Qed.

Lemma bucket_errors_are_logged_and_contained_witness :
  let self :=
    mkSchedulerService (fun _ _ _ => Failed (OtherError "TimedOutException"))
      (modify_state deserted_service) (store_add_cron_events deserted_service)
      (release_set deserted_service) (kz_SetPartition deserted_service)
      "/scheduler_partition" 10 in
  check_for_events_in_bucket self 3 0 1393675201 10 (acquired_world [0])
  = (Succeeded tt,
     mkWorld 1393675201 [Err (OtherError "TimedOutException") None]
       [FetchAndDelete 1393675201 10] (Some (mkPartition false false false [0])) ∅).
Proof.
  intros self.
  destruct (bucket_errors_are_logged_and_contained self 2 0 1393675201 10
              (acquired_world [0])) as [_ H].
  apply (H (OtherError "TimedOutException")). reflexivity.
Defined.

(** A failure of the execution that is neither a refusal of the policy nor
    a deleted policy or group is logged with [log.err] and goes no further:
    the Deferred of the event succeeds and the set of deleted policy ids is
    left alone. *)
Theorem execute_event_logs_an_unexpected_failure :
  forall (self : SchedulerService) (event : Event) (w : World) (failure : exn),
    execution_answer self event w = Failed failure ->
    is_CannotExecutePolicyError failure = false ->
    is_deleted_error failure = false ->
    let run := execute_event self event w in
    fst run = Succeeded tt /\
    w_log (snd run)
      = w_log w ++ [Msg "Executing policy";
                    Err failure (Some "Scheduler failed to execute policy")] /\
    w_deleted_policy_ids (snd run) = w_deleted_policy_ids w /\
    w_calls (snd run) = w_calls w ++ [execution_call event].
Proof.
  intros self event w failure H Hc Hd run. subst run.
  rewrite execute_event_run, H. cbn zeta. rewrite Hc, Hd. cbn.
  repeat split. now rewrite <- app_assoc.
Qed.

Lemma execute_event_logs_an_unexpected_failure_witness :
  let self :=
    mkSchedulerService (fetch_and_delete deserted_service)
      (fun _ _ _ _ => Failed (APIError 500 "oops"))
      (store_add_cron_events deserted_service)
      (release_set deserted_service) (kz_SetPartition deserted_service)
      "/scheduler_partition" 10 in
  let run := execute_event self every_five_minutes (acquired_world [0]) in
  fst run = Succeeded tt /\
  w_log (snd run)
    = [Msg "Executing policy";
       Err (APIError 500 "oops") (Some "Scheduler failed to execute policy")] /\
  w_deleted_policy_ids (snd run) = ∅ /\
  w_calls (snd run) = [execution_call every_five_minutes].
Proof.
  intros self.
  apply (execute_event_logs_an_unexpected_failure self every_five_minutes
           (acquired_world [0]) (APIError 500 "oops")); reflexivity.
Defined.

Lemma execute_event_answered (self : SchedulerService) (event : Event) (w : World) :
  execution_answer self event w <> Waiting ->
  fst (execute_event self event w) = Succeeded tt.
Proof.
  intros H. rewrite execute_event_run. cbn zeta.
  destruct (execution_answer self event w) as [[]|e|]; [reflexivity| |now destruct H].
  destruct (is_CannotExecutePolicyError e); [reflexivity|].
  destruct (is_deleted_error e); reflexivity.
Qed.

Lemma executions_answered (self : SchedulerService) (events : list Event) :
  (forall past t g p, modify_state self past t g p <> Waiting) ->
  forall w,
    fst (comprehension (execute_event self) events w)
    = Succeeded (map Succeeded (map (fun _ => tt) events)).
Proof.
  intros Hanswered. induction events as [|e l IH]; intros w; [reflexivity|].
  rewrite comprehension_cons. cbn [fst]. rewrite IH, execute_event_answered; [reflexivity|].
  apply Hanswered.
Qed.

Lemma gather_from_all_succeeded {A} (vs : list A) (index : nat) :
  gather_from index (map Succeeded vs) = Succeeded vs.
Proof. apply gather_from_map_succeeded. Qed.

Lemma cron_loop_cons (self : SchedulerService) (event : Event) (events : list Event)
    (w : World) :
  cron_loop self (event :: events) w =
  if reschedulable (w_deleted_policy_ids w) event
  then
    match Croniter.parse (default "" (cron event)) with
    | Some c =>
        match Croniter.first_from (horizon self) c (w_utcnow w / 60 + 1) with
        | Some m =>
            match cron_loop self events w with
            | (Succeeded r, w') =>
                (Succeeded (with_trigger (60 * m) event :: fst r,
                            with_trigger (60 * m) event :: snd r), w')
            | (Failed e, w') => (Failed e, w')
            | (Waiting, w') => (Waiting, w')
            end
        | None => (Failed (OtherError "CroniterBadDateError"), w)
        end
    | None => (Failed ValueError, w)
    end
  else
    match cron_loop self events w with
    | (Succeeded r, w') => (Succeeded (event :: fst r, snd r), w')
    | (Failed e, w') => (Failed e, w')
    | (Waiting, w') => (Waiting, w')
    end.
Proof.
  cbn [cron_loop]. unfold mbind at 1. unfold task_bind, gets, reschedulable.
  destruct (has_cron event && negb (bool_decide (policyId event ∈ w_deleted_policy_ids w)))%bool.
  - unfold mbind at 1. unfold task_bind. rewrite next_cron_occurrence_run.
    destruct (Croniter.parse _) as [c|]; [|reflexivity].
    destruct (Croniter.first_from _ _ _) as [m|]; reflexivity.
  - reflexivity.
Qed.

Lemma cron_loop_outcome (self : SchedulerService) (events : list Event) (w : World) :
  (exists r, fst (cron_loop self events w) = Succeeded r) \/
  fst (cron_loop self events w) = Failed ValueError \/
  fst (cron_loop self events w) = Failed (OtherError "CroniterBadDateError").
Proof.
  induction events as [|event events IH]; [left; eexists; reflexivity|].
  rewrite cron_loop_cons.
  destruct (reschedulable (w_deleted_policy_ids w) event).
  - destruct (Croniter.parse _) as [c|]; [|right; left; reflexivity].
    destruct (Croniter.first_from _ _ _) as [m|]; [|right; right; reflexivity].
    destruct (cron_loop self events w) as [[r|e|] w']; cbn [fst] in *.
    + left. eexists. reflexivity.
    + destruct IH as [[r Hr]|[H|H]]; [discriminate | now right; left | now right; right].
    + destruct IH as [[r Hr]|[H|H]]; discriminate.
  - destruct (cron_loop self events w) as [[r|e|] w']; cbn [fst] in *.
    + left. eexists. reflexivity.
    + destruct IH as [[r Hr]|[H|H]]; [discriminate | now right; left | now right; right].
    + destruct IH as [[r Hr]|[H|H]]; discriminate.
Qed.

(** A batch that is not empty is never rescheduled: [process_events] hands
    nothing to [store.add_cron_events] and its Deferred never succeeds.
    Once every execution has been answered it fails, and with [NameError]
    for [new_cron_events] whenever the loop over the events has found a next
    occurrence for every cron entry it takes up. *)
Theorem nonempty_batch_is_never_rescheduled :
  forall (self : SchedulerService) (first : Event) (rest : list Event)
         (now : time) (w : World),
    let run := process_events self (first :: rest) now w in
    (forall processed, fst run <> Succeeded processed) /\
    (forall rescheduled,
        In (AddCronEvents rescheduled) (w_calls (snd run)) ->
        In (AddCronEvents rescheduled) (w_calls w)) /\
    ((forall past t g p, modify_state self past t g p <> Waiting) ->
     (fst run = Failed (NameError "new_cron_events") \/
      fst run = Failed ValueError \/
      fst run = Failed (OtherError "CroniterBadDateError")) /\
     (forall r,
         fst (cron_loop self (first :: rest) (snd run)) = Succeeded r ->
         fst run = Failed (NameError "new_cron_events"))).
Proof.
  intros self first rest now w run.
  destruct (process_events_nonempty self first rest now w) as [Hw Hnever].
  split; [exact Hnever|]. split.
  - intros rescheduled Hcall. subst run. rewrite process_events_calls in Hcall.
    apply in_app_or in Hcall as [Hcall|Hcall]; [exact Hcall|].
    apply in_map_iff in Hcall as (x & Hx & _). discriminate.
  - intros Hanswered.
    assert (Hrun : fst run = match fst (cron_loop self (first :: rest) (snd run)) with
                             | Succeeded _ => Failed (NameError "new_cron_events")
                             | Failed e => Failed e
                             | Waiting => Waiting
                             end).
    { subst run. rewrite Hw. rewrite process_events_run. cbn zeta.
      rewrite (executions_answered self (first :: rest) Hanswered).
      unfold gatherResults. rewrite gather_from_all_succeeded.
      rewrite add_cron_events_run. reflexivity. }
    split.
    + rewrite Hrun.
      destruct (cron_loop_outcome self (first :: rest) (snd run)) as [[r ->] | [ -> | -> ]];
        auto.
    + intros r Hr. now rewrite Hrun, Hr.
Qed.

(** The theorem at a batch of one healthy event that recurs every five
    minutes: the policy is executed, and then the processing fails. *)
Lemma nonempty_batch_is_never_rescheduled_witness :
  let self :=
    mkSchedulerService (fetch_and_delete deserted_service)
      (fun _ _ _ _ => Succeeded tt)
      (store_add_cron_events deserted_service)
      (release_set deserted_service) (kz_SetPartition deserted_service)
      "/scheduler_partition" 10 in
  let run := process_events self [every_five_minutes] 1393675201 (acquired_world [0]) in
  fst (cron_loop self [every_five_minutes] (snd run))
    = Succeeded ([with_trigger 1393675500 every_five_minutes],
                 [with_trigger 1393675500 every_five_minutes]) /\
  fst run = Failed (NameError "new_cron_events").
Proof.
  intros self run.
  assert (Hloop : fst (cron_loop self [every_five_minutes] (snd run))
                  = Succeeded ([with_trigger 1393675500 every_five_minutes],
                               [with_trigger 1393675500 every_five_minutes])).
  { vm_compute. reflexivity. }
  split; [exact Hloop|].
  destruct (nonempty_batch_is_never_rescheduled self every_five_minutes []
              1393675201 (acquired_world [0])) as (_ & _ & H).
  destruct H as [_ H]; [intros past t g p; discriminate|].
  exact (H _ Hloop).
Defined.

(** A batch that is not empty, once every execution has been answered:
    [process_events] fails, with [NameError] unless the loop over the cron
    entries has failed before. *)
Lemma process_events_answered (self : SchedulerService) (first : Event)
    (rest : list Event) (now : time) (w : World) :
  (forall past t g p, modify_state self past t g p <> Waiting) ->
  fst (process_events self (first :: rest) now w) = Failed (NameError "new_cron_events") \/
  fst (process_events self (first :: rest) now w) = Failed ValueError \/
  fst (process_events self (first :: rest) now w)
    = Failed (OtherError "CroniterBadDateError").
Proof.
  intros Hanswered. rewrite process_events_run. cbn zeta.
  rewrite (executions_answered self (first :: rest) Hanswered).
  unfold gatherResults. rewrite gather_from_all_succeeded.
  rewrite add_cron_events_run. cbn [fst].
  destruct (cron_loop_outcome self (first :: rest)
              (snd (comprehension (execute_event self) (first :: rest) (batch_start w))))
    as [[r ->] | [ -> | -> ]]; auto.
Qed.

(** A round of [_do_check] whose batch is not empty: the failure of
    [process_events] goes to the errback, past [check_for_more]. *)
Lemma _do_check_nonempty (self : SchedulerService) (rounds : nat) (now : time)
    (batchsize : Z) (w : World) (first : Event) (rest : list Event) :
  fetch_and_delete self (w_calls w) now batchsize = Succeeded (first :: rest) ->
  let processed :=
    process_events self (first :: rest) now
      (set_calls (fun l => l ++ [FetchAndDelete now batchsize]) w) in
  _do_check self (S rounds) now batchsize w =
  match fst processed with
  | Failed e => log_err e None (snd processed)
  | _ => (Waiting, snd processed)
  end.
Proof.
  intros Hfetch processed. rewrite _do_check_round, Hfetch. cbn zeta. subst processed.
  destruct (process_events_nonempty self first rest now
              (set_calls (fun l => l ++ [FetchAndDelete now batchsize]) w)) as [_ Hnever].
  destruct (process_events self (first :: rest) now _) as [[v|e|] w2]; cbn [fst snd] in *.
  - now destruct (Hnever v).
  - reflexivity.
  - reflexivity.
Qed.

(** C4, where the code parts from the specification.  The store hands
    out a batch that is not empty and holds exactly [batchsize] events,
    and the loop may go round as often as it likes.  The bucket is asked
    for that one batch, its events are executed, and the store is asked
    nothing more in this tick: the loop does not repeat.  The work on the
    bucket either waits for an execution or has ended with an error in the
    log; once every execution is answered it has ended so, and the error
    is the [NameError] of [add_cron_events] unless a cron entry of the
    batch has failed before. *)
Theorem full_batch_is_not_followed_by_another_fetch :
  forall (self : SchedulerService) (rounds : nat) (bucket : Z) (now : time) (w : World)
         (first : Event) (rest : list Event),
    let events := first :: rest in
    let batchsize := Z.of_nat (length events) in
    fetch_and_delete self (w_calls w) now batchsize = Succeeded events ->
    let run := check_for_events_in_bucket self (S rounds) bucket now batchsize w in
    w_calls (snd run)
      = w_calls w ++ FetchAndDelete now batchsize :: map execution_call events /\
    fetches (snd run) = S (fetches w) /\
    (fst run = Waiting \/
     exists e log, fst run = Succeeded tt /\ w_log (snd run) = log ++ [Err e None]) /\
    ((forall past t g p, modify_state self past t g p <> Waiting) ->
     exists e log,
       fst run = Succeeded tt /\ w_log (snd run) = log ++ [Err e None] /\
       (e = NameError "new_cron_events" \/ e = ValueError \/
        e = OtherError "CroniterBadDateError")).
Proof.
  intros self rounds bucket now w first rest events batchsize Hfetch run.
  split.
  { subst run. unfold check_for_events_in_bucket. now rewrite _do_check_calls, Hfetch. }
  split; [apply bucket_is_fetched_once|].
  subst run. unfold check_for_events_in_bucket.
  rewrite (_do_check_nonempty self rounds now batchsize w first rest Hfetch). cbn zeta.
  set (processed := process_events self (first :: rest) now _).
  split.
  - destruct (fst processed) as [v|e|]; [now left| |now left].
    right. exists e, (w_log (snd processed)). split; reflexivity.
  - intros Hanswered.
    destruct (process_events_answered self first rest now
                (set_calls (fun l => l ++ [FetchAndDelete now batchsize]) w) Hanswered)
      as [H|[H|H]]; fold processed in H; rewrite H;
      eexists; exists (w_log (snd processed));
      (split; [reflexivity|]); (split; [reflexivity|]); auto.
Qed.

(** The theorem of C4 at a batch size of 1 and a store that hands out one
    event that recurs every five minutes, with five rounds allowed: one
    fetch, one execution, and the [NameError] in the log. *)
Lemma full_batch_is_not_followed_by_another_fetch_witness :
  let run :=
    check_for_events_in_bucket (busy_service [every_five_minutes]) 5 0 1393675201 1
      (acquired_world [0]) in
  w_calls (snd run) = [FetchAndDelete 1393675201 1; execution_call every_five_minutes] /\
  fetches (snd run) = 1%nat /\
  fst run = Succeeded tt /\
  w_log (snd run)
    = [Msg "Processing {num_events} events"; Msg "Executing policy";
       Err (NameError "new_cron_events") None].
Proof.
  intros run.
  destruct (full_batch_is_not_followed_by_another_fetch
              (busy_service [every_five_minutes]) 4 0 1393675201 (acquired_world [0])
              every_five_minutes [] eq_refl) as (Hcalls & Hfetches & _ & _).
  split; [exact Hcalls|]. split; [exact Hfetches|].
  split; vm_compute; reflexivity.
Defined.

End SchedulerLaws.

(** ** Further properties of the launch worker *)

Module WorkerLaws.
Import Py Json Worker WorkerSpec PyFacts WorkerFacts.

(** [append_segments] gives the same URI however many slashes the base
    URI ends with. *)
Theorem append_segments_ignores_trailing_slashes :
  forall (n : nat) (uri : string) (segments : list string) (w : World),
    fst (append_segments (with_slashes n uri) segments w)
    = fst (append_segments uri segments w).
Proof.
  intros n uri segments w. rewrite !append_segments_run. cbn [fst].
  now rewrite rstrip_with_slashes.
Qed.


Lemma create_server_run (rt : Runtime) (server_endpoint auth_token : string)
    (scaling_group : option string) (server_config : json) (w : World) :
  let r := create_request rt server_endpoint auth_token server_config in
  create_server rt server_endpoint auth_token scaling_group server_config w =
  (json_outcome rt [202] (treq_send rt (w_sent w) r), after_request r w).
Proof.
  intros r. unfold create_server.
  unfold mbind at 1. unfold task_bind. rewrite append_segments_run.
  unfold treq_post. rewrite json_request_run. reflexivity.
Qed.

(** [create_server] sends one request, a [POST] of the server config to
    [<endpoint>/servers], whatever scaling group it is given.  It results in
    the parsed body exactly when the response code is 202 and the body
    parses; every other code, 200 and 201 included, is an [APIError] with
    the code and the body, and a 202 whose body does not parse is a
    [ValueError]. *)
Theorem create_server_succeeds_only_on_202 :
  forall (rt : Runtime) (server_endpoint auth_token : string)
         (scaling_group : option string) (server_config : json) (w : World),
    let r := create_request rt server_endpoint auth_token server_config in
    let run := create_server rt server_endpoint auth_token scaling_group server_config w in
    w_sent (snd run) = w_sent w ++ [(w_time w, r)] /\
    (forall doc,
        fst run = Succeeded doc <->
        exists response,
          treq_send rt (w_sent w) r = Succeeded response /\
          code response = 202 /\
          json_loads rt (content response) = Some doc) /\
    (forall response,
        treq_send rt (w_sent w) r = Succeeded response ->
        (code response <> 202 ->
         fst run = Failed (APIError (code response) (content response))) /\
        (code response = 202 ->
         json_loads rt (content response) = None ->
         fst run = Failed ValueError)).
Proof.
  intros rt server_endpoint auth_token scaling_group server_config w r run.
  subst run. rewrite create_server_run. fold r. cbn [fst snd after_request w_sent].
  split; [reflexivity|]. split.
  - intros doc. rewrite json_outcome_answered. unfold answered. split.
    + intros (response & Hr & [Hc|[]] & Hj). exists response. auto.
    + intros (response & Hr & Hc & Hj). exists response. split; [exact Hr|].
      split; [now left | exact Hj].
  - intros response Hr. split.
    + intros Hc. apply json_outcome_refused. right. left. exists response.
      split; [exact Hr|]. split; [|reflexivity]. intros [H|[]]. congruence.
    + intros Hc Hj. apply json_outcome_refused. right. right. exists response.
      split; [exact Hr|]. split; [now left | auto].
Qed.

(** The theorem at a cloud that answers the create request with 201. *)
Lemma create_server_succeeds_only_on_202_witness :
  fst (create_server (constant_runtime (mkResponse 201 "{}") (JDict [])) "http://nova/v2"
         "token" None (JDict []) initial_world)
  = Failed (APIError 201 "{}").
Proof.
  destruct (create_server_succeeds_only_on_202
              (constant_runtime (mkResponse 201 "{}") (JDict [])) "http://nova/v2"
              "token" None (JDict []) initial_world) as (_ & _ & H).
  destruct (H (mkResponse 201 "{}") eq_refl) as [H201 _].
  apply H201. discriminate.
Defined.


(** A poll that is answered with a code other than 200 and 203 ends
    [wait_for_status] with an [APIError] of that code and body; no further
    poll is made.  That is so for every interval that the looping call
    takes; a negative interval is refused with [ValueError] before the
    poll. *)
Theorem wait_for_status_fails_on_a_failed_poll :
  forall (rt : Runtime) (polls : nat)
         (server_endpoint auth_token server_id expected_status : string) (interval : Z)
         (w : World) (response : Response),
    treq_send rt (w_sent w) (details_request server_endpoint auth_token server_id)
      = Succeeded response ->
    code response <> 200 ->
    code response <> 203 ->
    (0 <= interval ->
     wait_for_status rt (S polls) server_endpoint auth_token server_id
       expected_status interval w
     = (Failed (APIError (code response) (content response)),
        after_request (details_request server_endpoint auth_token server_id) w)) /\
    (interval < 0 ->
     wait_for_status rt (S polls) server_endpoint auth_token server_id
       expected_status interval w
     = (Failed ValueError, w)).
Proof.
  intros rt polls server_endpoint auth_token server_id expected_status interval w
    response Hr H200 H203.
  split; [|apply wait_for_status_negative].
  intros Hi. rewrite wait_for_status_round by exact Hi. cbn zeta.
  assert (H : json_outcome rt [200; 203]
                (treq_send rt (w_sent w)
                   (details_request server_endpoint auth_token server_id))
              = Failed (APIError (code response) (content response))).
  { apply json_outcome_refused. right. left. exists response.
    split; [exact Hr|]. split; [|reflexivity].
    intros [H|[H|[]]]; congruence. }
  now rewrite H.
Qed.

Lemma wait_for_status_fails_on_a_failed_poll_witness :
  wait_for_status (constant_runtime (mkResponse 404 "gone") JNull) 10
    "http://nova/v2" "token" "s1" "ACTIVE" 5 initial_world
  = (Failed (APIError 404 "gone"),
     after_request (details_request "http://nova/v2" "token" "s1") initial_world).
Proof.
  apply (wait_for_status_fails_on_a_failed_poll
           (constant_runtime (mkResponse 404 "gone") JNull) 9
           "http://nova/v2" "token" "s1" "ACTIVE" 5 initial_world (mkResponse 404 "gone"));
    [reflexivity | discriminate | discriminate | lia].
Defined.

Lemma endpoints_of_service_empty_region (es : list Endpoint) :
  endpoints_of_service es (Some "") = endpoints_of_service es None.
Proof.
  induction es as [|e es IH]; [reflexivity|].
  cbn [endpoints_of_service]. now rewrite IH.
Qed.

(** An empty string in the place of a filter is no filter: [endpoints]
    yields for ['']  what it yields for [None], in each of the three
    places. *)
Theorem endpoints_takes_an_empty_filter_for_none :
  forall (service_catalog : list Service)
         (name_wanted type_wanted region_wanted : option string),
    endpoints service_catalog (Some "") type_wanted region_wanted
      = endpoints service_catalog None type_wanted region_wanted /\
    endpoints service_catalog name_wanted (Some "") region_wanted
      = endpoints service_catalog name_wanted None region_wanted /\
    endpoints service_catalog name_wanted type_wanted (Some "")
      = endpoints service_catalog name_wanted type_wanted None.
Proof.
  intros service_catalog name_wanted type_wanted region_wanted.
  split; [|split]; induction service_catalog as [|service rest IH]; try reflexivity;
    cbn [endpoints]; rewrite IH.
  - reflexivity.
  - reflexivity.
  - destruct (differs type_wanted "type" (service_type service)) as [e|[|]];
      try reflexivity.
    destruct (differs name_wanted "name" (service_name service)) as [e|[|]];
      try reflexivity.
    destruct (service_endpoints service) as [es|]; [|reflexivity].
    now rewrite endpoints_of_service_empty_region.
Qed.

(** A service without a ['type'] key ends [endpoints] with [KeyError] as
    soon as a type filter is supplied: the endpoints of the services before
    it are yielded, then the exception is raised, so that [list(...)] of the
    generator raises it.  Without a type filter the key is not read. *)
Theorem endpoints_raises_KeyError_for_a_missing_type :
  forall (before after : list Service) (service : Service)
         (name_wanted type_wanted region_wanted : option string),
    readable before name_wanted type_wanted region_wanted ->
    service_type service = None ->
    truthy type_wanted = true ->
    endpoints (before ++ service :: after) name_wanted type_wanted region_wanted
    = (matching_endpoints before name_wanted type_wanted region_wanted,
       Some (KeyError "type")).
Proof.
  intros before after service name_wanted type_wanted region_wanted Hr Ht Hw.
  pose proof (endpoints_matching _ _ _ _ Hr) as E.
  rewrite endpoints_app; [|now rewrite E].
  rewrite E. cbn [endpoints fst]. rewrite Ht.
  unfold differs. destruct type_wanted as [t|]; [|discriminate].
  rewrite Hw. unfold yield_then. cbn [fst snd]. now rewrite app_nil_r.
Qed.

(** The theorem at the catalog of the [__main__] block, whose services
    have no ['type'], asked for the type ['compute']. *)
Lemma endpoints_raises_KeyError_for_a_missing_type_witness :
  endpoints main_catalog None (Some "compute") (Some "ORD")
  = ([], Some (KeyError "type")).
Proof.
  apply (endpoints_raises_KeyError_for_a_missing_type [] (tl main_catalog)
           (mkService (Some "cloudLoadBalancers") None
              (Some [mkEndpoint (Some "ORD")
                       (Some "https://ord.loadbalancers.api.rackspacecloud.com/v1.0/416511")]))
           None (Some "compute") (Some "ORD")).
  - constructor.
  - reflexivity.
  - reflexivity.
Defined.

Lemma bind_succeeded {S A B} (m : Task S A) (k : A -> Task S B) (s : S) (a : A) :
  m s = (Succeeded a, s) -> (m ≫= k) s = k a s.
Proof. intros H. unfold mbind, task_bind. rewrite H. reflexivity. Qed.

Lemma getitem_pure {S} (v : json) (key : string) (s : S) :
  getitem v key s = (fst (getitem v key tt), s).
Proof.
  unfold getitem. destruct v; try reflexivity.
  destruct (lookup_key key items); reflexivity.
Qed.

Lemma as_str_pure {S} (v : json) (s : S) : as_str v s = (fst (as_str v tt), s).
Proof. destruct v; reflexivity. Qed.

Lemma as_list_pure {S} (v : json) (s : S) : as_list v s = (fst (as_list v tt), s).
Proof. destruct v; reflexivity. Qed.

Lemma first_item_pure {S A} (xs : list A) (s : S) :
  first_item xs s = (fst (first_item xs tt), s).
Proof. destruct xs; reflexivity. Qed.

Lemma filter_version4_pure {S} (xs : list json) (s : S) :
  filter_version4 xs s = (fst (filter_version4 xs tt), s).
Proof.
  induction xs as [|x xs IH]; [reflexivity|].
  cbn [filter_version4]. unfold mbind, task_bind.
  rewrite (getitem_pure x "version" s).
  destruct (getitem x "version" tt) as [[v|e|] []]; cbn [fst]; try reflexivity.
  rewrite IH. destruct (filter_version4 xs tt) as [[keep|e|] []]; reflexivity.
Qed.

Ltac pure_step lemma :=
  unfold mbind at 1; unfold task_bind at 1; rewrite lemma;
  unfold mbind at 1; unfold task_bind at 1.

Lemma created_server_id_bind {A} (created : json) (k : string -> Task World A) (w : World) :
  (s ← getitem created "server";
   i ← getitem s "id";
   server_id ← as_str i;
   k server_id) w
  = match created_server_id created with
    | Succeeded server_id => k server_id w
    | Failed e => (Failed e, w)
    | Waiting => (Waiting, w)
    end.
Proof.
  unfold created_server_id, mbind, task_bind.
  rewrite (getitem_pure created "server" w).
  destruct (getitem created "server" tt) as [[s|e|] []]; cbn [fst]; try reflexivity.
  rewrite (getitem_pure s "id" w).
  destruct (getitem s "id" tt) as [[i|e|] []]; cbn [fst]; try reflexivity.
  rewrite (as_str_pure i w).
  destruct (as_str i tt) as [[sid|e|] []]; reflexivity.
Qed.

Lemma private_ipv4_bind {A} (active : json) (k : json -> Task World A) (w : World) :
  (s ← getitem active "server";
   a ← getitem s "addresses";
   p ← getitem a "private";
   ps ← as_list p;
   v4 ← filter_version4 ps;
   x ← first_item v4;
   ip_address ← getitem x "addr";
   k ip_address) w
  = match private_ipv4 active with
    | Succeeded ip_address => k ip_address w
    | Failed e => (Failed e, w)
    | Waiting => (Waiting, w)
    end.
Proof.
  unfold private_ipv4, mbind, task_bind.
  rewrite (getitem_pure active "server" w).
  destruct (getitem active "server" tt) as [[s|e|] []]; cbn [fst]; try reflexivity.
  rewrite (getitem_pure s "addresses" w).
  destruct (getitem s "addresses" tt) as [[a|e|] []]; cbn [fst]; try reflexivity.
  rewrite (getitem_pure a "private" w).
  destruct (getitem a "private" tt) as [[p|e|] []]; cbn [fst]; try reflexivity.
  rewrite (as_list_pure p w).
  destruct (as_list p tt) as [[ps|e|] []]; cbn [fst]; try reflexivity.
  rewrite (filter_version4_pure ps w).
  destruct (filter_version4 ps tt) as [[v4|e|] []]; cbn [fst]; try reflexivity.
  rewrite (first_item_pure v4 w).
  destruct (first_item v4 tt) as [[x|e|] []]; cbn [fst]; try reflexivity.
  rewrite (getitem_pure x "addr" w).
  destruct (getitem x "addr" tt) as [[ip|e|] []]; reflexivity.
Qed.

Lemma getitem_at_key (v : json) (key : string) (x : json) :
  fst (getitem v key tt) = Succeeded x <-> at_key key v = Some x.
Proof.
  unfold getitem, at_key. destruct v; try (split; discriminate).
  destruct (lookup_key key items); cbn; split; intros H; try discriminate;
    now injection H as <-.
Qed.

Lemma created_server_id_spec (created : json) (server_id : string) :
  created_server_id created = Succeeded server_id <->
  server_id_of created = Some server_id.
Proof.
  unfold created_server_id, server_id_of, mbind, task_bind.
  destruct (getitem created "server" tt) as [[s|e|] []] eqn:E1; cbn [fst].
  - assert (H1 : at_key "server" created = Some s)
      by (apply getitem_at_key; now rewrite E1).
    rewrite H1.
    destruct (getitem s "id" tt) as [[i|e|] []] eqn:E2; cbn [fst].
    + assert (H2 : at_key "id" s = Some i) by (apply getitem_at_key; now rewrite E2).
      rewrite H2. destruct i; cbn; split; intros H; try discriminate;
        now injection H as <-.
    + destruct (at_key "id" s) as [i|] eqn:H2; [|split; discriminate].
      apply getitem_at_key in H2. rewrite E2 in H2. discriminate.
    + destruct (at_key "id" s) as [i|] eqn:H2; [|split; discriminate].
      apply getitem_at_key in H2. rewrite E2 in H2. discriminate.
  - destruct (at_key "server" created) as [s|] eqn:H1; [|split; discriminate].
    apply getitem_at_key in H1. rewrite E1 in H1. discriminate.
  - destruct (at_key "server" created) as [s|] eqn:H1; [|split; discriminate].
    apply getitem_at_key in H1. rewrite E1 in H1. discriminate.
Qed.

Lemma eq_int_true (v : json) (n : Z) : eq_int v n = true <-> v = JInt n.
Proof.
  destruct v; cbn [eq_int]; try (split; [discriminate | intros H; discriminate H]).
  rewrite Z.eqb_eq. split; [now intros -> | intros H; now injection H].
Qed.

Lemma filter_version4_cons (x : json) (xs : list json) (keep : list json) :
  fst (filter_version4 (x :: xs) tt) = Succeeded keep ->
  exists v keep',
    at_key "version" x = Some v /\
    fst (filter_version4 xs tt) = Succeeded keep' /\
    keep = if eq_int v 4 then x :: keep' else keep'.
Proof.
  cbn [filter_version4]. unfold mbind, task_bind.
  destruct (getitem x "version" tt) as [[v|e|] []] eqn:E; cbn [fst]; try discriminate.
  destruct (filter_version4 xs tt) as [[keep'|e|] []]; cbn [fst]; try discriminate.
  intros H. injection H as <-. exists v, keep'.
  split; [apply getitem_at_key; now rewrite E | auto].
Qed.

Lemma filter_version4_all (xs : list json) :
  forall keep,
    fst (filter_version4 xs tt) = Succeeded keep ->
    Forall (fun x => is_Some (at_key "version" x)) xs.
Proof.
  induction xs as [|x xs IH]; intros keep H; [constructor|].
  apply filter_version4_cons in H as (v & keep' & Hv & Hk & _).
  constructor; [rewrite Hv; eauto | now apply (IH keep')].
Qed.

Lemma filter_version4_first (xs : list json) :
  forall x rest,
    fst (filter_version4 xs tt) = Succeeded (x :: rest) ->
    exists before after,
      xs = before ++ x :: after /\
      Forall (fun y => exists v, at_key "version" y = Some v /\ v <> JInt 4) before /\
      at_key "version" x = Some (JInt 4) /\
      Forall (fun y => is_Some (at_key "version" y)) after.
Proof.
  induction xs as [|y xs IH]; intros x rest H; [discriminate|].
  apply filter_version4_cons in H as (v & keep' & Hv & Hk & Hkeep).
  destruct (eq_int v 4) eqn:E.
  - injection Hkeep as -> ->. apply eq_int_true in E. subst v.
    exists [], xs. split; [reflexivity|]. split; [constructor|].
    split; [exact Hv | now apply (filter_version4_all _ _ Hk)].
  - subst keep'. destruct (IH _ _ Hk) as (before & after & -> & Hb & Hx & Ha).
    exists (y :: before), after. split; [reflexivity|].
    split; [|auto]. constructor; [|exact Hb].
    exists v. split; [exact Hv|]. intros ->.
    rewrite (proj2 (eq_int_true _ _) eq_refl) in E. discriminate.
Qed.

Lemma private_ipv4_first (active ip_address : json) :
  private_ipv4 active = Succeeded ip_address -> first_ipv4 active ip_address.
Proof.
  unfold private_ipv4, first_ipv4, private_entries, mbind, task_bind.
  destruct (getitem active "server" tt) as [[s|e|] []] eqn:E1; cbn [fst]; try discriminate.
  assert (H1 : at_key "server" active = Some s) by (apply getitem_at_key; now rewrite E1).
  rewrite H1.
  destruct (getitem s "addresses" tt) as [[a|e|] []] eqn:E2; cbn [fst]; try discriminate.
  assert (H2 : at_key "addresses" s = Some a) by (apply getitem_at_key; now rewrite E2).
  rewrite H2.
  destruct (getitem a "private" tt) as [[p|e|] []] eqn:E3; cbn [fst]; try discriminate.
  assert (H3 : at_key "private" a = Some p) by (apply getitem_at_key; now rewrite E3).
  rewrite H3.
  destruct p as [| | | |entries|]; cbn [as_list]; try discriminate.
  unfold mret at 1. unfold task_ret at 1.
  destruct (filter_version4 entries tt) as [[v4|e|] []] eqn:F; cbn [fst]; try discriminate.
  destruct v4 as [|x rest]; [discriminate|].
  cbn [first_item]. unfold mret at 1. unfold task_ret at 1.
  intros H. apply getitem_at_key in H.
  assert (F' : fst (filter_version4 entries tt) = Succeeded (x :: rest)) by now rewrite F.
  destruct (filter_version4_first _ _ _ F') as (before & after & -> & Hb & Hx & Ha).
  exists before, x, after. auto.
Qed.

(** [launch_server] once the configuration and both endpoints are there:
    the Deferred it returns, callback by callback. *)
Lemma launch_server_run (rt : Runtime) (polls : nat) (region_ : string)
    (service_catalog : list Service) (auth_token : string) (launch_config : LaunchConfig)
    (w : World) (server_config : json) (lb_endpoint server_endpoint : string) :
  resolved service_catalog region_ lb_endpoint server_endpoint ->
  lc_server launch_config = Some server_config ->
  launch_server rt polls region_ service_catalog auth_token launch_config w =
  let r := create_request rt server_endpoint auth_token server_config in
  let w1 := after_request r w in
  match json_outcome rt [202] (treq_send rt (w_sent w) r) with
  | Succeeded created =>
      match created_server_id created with
      | Succeeded server_id =>
          match wait_for_status rt polls server_endpoint auth_token server_id
                  "ACTIVE" 5 w1 with
          | (Succeeded active, w2) =>
              match private_ipv4 active with
              | Succeeded ip_address =>
                  (Succeeded
                     (chained
                        (fst (add_to_load_balancers rt lb_endpoint auth_token
                                (default [] (lc_loadBalancers launch_config))
                                ip_address w2))),
                   snd (add_to_load_balancers rt lb_endpoint auth_token
                          (default [] (lc_loadBalancers launch_config)) ip_address w2))
              | Failed e => (Succeeded (Failed e), w2)
              | Waiting => (Succeeded Waiting, w2)
              end
          | (Failed e, w2) => (Succeeded (Failed e), w2)
          | (Waiting, w2) => (Succeeded Waiting, w2)
          end
      | Failed e => (Succeeded (Failed e), w1)
      | Waiting => (Succeeded Waiting, w1)
      end
  | Failed e => (Succeeded (Failed e), w1)
  | Waiting => (Succeeded Waiting, w1)
  end.
Proof.
  intros (lb & lbs & sv & svs & Hlb & Hlbu & Hsv & Hsvu) Hcfg.
  destruct lb as [lbr lbp]. destruct sv as [svr svp]. cbn in Hlbu, Hsvu. subst lbp svp.
  unfold launch_server. rewrite Hcfg, Hlb, Hsv. cbv beta zeta.
  do 7 (erewrite bind_succeeded by reflexivity; cbv beta zeta).
  cbn [publicURL].
  unfold returning, addCallback.
  unfold mbind at 1. unfold task_bind at 1.
  unfold mbind at 1. unfold task_bind at 1.
  rewrite create_server_run. cbn zeta.
  destruct (json_outcome rt [202] _) as [created|e|]; try reflexivity.
  rewrite created_server_id_bind.
  destruct (created_server_id created) as [server_id|e|]; try reflexivity.
  destruct (wait_for_status rt polls server_endpoint auth_token server_id "ACTIVE" 5 _)
    as [[active|e|] w2]; try reflexivity.
  rewrite private_ipv4_bind.
  destruct (private_ipv4 active) as [ip|e|]; try reflexivity.
  unfold mbind at 1. unfold task_bind at 1.
  destruct (add_to_load_balancers rt lb_endpoint auth_token _ ip w2) as [[d|e|] w3];
    reflexivity.
Qed.

Lemma map_snd_timed {A B} (t : A) (xs : list B) :
  map snd (map (fun x => (t, x)) xs) = xs.
Proof. rewrite map_map. cbn [snd]. apply map_id. Qed.

(** What [launch_server] sends once the launch config has a server and the
    catalog has both endpoints.  It returns a Deferred and raises nothing.
    The requests go out in this order: the create request, once; then the
    polls, all of them for the id that the answer to the create request
    carries; then the add-node requests.  Polls are only sent after a create
    that was answered with 202 and a document with the id of the server.
    Add-node requests are only sent after the last poll was answered with a
    document that shows the status [ACTIVE] and has a private IPv4 address:
    they go to the load balancers of the configs, up to the first config
    without one of its keys, each with that address.  A create request that
    comes to nothing is the failure of the Deferred, and nothing is sent
    after it. *)
Theorem launch_server_creates_then_polls_then_adds :
  forall (rt : Runtime) (polls : nat) (region_ : string) (service_catalog : list Service)
         (auth_token : string) (launch_config : LaunchConfig) (w : World)
         (server_config : json) (lb_endpoint server_endpoint : string),
    resolved service_catalog region_ lb_endpoint server_endpoint ->
    lc_server launch_config = Some server_config ->
    let run := launch_server rt polls region_ service_catalog auth_token launch_config w in
    let create := create_request rt server_endpoint auth_token server_config in
    exists d server_id n adds,
      let details := details_request server_endpoint auth_token server_id in
      fst run = Succeeded d /\
      (n <= polls)%nat /\
      map snd (w_sent (snd run)) = map snd (w_sent w) ++ create :: repeat details n ++ adds /\
      (n = 0%nat \/
       exists created,
         answered rt (w_sent w) create [202] created /\
         server_id_of created = Some server_id) /\
      (adds = [] \/
       exists past t rest active ip_address,
         (1 <= n)%nat /\
         w_sent (snd run) = past ++ (t, details) :: rest /\
         map snd past = map snd (w_sent w) ++ create :: repeat details (n - 1) /\
         map snd rest = adds /\
         answered rt past details [200; 203] active /\
         shows_status active "ACTIVE" /\
         first_ipv4 active ip_address /\
         adds = map (fun node => add_node_request rt lb_endpoint auth_token (fst node)
                                   (snd node) ip_address)
                  (nodes_before_missing (default [] (lc_loadBalancers launch_config)))) /\
      (forall e, refused rt (w_sent w) create [202] e -> d = Failed e /\ n = 0%nat /\ adds = []).
Proof.
  intros rt polls region_ service_catalog auth_token launch_config w server_config
         lb_endpoint server_endpoint Hres Hcfg run create.
  subst run. rewrite (launch_server_run _ _ _ _ _ _ _ _ _ _ Hres Hcfg). cbv zeta.
  fold create.
  assert (Hone : map snd (w_sent (after_request create w))
                 = map snd (w_sent w)
                   ++ create :: repeat (details_request server_endpoint auth_token "") 0
                   ++ []).
  { cbn [after_request w_sent repeat app]. rewrite map_app. reflexivity. }
  destruct (json_outcome rt [202] (treq_send rt (w_sent w) create)) as [created|e|] eqn:J.
  - assert (Hnot : forall e, refused rt (w_sent w) create [202] e -> False).
    { intros e Hr. apply json_outcome_refused in Hr. rewrite J in Hr. discriminate. }
    apply json_outcome_answered in J.
    destruct (created_server_id created) as [server_id|e|] eqn:Hid.
    + apply created_server_id_spec in Hid.
      pose proof (wait_for_status_trace rt server_endpoint auth_token server_id
                    "ACTIVE" 5 ltac:(lia) polls (after_request create w)) as Hw.
      cbv zeta in Hw. destruct Hw as (n & Hn & Hsent & Hok & _).
      assert (Hpolled : forall k,
                map snd (w_sent (after_request create w))
                  ++ repeat (details_request server_endpoint auth_token server_id) k
                = map snd (w_sent w)
                  ++ create
                     :: repeat (details_request server_endpoint auth_token server_id) k).
      { intros k. cbn [after_request w_sent]. rewrite map_app, <- app_assoc.
        reflexivity. }
      rewrite Hpolled in Hsent.
      destruct (wait_for_status rt polls server_endpoint auth_token server_id "ACTIVE" 5
                  (after_request create w)) as [[active|e|] w2];
        cbn [fst snd] in Hok, Hsent.
      * destruct (Hok active eq_refl) as (past & t & Hp & Hm & Hn1 & Ha & Hs).
        rewrite Hpolled in Hm.
        destruct (private_ipv4 active) as [ip_address|e|] eqn:Hip.
        -- apply private_ipv4_first in Hip.
           rewrite add_to_load_balancers_run. cbv zeta. cbn [fst snd].
           eexists _, server_id, n, _. cbv zeta.
           split; [reflexivity|]. split; [exact Hn|].
           split.
           { cbn [after_requests w_sent]. rewrite map_app, map_snd_timed, Hsent.
             rewrite <- app_assoc. reflexivity. }
           split; [right; exists created; split; [exact J | exact Hid]|].
           split; [|intros e Hr; destruct (Hnot e Hr)].
           right. eexists past, t, _, active, ip_address.
           split; [exact Hn1|]. split.
           { cbn [after_requests w_sent]. rewrite Hp, <- app_assoc. reflexivity. }
           split; [exact Hm|]. split; [apply map_snd_timed|]. auto.
        -- exists (Failed e), server_id, n, []. cbv zeta. cbn [fst snd].
           rewrite app_nil_r.
           split; [reflexivity|]. split; [exact Hn|]. split; [exact Hsent|].
           split; [right; exists created; split; [exact J | exact Hid]|].
           split; [left; reflexivity | intros e' Hr; destruct (Hnot e' Hr)].
        -- exists Waiting, server_id, n, []. cbv zeta. cbn [fst snd].
           rewrite app_nil_r.
           split; [reflexivity|]. split; [exact Hn|]. split; [exact Hsent|].
           split; [right; exists created; split; [exact J | exact Hid]|].
           split; [left; reflexivity | intros e' Hr; destruct (Hnot e' Hr)].
      * exists (Failed e), server_id, n, []. cbv zeta. cbn [fst snd].
        rewrite app_nil_r.
        split; [reflexivity|]. split; [exact Hn|]. split; [exact Hsent|].
        split; [right; exists created; split; [exact J | exact Hid]|].
        split; [left; reflexivity | intros e' Hr; destruct (Hnot e' Hr)].
      * exists Waiting, server_id, n, []. cbv zeta. cbn [fst snd].
        rewrite app_nil_r.
        split; [reflexivity|]. split; [exact Hn|]. split; [exact Hsent|].
        split; [right; exists created; split; [exact J | exact Hid]|].
        split; [left; reflexivity | intros e' Hr; destruct (Hnot e' Hr)].
    + exists (Failed e), "", 0%nat, []. cbv zeta. cbn [fst snd].
      split; [reflexivity|]. split; [lia|]. split; [exact Hone|].
      split; [left; reflexivity|].
      split; [left; reflexivity | intros e' Hr; destruct (Hnot e' Hr)].
    + exists Waiting, "", 0%nat, []. cbv zeta. cbn [fst snd].
      split; [reflexivity|]. split; [lia|]. split; [exact Hone|].
      split; [left; reflexivity|].
      split; [left; reflexivity | intros e' Hr; destruct (Hnot e' Hr)].
  - exists (Failed e), "", 0%nat, []. cbv zeta. cbn [fst snd].
    split; [reflexivity|]. split; [lia|]. split; [exact Hone|].
    split; [left; reflexivity|]. split; [left; reflexivity|].
    intros e' Hr. apply json_outcome_refused in Hr. rewrite J in Hr.
    injection Hr as <-. repeat split.
  - exists Waiting, "", 0%nat, []. cbv zeta. cbn [fst snd].
    split; [reflexivity|]. split; [lia|]. split; [exact Hone|].
    split; [left; reflexivity|]. split; [left; reflexivity|].
    intros e' Hr. apply json_outcome_refused in Hr. rewrite J in Hr. discriminate.
Qed.

(** The theorem at the catalog and the launch config of the [__main__]
    block, in region [ORD], against a cloud that accepts the create
    request, shows the server in [BUILD] and then active, and adds the
    node: the four requests of the launch, and the add-node request with
    the IPv4 address of the active server. *)
Lemma launch_server_creates_then_polls_then_adds_witness :
  let lb_endpoint := "https://ord.loadbalancers.api.rackspacecloud.com/v1.0/416511" in
  let server_endpoint := "https://ord.servers.api.rackspacecloud.com/v2/416511" in
  let run := launch_server launching_runtime 5 "ORD" main_catalog "token"
               main_launch_config initial_world in
  let create := create_request launching_runtime server_endpoint "token"
                  (JDict [("name", JStr "test-server-manual"); ("flavorRef", JStr "3")]) in
  resolved main_catalog "ORD" lb_endpoint server_endpoint /\
  fst run = Succeeded (Succeeded [JDict [("nodes", JList [])]]) /\
  map (fun sent => (method (snd sent), url (snd sent), data (snd sent))) (w_sent (snd run))
    = [("POST", "https://ord.servers.api.rackspacecloud.com/v2/416511/servers", Some "");
       ("GET", "https://ord.servers.api.rackspacecloud.com/v2/416511/servers/s1", None);
       ("GET", "https://ord.servers.api.rackspacecloud.com/v2/416511/servers/s1", None);
       ("POST",
        "https://ord.loadbalancers.api.rackspacecloud.com/v1.0/416511/loadbalancers/96815/nodes",
        Some "10.0.0.7")] /\
  exists d server_id n adds,
    let details := details_request server_endpoint "token" server_id in
    fst run = Succeeded d /\
    (n <= 5)%nat /\
    map snd (w_sent (snd run))
      = map snd (w_sent initial_world) ++ create :: repeat details n ++ adds /\
    (n = 0%nat \/
     exists created,
       answered launching_runtime (w_sent initial_world) create [202] created /\
       server_id_of created = Some server_id) /\
    (adds = [] \/
     exists past t rest active ip_address,
       (1 <= n)%nat /\
       w_sent (snd run) = past ++ (t, details) :: rest /\
       map snd past = map snd (w_sent initial_world) ++ create :: repeat details (n - 1) /\
       map snd rest = adds /\
       answered launching_runtime past details [200; 203] active /\
       shows_status active "ACTIVE" /\
       first_ipv4 active ip_address /\
       adds = map (fun node => add_node_request launching_runtime lb_endpoint "token"
                                 (fst node) (snd node) ip_address)
                (nodes_before_missing (default [] (lc_loadBalancers main_launch_config)))) /\
    (forall e,
        refused launching_runtime (w_sent initial_world) create [202] e ->
        d = Failed e /\ n = 0%nat /\ adds = []).
Proof.
  intros lb_endpoint server_endpoint run create.
  assert (Hres : resolved main_catalog "ORD" lb_endpoint server_endpoint).
  { eexists _, _, _, _. repeat split; reflexivity. }
  split; [exact Hres|].
  split; [vm_compute; reflexivity|].
  split; [vm_compute; reflexivity|].
  apply (launch_server_creates_then_polls_then_adds launching_runtime 5 "ORD" main_catalog
           "token" main_launch_config initial_world
           (JDict [("name", JStr "test-server-manual"); ("flavorRef", JStr "3")])
           lb_endpoint server_endpoint Hres).
  reflexivity.
Defined.

(** [launch_server] raises only while it reads its arguments, before the
    first request: it returns a Deferred exactly when the launch config has
    a ['server'] and the catalog gives both endpoints with a public URL;
    otherwise it raises and nothing has been sent or printed.  The launch
    config is read before the catalog, so a config without ['server'] is a
    [KeyError] whatever the catalog holds.  Every later failure (of the
    create request, of a poll, of an add) is a failure of the Deferred and
    not an exception of the call. *)
Theorem launch_server_raises_only_before_the_first_request :
  forall (rt : Runtime) (polls : nat) (region_ : string) (service_catalog : list Service)
         (auth_token : string) (launch_config : LaunchConfig) (w : World),
    let run := launch_server rt polls region_ service_catalog auth_token launch_config w in
    ((exists d, fst run = Succeeded d) <->
     (exists server_config lb_endpoint server_endpoint,
        lc_server launch_config = Some server_config /\
        resolved service_catalog region_ lb_endpoint server_endpoint)) /\
    (forall e, fst run = Failed e -> snd run = w) /\
    (lc_server launch_config = None -> run = (Failed (KeyError "server"), w)) /\
    fst run <> Waiting.
Proof.
  intros rt polls region_ service_catalog auth_token launch_config w run.
  assert (Hcases :
            (exists server_config lb_endpoint server_endpoint,
               lc_server launch_config = Some server_config /\
               resolved service_catalog region_ lb_endpoint server_endpoint) \/
            (exists e, run = (Failed e, w) /\
               (lc_server launch_config = None -> e = KeyError "server") /\
               forall server_config lb_endpoint server_endpoint,
                 lc_server launch_config = Some server_config ->
                 resolved service_catalog region_ lb_endpoint server_endpoint -> False)).
  { subst run. destruct (lc_server launch_config) as [server_config|] eqn:Hcfg.
    2: { right. exists (KeyError "server").
         split; [unfold launch_server; rewrite Hcfg; reflexivity|].
         split; [reflexivity | discriminate]. }
    destruct (endpoints service_catalog (Some "cloudLoadBalancers") None (Some region_))
      as [lb_found [e|]] eqn:Hlb.
    { right. exists e. split; [unfold launch_server; rewrite Hcfg, Hlb; reflexivity|].
      split; [discriminate|].
      intros c l s _ (x & xs & y & ys & H1 & H2 & H3 & H4). rewrite Hlb in H1. discriminate H1. }
    destruct lb_found as [|[lb_region [lb_endpoint|]] lbs].
    { right. exists IndexError.
      split; [unfold launch_server; rewrite Hcfg, Hlb; reflexivity|].
      split; [discriminate|].
      intros c l s _ (x & xs & y & ys & H1 & H2 & H3 & H4). rewrite Hlb in H1. discriminate H1. }
    2: { right. exists (KeyError "publicURL").
         split; [unfold launch_server; rewrite Hcfg, Hlb; reflexivity|].
         split; [discriminate|].
         intros c l s _ (x & xs & y & ys & H1 & H2 & H3 & H4).
         rewrite Hlb in H1. injection H1 as <- <-. discriminate H2. }
    destruct (endpoints service_catalog (Some "cloudServersOpenStack") None (Some region_))
      as [server_found [e|]] eqn:Hsv.
    { right. exists e. split; [unfold launch_server; rewrite Hcfg, Hlb, Hsv; reflexivity|].
      split; [discriminate|].
      intros c l s _ (x & xs & y & ys & H1 & H2 & H3 & H4). rewrite Hsv in H3. discriminate H3. }
    destruct server_found as [|[server_region [server_endpoint|]] svs].
    { right. exists IndexError.
      split; [unfold launch_server; rewrite Hcfg, Hlb, Hsv; reflexivity|].
      split; [discriminate|].
      intros c l s _ (x & xs & y & ys & H1 & H2 & H3 & H4). rewrite Hsv in H3. discriminate H3. }
    2: { right. exists (KeyError "publicURL").
         split; [unfold launch_server; rewrite Hcfg, Hlb, Hsv; reflexivity|].
         split; [discriminate|].
         intros c l s _ (x & xs & y & ys & H1 & H2 & H3 & H4).
         rewrite Hsv in H3. injection H3 as <- <-. discriminate H4. }
    left. exists server_config, lb_endpoint, server_endpoint. split; [reflexivity|].
    exists (mkEndpoint lb_region (Some lb_endpoint)), lbs,
           (mkEndpoint server_region (Some server_endpoint)), svs.
    split; [exact Hlb|]. split; [reflexivity|]. split; [exact Hsv | reflexivity]. }
  destruct Hcases as [(server_config & lb_endpoint & server_endpoint & Hcfg & Hres)
                     |(e & Hrun & Hkey & Hno)].
  - assert (Hd : exists d, fst run = Succeeded d).
    { subst run. rewrite (launch_server_run _ _ _ _ _ _ _ _ _ _ Hres Hcfg). cbv zeta.
      destruct (json_outcome rt [202] _) as [created|e|]; [|eexists; reflexivity..].
      destruct (created_server_id created) as [server_id|e|]; [|eexists; reflexivity..].
      destruct (wait_for_status rt polls server_endpoint auth_token server_id "ACTIVE" 5 _)
        as [[active|e|] w2]; [|eexists; reflexivity..].
      destruct (private_ipv4 active) as [ip_address|e|]; eexists; reflexivity. }
    destruct Hd as [d Hd].
    split; [split; [intros _; exists server_config, lb_endpoint, server_endpoint; now split
                   | intros _; now exists d]|].
    split; [intros e He; rewrite Hd in He; discriminate He|].
    split; [intros Hnone; rewrite Hnone in Hcfg; discriminate Hcfg|].
    rewrite Hd. discriminate.
  - rewrite Hrun. cbn [fst snd].
    split; [split; [intros [d Hd]; discriminate Hd
                   | intros (c & l & s & Hc & Hr); destruct (Hno c l s Hc Hr)]|].
    split; [reflexivity|].
    split; [intros Hnone; now rewrite (Hkey Hnone)|].
    discriminate.
Qed.

End WorkerLaws.
